(** * Verification of the [helpers] command-line utilities

    A shallow embedding of the Go package [helpers] (string-slice helpers,
    the terminal user-interaction layer, the spinner, and the filesystem
    utilities), together with the properties stated about it.

    Go strings are byte sequences: they are modelled by [string] (lists of
    8-bit characters).  The functions of the Go standard library that the
    package calls are modelled in [GoStrings], from the documentation and
    the sources of the library. *)

From Stdlib Require Import ZArith Ascii String List Lia Bool DecimalString.
From stdpp Require Import gmap strings list sorting.

Local Open Scope Z_scope.

(** ** The Go standard library functions used by the package *)

Module GoStrings.

Definition byte_in (lo hi : N) (c : ascii) : bool :=
  ((lo <=? N_of_ascii c) && (N_of_ascii c <=? hi))%N.

Definition upper_byte (c : ascii) : ascii :=
  if byte_in 97 122 c then ascii_of_N (N_of_ascii c - 32) else c.

Definition lower_byte (c : ascii) : ascii :=
  if byte_in 65 90 c then ascii_of_N (N_of_ascii c + 32) else c.

Definition bytes (codes : list N) : string :=
  foldr (fun n s => String (ascii_of_N n) s) EmptyString codes.

Definition is_byte (n : N) (c : ascii) : bool := (N_of_ascii c =? n)%N.

(** [strings.ToUpper].  Letters of ASCII are mapped; so are the two code
    points outside ASCII whose upper case is in ASCII, U+0131 and U+017F
    (in UTF-8: C4 B1 and C5 BF).  Other bytes are left as they are: the
    case mapping of other letters is not modelled, which leaves
    comparisons of the result with an ASCII string exact. *)
Fixpoint ToUpper (s : string) : string :=
  match s with
  | EmptyString => EmptyString
  | String c s1 =>
      match s1 with
      | String c2 s2 =>
          if is_byte 196 c && is_byte 177 c2 then String "I" (ToUpper s2)
          else if is_byte 197 c && is_byte 191 c2 then String "S" (ToUpper s2)
          else String (upper_byte c) (ToUpper s1)
      | EmptyString => String (upper_byte c) EmptyString
      end
  end.

(** [strings.ToLower], in the same way: the code points outside ASCII
    whose lower case is in ASCII are U+0130 (C4 B0) and the Kelvin sign
    U+212A (E2 84 AA).  Like [ToUpper], it is used only where the code
    compares the result with an ASCII constant (the choices of the user
    interface); it is not the case mapping of other letters. *)
Fixpoint ToLower (s : string) : string :=
  match s with
  | EmptyString => EmptyString
  | String c s1 =>
      match s1 with
      | String c2 s2 =>
          if is_byte 196 c && is_byte 176 c2 then String "i" (ToLower s2)
          else
            match s2 with
            | String c3 s3 =>
                if is_byte 226 c && is_byte 132 c2 && is_byte 170 c3
                then String "k" (ToLower s3)
                else String (lower_byte c) (ToLower s1)
            | EmptyString => String (lower_byte c) (ToLower s1)
            end
      | EmptyString => String (lower_byte c) EmptyString
      end
  end.

(** [strings.HasPrefix s p]. *)
Fixpoint HasPrefix (s p : string) {struct p} : bool :=
  match p, s with
  | EmptyString, _ => true
  | String _ _, EmptyString => false
  | String a p', String b s' => Ascii.eqb a b && HasPrefix s' p'
  end.

(** [strings.Contains s substr]. *)
Fixpoint Contains (s substr : string) : bool :=
  HasPrefix s substr ||
  match s with
  | EmptyString => false
  | String _ s' => Contains s' substr
  end.

(** White space as [unicode.IsSpace] has it, in UTF-8: tab, line feed,
    vertical tab, form feed, carriage return, space, U+0085, U+00A0,
    U+1680, U+2000 to U+200A, U+2028, U+2029, U+202F, U+205F, U+3000. *)
Definition space_runes : list string :=
  map bytes
      [[9]; [10]; [11]; [12]; [13]; [32]; [194; 133]; [194; 160]; [225; 154; 128];
       [226; 128; 128]; [226; 128; 129]; [226; 128; 130]; [226; 128; 131];
       [226; 128; 132]; [226; 128; 133]; [226; 128; 134]; [226; 128; 135];
       [226; 128; 136]; [226; 128; 137]; [226; 128; 138];
       [226; 128; 168]; [226; 128; 169]; [226; 128; 175]; [226; 129; 159];
       [227; 128; 128]]%N.

Definition is_space_rune (s : string) : bool := existsb (String.eqb s) space_runes.

Fixpoint trim_left (s : string) : string :=
  match s with
  | EmptyString => EmptyString
  | String c s1 =>
      if is_space_rune (String c EmptyString) then trim_left s1
      else
        match s1 with
        | String c2 s2 =>
            if is_space_rune (String c (String c2 EmptyString)) then trim_left s2
            else
              match s2 with
              | String c3 s3 =>
                  if is_space_rune (String c (String c2 (String c3 EmptyString)))
                  then trim_left s3
                  else s
              | EmptyString => s
              end
        | EmptyString => s
        end
  end.

Fixpoint trim_right (s : string) : string :=
  match s with
  | EmptyString => EmptyString
  | String c s' =>
      let t := String c (trim_right s') in
      if is_space_rune t then EmptyString else t
  end.

(** [strings.TrimSpace]. *)
Definition TrimSpace (s : string) : string := trim_right (trim_left s).

(** The scan of [strings.Replace] for a non-empty [old]: matches are found
    leftmost first and do not overlap.  [skip] counts the bytes of the
    current match that are still to be dropped. *)
Fixpoint replace_scan (old new s : string) (skip : nat) : string :=
  match s with
  | EmptyString => EmptyString
  | String c s' =>
      match skip with
      | S k => replace_scan old new s' k
      | O =>
          if HasPrefix s old
          then new +:+ replace_scan old new s' (String.length old - 1)
          else String c (replace_scan old new s' O)
      end
  end.

(** With an empty [old], [strings.Replace] puts [new] before every
    character and at the end. *)
Fixpoint replace_empty (new s : string) : string :=
  match s with
  | EmptyString => new
  | String c s' => new +:+ String c (replace_empty new s')
  end.

(** [strings.Replace s old new (-1)]: every occurrence is replaced. *)
Definition Replace (s old new : string) : string :=
  if String.eqb old new then s
  else if String.eqb old EmptyString then replace_empty new s
  else replace_scan old new s O.

Definition digit_of (c : ascii) : option Z :=
  if byte_in 48 57 c then Some (Z.of_N (N_of_ascii c) - 48) else None.

Fixpoint parse_digits (acc : Z) (s : string) : option Z :=
  match s with
  | EmptyString => Some acc
  | String c s' =>
      match digit_of c with
      | Some d => parse_digits (10 * acc + d) s'
      | None => None
      end
  end.

Definition in_int64 (z : Z) : bool :=
  (- 2 ^ 63 <=? z) && (z <=? 2 ^ 63 - 1).

Definition parse_unsigned (s : string) : option Z :=
  match s with
  | EmptyString => None
  | _ => parse_digits 0 s
  end.

(** [strconv.Atoi] on a 64-bit platform: an optional sign, then at least
    one decimal digit and nothing else; [None] stands for the error
    (syntax or range). *)
Definition Atoi (s : string) : option Z :=
  let signed :=
    match s with
    | String c s' =>
        if Ascii.eqb c "-" then option_map Z.opp (parse_unsigned s')
        else if Ascii.eqb c "+" then parse_unsigned s'
        else parse_unsigned s
    | EmptyString => None
    end in
  match signed with
  | Some z => if in_int64 z then Some z else None
  | None => None
  end.

Definition is_slash (c : ascii) : bool := Ascii.eqb c "/"%char.

Fixpoint has_slash (s : string) : bool :=
  match s with
  | EmptyString => false
  | String c s' => is_slash c || has_slash s'
  end.

(** What the backward scan of [filepath.Ext] finds in [s]: whether a
    separator occurs, and the suffix from the last dot after it. *)
Fixpoint ext_scan (s : string) : bool * option string :=
  match s with
  | EmptyString => (false, None)
  | String c s' =>
      let '(sep, e) := ext_scan s' in
      if is_slash c then (true, e)
      else if sep then (sep, e)
      else match e with
           | Some _ => (sep, e)
           | None => if Ascii.eqb c "."%char then (false, Some s) else (false, None)
           end
  end.

(** [filepath.Ext]. *)
Definition Ext (s : string) : string := default EmptyString (ext_scan s).2.

Fixpoint strip_trailing_slashes (s : string) : string :=
  match s with
  | EmptyString => EmptyString
  | String c s' =>
      match strip_trailing_slashes s' with
      | EmptyString => if is_slash c then EmptyString else String c EmptyString
      | t => String c t
      end
  end.

Fixpoint last_element (s : string) : string :=
  match s with
  | EmptyString => EmptyString
  | String c s' =>
      if has_slash s' then last_element s'
      else if is_slash c then s' else s
  end.

(** [filepath.Base]. *)
Definition Base (s : string) : string :=
  match s with
  | EmptyString => "."
  | _ =>
      match last_element (strip_trailing_slashes s) with
      | EmptyString => "/"
      | b => b
      end
  end.

Fixpoint cut_suffix (s suffix : string) : option string :=
  if String.eqb s suffix then Some EmptyString
  else match s with
       | EmptyString => None
       | String c s' => option_map (String c) (cut_suffix s' suffix)
       end.

(** [strings.TrimSuffix]. *)
Definition TrimSuffix (s suffix : string) : string :=
  default s (cut_suffix s suffix).

(** The elements of a slash-separated path. *)
Fixpoint split_slash (s : string) : list string :=
  match s with
  | EmptyString => [EmptyString]
  | String c s' =>
      if is_slash c then EmptyString :: split_slash s'
      else match split_slash s' with
           | [] => [String c EmptyString]
           | e :: es => String c e :: es
           end
  end.

(** [filepath.Join dir elem] for a clean absolute [dir], given as the
    list of its names: the elements of [elem] are appended, with empty
    and [.] elements dropped and [..] going up. *)
Definition Join (dir : list string) (elem : string) : list string :=
  foldl (fun p e =>
           if String.eqb e "" || String.eqb e "." then p
           else if String.eqb e ".." then removelast p
           else p ++ [e]) dir (split_slash elem).

(** [%d] of [fmt.Sprintf] for a non-negative integer. *)
Definition format_nat (n : nat) : string :=
  DecimalString.NilEmpty.string_of_uint (Nat.to_uint n).

End GoStrings.

(** ** String-slice helpers *)

Module Slices.
Import GoStrings.

Fixpoint index_from (i : Z) (a : string) (l : list string) : Z * bool :=
  match l with
  | [] => (-1, false)
  | b :: l' => if String.eqb b a then (i, true) else index_from (i + 1) a l'
  end.

(** [StringInSlice]: the index of the first element equal to [a]. *)
Definition StringInSlice (a : string) (l : list string) : Z * bool :=
  index_from 0 a l.

(** The two helpers that compare regardless of case apply
    [strings.ToLower] to arbitrary strings.  The case mapping of all of
    Unicode is not modelled here ([GoStrings.ToLower] is exact only for
    results compared with an ASCII constant), so these helpers take the
    mapping as the parameter [ToLower]: what is proved of them holds
    whatever [strings.ToLower] maps a string to. *)
Section CaseMapping.
Variable ToLower : string -> string.

Fixpoint index_from_ci (i : Z) (a : string) (l : list string) : Z * bool :=
  match l with
  | [] => (-1, false)
  | b :: l' =>
      if String.eqb (ToLower b) (ToLower a) then (i, true)
      else index_from_ci (i + 1) a l'
  end.

(** [StringInSliceCaseInsensitive]. *)
Definition StringInSliceCaseInsensitive (a : string) (l : list string) : Z * bool :=
  index_from_ci 0 a l.

(** [CaseInsensitiveContains]. *)
Definition CaseInsensitiveContains (s substr : string) : bool :=
  Contains (ToLower s) (ToLower substr).

End CaseMapping.

(** A Go [map[string]bool] read at a missing key gives [false]. *)
Definition found_at (found : gmap string bool) (x : string) : bool :=
  default false (found !! x).

Definition mark_all (others : list string) : gmap string bool :=
  foldl (fun found o => <[o := true]> found) ∅ others.

(** The second loop of [RemoveDuplicates].  It runs over the backing
    array [arr] in place: iteration [i] reads [arr[i]] and, when the
    element is kept, writes it at [arr[j]].  [n] is the number of
    iterations left. *)
Fixpoint compact (n i : nat) (arr : list string)
         (found : gmap string bool) (j : nat) : list string * nat :=
  match n with
  | O => (arr, j)
  | S n' =>
      match arr !! i with
      | None => (arr, j)
      | Some x =>
          if negb (found_at found x) && negb (String.eqb x "")
          then compact n' (S i) (<[j := x]> arr) (<[x := true]> found) (S j)
          else compact n' (S i) arr found j
      end
  end.

(** [RemoveDuplicates]: the slice [*options] after the call. *)
Definition RemoveDuplicates (options others : list string) : list string :=
  let '(arr, j) := compact (length options) 0 options (mark_all others) 0 in
  take j arr.

(** The same loop on an immutable list: what is kept of [l] when the
    strings marked in [found] have been seen. *)
Fixpoint keep_new (found : gmap string bool) (l : list string) : list string :=
  match l with
  | [] => []
  | x :: l' =>
      if negb (found_at found x) && negb (String.eqb x "")
      then x :: keep_new (<[x := true]> found) l'
      else keep_new found l'
  end.

(** The reading of "the first occurrence of each kept element survives":
    the element at index [i] stays exactly when it is neither empty nor
    among the strings to clean, and does not occur before [i]. *)
Definition first_occurrences (l others : list string) : list string :=
  omap id (imap (fun i x =>
                   if decide ((x ∉ take i l) ∧ (x ≠ "") ∧ (x ∉ others))
                   then Some x else None) l).

End Slices.

(** ** Slices in memory *)

(** The helpers once more, as they act on the memory of the program: a
    slice is a window on cells that other slices may share, and
    [RemoveDuplicates] writes through the pointer it is given. *)
Module Memory.
Import GoStrings.

(** The cells that hold the elements of slices of strings, by address. *)
Abbreviation memory := (gmap nat string).

(** A slice value: the address of its first element, its length and its
    capacity. *)
Record slice := { ptr : nat; len : nat; cap : nat }.

(** [s[i]].  An address that holds nothing reads as the empty string; a
    slice of a running program refers to no such address. *)
Definition at_index (m : memory) (s : slice) (i : nat) : string :=
  default "" (m !! (ptr s + i)%nat).

(** The elements of [s], in order. *)
Definition elems (m : memory) (s : slice) : list string :=
  at_index m s <$> seq 0 (len s).

(** A function that runs on the memory: its result, and the memory it
    leaves. *)
Definition Mem (A : Type) : Type := memory -> A * memory.

(** The loop of [StringInSlice]: [n] iterations left, at index [i]. *)
Fixpoint index_at (n i : nat) (a : string) (list : slice) (m : memory) : Z * bool :=
  match n with
  | O => (-1, false)
  | S n' =>
      if String.eqb (at_index m list i) a then (Z.of_nat i, true)
      else index_at n' (S i) a list m
  end.

(** [StringInSlice]: the slice is passed by value and only read. *)
Definition StringInSlice (a : string) (list : slice) : Mem (Z * bool) :=
  fun m => (index_at (len list) 0 a list m, m).

(** [CaseInsensitiveContains]: strings are immutable values, no cell is
    read or written. *)
Definition CaseInsensitiveContains (ToLower : string -> string)
           (s substr : string) : Mem bool :=
  fun m => (Slices.CaseInsensitiveContains ToLower s substr, m).

(** The second loop of [RemoveDuplicates]: the slice that [options]
    points to is evaluated once by [range]; iteration [i] reads its
    element [i] and, when the element is kept, writes it to its element
    [j]. *)
Fixpoint compact_at (n i : nat) (options : slice) (found : gmap string bool)
         (j : nat) (m : memory) : memory * nat :=
  match n with
  | O => (m, j)
  | S n' =>
      let x := at_index m options i in
      if negb (Slices.found_at found x) && negb (String.eqb x "")
      then compact_at n' (S i) options (<[x := true]> found) (S j)
             (<[(ptr options + j)%nat := at_index m options i]> m)
      else compact_at n' (S i) options found j m
  end.

(** [RemoveDuplicates]: [options] is the slice that the pointer refers
    to, and the result is the slice left there by the last statement,
    the same cells with the length [j]; the variadic
    [otherStringsToClean] is a slice too, read in the first loop, before
    anything is written. *)
Definition RemoveDuplicates (options others : slice) : Mem slice :=
  fun m =>
    let found := Slices.mark_all (elems m others) in
    let '(m', j) := compact_at (len options) 0 options found 0 m in
    ({| ptr := ptr options; len := j; cap := cap options |}, m').

End Memory.

(** ** Error values *)

Module GoErrors.

Inductive errno :=
  ENOENT | ENOTDIR | EEXIST | EISDIR | ENOTEMPTY | ELOOP | EBUSY | EACCES.

(** A Go [error] value: the result of [errors.New] (also [io.EOF]), an
    error of the operating system, or the result of [fmt.Errorf] kept as
    its format and arguments.  [None : option error] is [nil]. *)
Inductive error :=
| ErrorString (msg : string)
| PathError (e : errno)
| ErrorF (format : string) (args : list string).

#[global] Instance errno_eq_dec : EqDecision errno.
Proof. solve_decision. Defined.
#[global] Instance error_eq_dec : EqDecision error.
Proof. solve_decision. Defined.

(** [io.EOF], [os.ErrNotExist] and [filepath.SkipDir]. *)
Definition EOF : error := ErrorString "EOF".
Definition ErrNotExist : error := ErrorString "file does not exist".
Definition SkipDir : error := ErrorString "skip this directory".

(** [os.IsNotExist]. *)
Definition IsNotExist (e : error) : bool :=
  match e with
  | PathError ENOENT => true
  | _ => bool_decide (e = ErrNotExist)
  end.

End GoErrors.

(** ** The user-interaction layer (package [ui])

    Terminal output ([fmt.Printf], [Choice], [Warning], [SubPart]) has no
    influence on what the functions return and is not modelled.  Input is the
    sequence of lines the terminal delivers, one per read, and the sequence
    of external editor sessions. *)

Module UI.
Import GoStrings GoErrors.

Definition invalidChoice : string := "Invalid choice.".
Definition userAborted : string := "User aborted.".
Definition LocalTag : string := "[current] ".
Definition OnlineTag : string := "[online/new] ".

(** The receiver.  Its colouring methods are declared in a file of the
    package that is not among the sources at hand, so they are carried as
    fields. *)
Record UI := {
  CyanBold : string -> string;
  YellowBold : string -> string
}.

(** What [ReadString('\n')] returns: the text read and the error. *)
Record ReadResult := { text : string; rerr : option error }.

(** What an editor session leaves: a failure of one of the steps of
    [Edit], or the content of the temporary file afterwards. *)
Inductive EditResult :=
| EditFailed (e : error)
| Edited (content : string).

Record World := {
  stdin : nat -> ReadResult;
  editor : nat -> string -> EditResult;
  reads : nat;
  edits : nat
}.

Definition IO (A : Type) : Type := World -> A * World.

#[global] Instance IO_ret : MRet IO := fun A a w => (a, w).
#[global] Instance IO_bind : MBind IO :=
  fun A B k m w => let '(a, w') := m w in k a w'.
Definition ret {A} (a : A) : IO A := mret a.

(** The world after one more read of the terminal. *)
Definition next_line (w : World) : World :=
  {| stdin := stdin w; editor := editor w;
     reads := S (reads w); edits := edits w |}.

(** [GetInput]. *)
Definition GetInput : IO (string * option error) :=
  fun w =>
    let r := stdin w (reads w) in
    ((TrimSpace (text r), rerr r), next_line w).

(** [Accept]. *)
Definition Accept (question : string) : IO bool :=
  '(input, err) ← GetInput;
  match err with
  | None =>
      ret (String.eqb input "y" || String.eqb input "Y" || String.eqb input "yes")
  | Some _ => ret false
  end.

(** The lines that [Accept] takes for a yes. *)
Definition says_yes (r : ReadResult) : bool :=
  match rerr r with
  | None =>
      let input := TrimSpace (text r) in
      String.eqb input "y" || String.eqb input "Y" || String.eqb input "yes"
  | Some _ => false
  end.

(** [Edit]: every failing step returns the old value with the error. *)
Definition Edit (oldValue : string) : IO (string * option error) :=
  fun w =>
    let w' := {| stdin := stdin w; editor := editor w;
                 reads := reads w; edits := S (edits w) |} in
    match editor w (edits w) oldValue with
    | EditFailed e => ((oldValue, Some e), w')
    | Edited newContent => ((TrimSpace newContent, None), w')
    end.

(** [Tag]. *)
Definition Tag (ui : UI) (entry : string) (isLocal : bool) : string :=
  if isLocal then CyanBold ui LocalTag +:+ entry
  else YellowBold ui OnlineTag +:+ entry.

(** [unTag]. *)
Definition unTag (ui : UI) (option : string) : string :=
  let out := option in
  let out := Replace out (CyanBold ui LocalTag) "" in
  let out := Replace out (YellowBold ui OnlineTag) "" in
  TrimSpace out.

(** [compatible a b]: one of the two strings is a prefix of the other. *)
Fixpoint compatible (a b : string) : bool :=
  match a, b with
  | String x a', String y b' => Ascii.eqb x y && compatible a' b'
  | _, _ => true
  end.

(** [may_start_in tag other]: some text after [tag] would make [other]
    occur at a position inside [tag]. *)
Fixpoint may_start_in (tag other : string) : bool :=
  match tag with
  | EmptyString => false
  | String _ tag' => compatible tag other || may_start_in tag' other
  end.

(** One turn of a retry loop either returns from the function or goes
    round again with the loop variables updated. *)
Inductive turn (R S : Type) :=
| Return (r : R)
| Again (s : S).
Arguments Return {R S} r.
Arguments Again {R S} s.

Definition result : Type := string * option error.

(** The text handed to the editor for a long field. *)
Fixpoint allVersions_from (ui : UI) (i : nat) (options : list string) : string :=
  match options with
  | [] => ""
  | o :: rest =>
      ("--- " +:+ format_nat (i + 1) +:+ " ---" +:+ String "010"%char (unTag ui o)
         +:+ String "010"%char "")
      +:+ allVersions_from ui (S i) rest
  end.

(** The end of the body of the loop of [SelectOption].  [validChoice] is
    never assigned in the function, so the test [!validChoice] passes. *)
Definition count_error (errs : nat) : turn result nat :=
  let errs := S errs in
  if (10 <? errs)%nat then Return ("", Some (ErrorString invalidChoice))
  else Again errs.

(** The body of the loop of [SelectOption]; [errs] is the counter. *)
Definition SelectOption_body (ui : UI) (options : list string)
           (longField : bool) (errs : nat) : IO (turn result nat) :=
  '(choice, scanErr) ← GetInput;
  match scanErr with
  | Some e => ret (Return ("", Some e))
  | None =>
      if String.eqb (ToUpper choice) "E" then
        '(edited, scanErr) ←
           (if longField then Edit (allVersions_from ui 0 options) else GetInput);
        match scanErr with
        | Some e => ret (Return ("", Some e))
        | None =>
            confirmed ← Accept ("Confirm: " +:+ edited);
            if (confirmed : bool) then ret (Return (edited, None))
            else ret (count_error errs)
        end
      else if String.eqb (ToUpper choice) "A" then
        ret (Return ("", Some (ErrorString userAborted)))
      else if String.eqb (ToUpper choice) "B" then
        ret (Return ("", None))
      else
        match Atoi choice with
        | Some index =>
            if (0 <? index) && (index <=? Z.of_nat (length options))
            then ret (Return (unTag ui (nth (Z.to_nat (index - 1)) options ""), None))
            else ret (count_error errs)
        | None => ret (count_error errs)
        end
  end.

(** The loop [for !validChoice]; [None] when [fuel] turns did not
    reach a [return]. *)
Fixpoint SelectOption_loop (fuel : nat) (ui : UI) (options : list string)
         (longField : bool) (errs : nat) : IO (option result) :=
  match fuel with
  | O => ret None
  | S fuel' =>
      t ← SelectOption_body ui options longField errs;
      match t with
      | Return r => ret (Some r)
      | Again errs' => SelectOption_loop fuel' ui options longField errs'
      end
  end.

(** [SelectOption]. *)
Definition SelectOption (fuel : nat) (ui : UI) (title usage : string)
           (options : list string) (longField : bool) : IO (option result) :=
  let options := Slices.RemoveDuplicates options [] in
  SelectOption_loop fuel ui options longField 0.

(** The variables of the loop of [UpdateValue]. *)
Record update_state := {
  newValue : string;
  validChoice : bool;
  errs : nat
}.

(** The body of the loop of [UpdateValue]. *)
Definition UpdateValue_body (oldValue : string) (longField : bool)
           (s : update_state) : IO (turn result update_state) :=
  '(choice, scanErr) ← GetInput;
  match scanErr with
  | Some e => ret (Return (newValue s, Some e))
  | None =>
      if String.eqb (ToLower choice) "e" then
        '(choice, scanErr) ← (if longField then Edit oldValue else GetInput);
        match scanErr with
        | Some e => ret (Return (newValue s, Some e))
        | None =>
            confirmed ← Accept "Confirm";
            if (confirmed : bool)
            then ret (Again {| newValue := choice; validChoice := true; errs := errs s |})
            else ret (Again s)
        end
      else if String.eqb (ToLower choice) "k" then
        ret (Again {| newValue := oldValue; validChoice := true; errs := errs s |})
      else
        let errs' := S (errs s) in
        if (10 <? errs')%nat
        then ret (Return ("", Some (ErrorString invalidChoice)))
        else ret (Again {| newValue := newValue s;
                           validChoice := validChoice s; errs := errs' |})
  end.

(** The loop [for !validChoice] and the final [return]. *)
Fixpoint UpdateValue_loop (fuel : nat) (oldValue : string) (longField : bool)
         (s : update_state) : IO (option result) :=
  if validChoice s then ret (Some (TrimSpace (newValue s), None))
  else
    match fuel with
    | O => ret None
    | S fuel' =>
        t ← UpdateValue_body oldValue longField s;
        match t with
        | Return r => ret (Some r)
        | Again s' => UpdateValue_loop fuel' oldValue longField s'
        end
    end.

(** [UpdateValue]. *)
Definition UpdateValue (fuel : nat) (field usage oldValue : string)
           (longField : bool) : IO (option result) :=
  UpdateValue_loop fuel oldValue longField
    {| newValue := ""; validChoice := false; errs := 0 |}.

End UI.

(** ** The spinner (package [helpers], time tracking)

    The main goroutine of [SpinWhileThingsHappen] sits in a [select] over
    two channels: [c1], on which the ticker goroutine sends [true] every
    100 ms, and [c2], on which the worker goroutine sends the result of [f]
    once.  An interleaving of the two senders is the sequence of messages
    the [select] receives. *)

Module Spinner.
Import GoErrors.

Inductive message :=
| Tick
| Finished (e : option error).

(** The variables of the loop: [functionDone] and the named result
    [err] of the function. *)
Record spin_state := {
  functionDone : bool;
  err : option error
}.

(** One [select].  The [err] of [case err := <-c2] is a new variable of
    that case: the named result is not assigned. *)
Definition select_case (m : message) (s : spin_state)
  : UI.turn (option error) spin_state :=
  match m with
  | Tick => UI.Again s
  | Finished (Some e) => UI.Return (Some e)
  | Finished None => UI.Again {| functionDone := true; err := err s |}
  end.

(** The loop [for !functionDone] over the messages that arrive; [None]
    when the main goroutine is left waiting. *)
Fixpoint spin_loop (arriving : list message) (s : spin_state)
  : option (option error) :=
  if functionDone s then Some (err s)
  else
    match arriving with
    | [] => None
    | m :: rest =>
        match select_case m s with
        | UI.Return r => Some r
        | UI.Again s' => spin_loop rest s'
        end
    end.

(** The messages when the ticker fires [ticks] times before the result of
    the worker is received. *)
Definition interleaving (ticks : nat) (f : unit -> option error) : list message :=
  repeat Tick ticks ++ [Finished (f tt)].

(** [SpinWhileThingsHappen]. *)
Definition SpinWhileThingsHappen (title : string) (f : unit -> option error)
           (ticks : nat) : option (option error) :=
  spin_loop (interleaving ticks f) {| functionDone := false; err := None |}.

(** [CheckErrors]. *)
Fixpoint CheckErrors (errs : list (option error)) : option error :=
  match errs with
  | [] => None
  | Some e :: _ => Some e
  | None :: rest => CheckErrors rest
  end.

End Spinner.

(** ** The file tree and package [os]

    A file tree is a finite map from clean absolute paths (the list of the
    names from the root) to what is there.  The model is the tree seen by
    one process: every access is permitted, nothing else changes the tree,
    and no operation fails for lack of resources.  [filepath.Clean] is the
    identity on such paths, and [os.Getwd] succeeds. *)

Module FS.
Import GoStrings GoErrors.

Abbreviation path := (list string).

Inductive inode :=
| IFile (data : string)
| IDir
| ISymlink (target : path)
| ISpecial.

#[global] Instance inode_eq_dec : EqDecision inode.
Proof. solve_decision. Defined.

Abbreviation files := (gmap path inode).

(** The result of walking a path down the tree. *)
Inductive located :=
| Found (canon : path) (i : inode)
| Absent (canon : path)
| Failed (e : errno).

(** One descent from the root.  [canon] is the place reached, [rest]
    what is still to walk; [jump] resolves the path a symbolic link
    stands for.  [follow] tells whether a link in the last position is
    followed ([stat]) or not ([lstat]); a link in the middle of a path
    always is. *)
Fixpoint descend (fs : files) (follow : bool) (jump : path -> located)
         (canon rest : path) {struct rest} : located :=
  match fs !! canon with
  | None =>
      match rest with
      | [] => Absent canon
      | _ :: _ => Failed ENOENT
      end
  | Some (ISymlink t) =>
      match follow, rest with
      | false, [] => Found canon (ISymlink t)
      | _, _ => jump (t ++ rest)
      end
  | Some IDir =>
      match rest with
      | [] => Found canon IDir
      | c :: rest' => descend fs follow jump (canon ++ [c]) rest'
      end
  | Some i =>
      match rest with
      | [] => Found canon i
      | _ :: _ => Failed ENOTDIR
      end
  end.

(** Path resolution; [hops] bounds the number of links followed. *)
Fixpoint resolve (hops : nat) (fs : files) (follow : bool) (p : path) : located :=
  match hops with
  | O => Failed ELOOP
  | S h => descend fs follow (resolve h fs follow) [] p
  end.

Definition max_hops : nat := 40.

(** An [os.FileInfo]: where the file is (its identity, for
    [os.SameFile]) and what it is. *)
Record FileInfo := { ino : path; kind : inode }.

Definition IsDir (info : FileInfo) : bool :=
  match kind info with IDir => true | _ => false end.
Definition IsRegular (info : FileInfo) : bool :=
  match kind info with IFile _ => true | _ => false end.
Definition IsSymlink (info : FileInfo) : bool :=
  match kind info with ISymlink _ => true | _ => false end.
Definition SameFile (a b : FileInfo) : bool :=
  bool_decide (ino a = ino b).

Definition info_of (fs : files) (follow : bool) (p : path) : error + FileInfo :=
  match resolve max_hops fs follow p with
  | Found canon i => inr {| ino := canon; kind := i |}
  | Absent _ => inl (PathError ENOENT)
  | Failed e => inl (PathError e)
  end.

(** [os.Stat] and [os.Lstat]. *)
Definition Stat (fs : files) (p : path) : error + FileInfo := info_of fs true p.
Definition Lstat (fs : files) (p : path) : error + FileInfo := info_of fs false p.

Fixpoint path_after (p k : path) : option path :=
  match p, k with
  | [], _ => Some k
  | _ :: _, [] => None
  | a :: p', b :: k' => if String.eqb a b then path_after p' k' else None
  end.

Definition child_name (p k : path) : option string :=
  match path_after p k with
  | Some [n] => Some n
  | _ => None
  end.

Definition name_le (a b : string) : Prop := String.leb a b = true.
#[global] Instance name_le_dec a b : Decision (name_le a b).
Proof. unfold name_le. apply _. Defined.

(** The names in the directory at [p], in the order of [sort.Strings]. *)
Definition children (fs : files) (p : path) : list string :=
  merge_sort name_le (omap (child_name p) (map_to_list fs).*1).

(** [readDirNames] of package [filepath]: open, read all names, sort. *)
Definition readDirNames (fs : files) (p : path) : error + list string :=
  match resolve max_hops fs true p with
  | Found canon IDir => inr (children fs canon)
  | Found _ _ => inl (PathError ENOTDIR)
  | Absent _ => inl (PathError ENOENT)
  | Failed e => inl (PathError e)
  end.

(** [ioutil.ReadDir]: the entries with their [Lstat] information. *)
Definition ReadDir (fs : files) (p : path) : error + list (string * FileInfo) :=
  match resolve max_hops fs true p with
  | Found canon IDir =>
      inr (omap (fun n => match fs !! (canon ++ [n]) with
                          | Some i => Some (n, {| ino := canon ++ [n]; kind := i |})
                          | None => None
                          end) (children fs canon))
  | Found _ _ => inl (PathError ENOTDIR)
  | Absent _ => inl (PathError ENOENT)
  | Failed e => inl (PathError e)
  end.

(** [os.Open]: the open file is known by where it is. *)
Definition Open (fs : files) (p : path) : error + FileInfo := Stat fs p.

(** [f.Readdirnames(1)]: one name, or [io.EOF] in an empty directory. *)
Definition Readdirnames1 (fs : files) (f : FileInfo) : list string * option error :=
  match kind f with
  | IDir =>
      match children fs (ino f) with
      | [] => ([], Some EOF)
      | n :: _ => ([n], None)
      end
  | _ => ([], Some (PathError ENOTDIR))
  end.

(** [os.Remove]: unlink a file or remove an empty directory. *)
Definition Remove (fs : files) (p : path) : option error * files :=
  match resolve max_hops fs false p with
  | Found [] _ => (Some (PathError EBUSY), fs)
  | Found canon IDir =>
      match children fs canon with
      | [] => (None, delete canon fs)
      | _ :: _ => (Some (PathError ENOTEMPTY), fs)
      end
  | Found canon _ => (None, delete canon fs)
  | Absent _ => (Some (PathError ENOENT), fs)
  | Failed e => (Some (PathError e), fs)
  end.

(** [os.Mkdir]. *)
Definition Mkdir (fs : files) (p : path) : option error * files :=
  match resolve max_hops fs false p with
  | Found _ _ => (Some (PathError EEXIST), fs)
  | Absent canon => (None, <[canon := IDir]> fs)
  | Failed e => (Some (PathError e), fs)
  end.

(** [os.MkdirAll]: nothing to do for an existing directory; otherwise
    make the parent, then the directory.  [n] bounds the length of the
    path. *)
Fixpoint mkdirAll (n : nat) (fs : files) (p : path) : option error * files :=
  match Stat fs p with
  | inr dir => if IsDir dir then (None, fs) else (Some (PathError ENOTDIR), fs)
  | inl _ =>
      let parent := removelast p in
      let '(err, fs1) :=
        match n, parent with
        | S n', _ :: _ => mkdirAll n' fs parent
        | _, _ => (None, fs)
        end in
      match err with
      | Some e => (Some e, fs1)
      | None =>
          let '(err, fs2) := Mkdir fs1 p in
          match err with
          | Some e =>
              match Lstat fs2 p with
              | inr dir => if IsDir dir then (None, fs2) else (Some e, fs2)
              | inl _ => (Some e, fs2)
              end
          | None => (None, fs2)
          end
      end
  end.

Definition MkdirAll (fs : files) (p : path) : option error * files :=
  mkdirAll (length p) fs p.

(** A file tree is well formed when its root is a directory and
    whatever exists lies in a directory. *)
Definition well_formed (fs : files) : Prop :=
  fs !! [] = Some IDir /\
  forall p n, is_Some (fs !! (p ++ [n])) -> fs !! p = Some IDir.

Definition well_formed_b (fs : files) : bool :=
  bool_decide (fs !! [] = Some IDir)
  && forallb (fun k => match k with
                       | [] => true
                       | _ :: _ => bool_decide (fs !! removelast k = Some IDir)
                       end) (map_to_list fs).*1.

(** [p] lies below [root], and is not [root] itself. *)
Definition below (root p : path) : Prop := root `prefix_of` p /\ p <> root.

(** A directory with nothing but directories in it, at any depth: the
    directories that are empty, or become empty once their empty
    subdirectories are removed. *)
Definition hollow (fs : files) (p : path) : Prop :=
  fs !! p = Some IDir /\
  forall q, is_Some (fs !! (p ++ q)) -> fs !! (p ++ q) = Some IDir.

(** A tree without symbolic links. *)
Definition no_links (fs : files) : Prop :=
  forall k t, fs !! k <> Some (ISymlink t).

Definition no_links_b (fs : files) : bool :=
  forallb (fun e : path * inode =>
             match e.2 with ISymlink _ => false | _ => true end) (map_to_list fs).

(** All paths of the tree have at most [h] names. *)
Definition height_le (fs : files) (h : nat) : Prop :=
  forall k, is_Some (fs !! k) -> (length k <= h)%nat.

Definition height (fs : files) : nat :=
  foldr (fun k h => Nat.max (length k) h) 0%nat (map_to_list fs).*1.

(** What a computation on the file tree comes to: a value and the new
    tree, a panic, or no result within the fuel given. *)
Inductive outcome (A : Type) :=
| Ok (a : A) (fs : files)
| Panic (e : error)
| OutOfFuel.
Arguments Ok {A} a fs.
Arguments Panic {A} e.
Arguments OutOfFuel {A}.

Definition FSM (A : Type) : Type := files -> outcome A.

#[global] Instance FSM_ret : MRet FSM := fun A a fs => Ok a fs.
#[global] Instance FSM_bind : MBind FSM :=
  fun A B k m fs =>
    match m fs with
    | Ok a fs' => k a fs'
    | Panic e => Panic e
    | OutOfFuel => OutOfFuel
    end.

Definition ret {A} (a : A) : FSM A := mret a.
Definition read {A} (f : files -> A) : FSM A := fun fs => Ok (f fs) fs.
Definition update {A} (f : files -> A * files) : FSM A :=
  fun fs => let '(a, fs') := f fs in Ok a fs'.
Definition panic {A} (e : error) : FSM A := fun _ => Panic e.
Definition out_of_fuel {A} : FSM A := fun _ => OutOfFuel.

Definition nil_dereference : error :=
  ErrorString "invalid memory address or nil pointer dereference".

(** The callback of [filepath.Walk]; [U] is the type of the variables
    it captures. *)
Definition WalkFunc (U : Type) : Type :=
  path -> option FileInfo -> option error -> U -> FSM (option error * U).

Definition is_SkipDir (e : option error) : bool := bool_decide (e = Some SkipDir).

(** The loop of [walk] over the names read from the directory [p]:
    each entry is looked at again with [Lstat]; [descend_into] is the
    recursive call. *)
Fixpoint walk_entries {U} (descend_into : path -> FileInfo -> U -> FSM (option error * U))
         (walkFn : WalkFunc U) (p : path) (names : list string) (u : U)
  : FSM (option error * U) :=
  match names with
  | [] => ret (None, u)
  | name :: rest =>
      let filename := p ++ [name] in
      fileInfo ← read (fun fs => Lstat fs filename);
      match fileInfo with
      | inl err =>
          '(err, u) ← walkFn filename None (Some err) u;
          match err with
          | Some e =>
              if is_SkipDir err then walk_entries descend_into walkFn p rest u
              else ret (err, u)
          | None => walk_entries descend_into walkFn p rest u
          end
      | inr fileInfo =>
          '(err, u) ← descend_into filename fileInfo u;
          match err with
          | Some e =>
              if negb (IsDir fileInfo) || negb (is_SkipDir err)
              then ret (err, u)
              else walk_entries descend_into walkFn p rest u
          | None => walk_entries descend_into walkFn p rest u
          end
      end
  end.

(** [walk] of package [filepath], as the library has it since Go 1.12:
    the names of a directory are read before the callback is called on
    it.  (Before, the callback came first, and was called a second time
    with the error of the failed read when it had removed the directory:
    the case the callback of [DeleteEmptyFolders] answers with [nil].) *)
Fixpoint walk {U} (fuel : nat) (p : path) (info : FileInfo)
         (walkFn : WalkFunc U) (u : U) : FSM (option error * U) :=
  match fuel with
  | O => out_of_fuel
  | S fuel' =>
      if negb (IsDir info) then walkFn p (Some info) None u
      else
        names ← read (fun fs => readDirNames fs p);
        let err := match names with inl e => Some e | inr _ => None end in
        '(err1, u) ← walkFn p (Some info) err u;
        match names, err1 with
        | inr names, None =>
            walk_entries (fun q i u => walk fuel' q i walkFn u) walkFn p names u
        | _, _ => ret (err1, u)
        end
  end.

(** [filepath.Walk]. *)
Definition Walk {U} (fuel : nat) (root : path) (fn : WalkFunc U) (u : U)
  : FSM (option error * U) :=
  info ← read (fun fs => Lstat fs root);
  '(err, u) ← match info with
              | inl err => fn root None (Some err) u
              | inr info => walk fuel root info fn u
              end;
  if is_SkipDir err then ret (None, u) else ret (err, u).

End FS.

(** ** Filesystem utilities (package [helpers]) *)

Module Filesystem.
Import GoStrings GoErrors FS.

(** [DirectoryExists]. *)
Definition DirectoryExists (fs : files) (p : path) : bool :=
  match Stat fs p with
  | inl _ => false
  | inr info => IsDir info
  end.

(** [IsDirectoryEmpty]. *)
Definition IsDirectoryEmpty (fs : files) (p : path) : bool * option error :=
  match Open fs p with
  | inl err => (false, Some err)
  | inr f =>
      let '(_, err) := Readdirnames1 fs f in
      if bool_decide (err = Some EOF) then (true, None) else (false, err)
  end.

(** [AbsoluteFileExists]. *)
Definition AbsoluteFileExists (fs : files) (p : path) : bool :=
  match Stat fs p with
  | inl _ => false
  | inr info => IsRegular info
  end.

(** [FileExists], for an absolute path. *)
Definition FileExists (fs : files) (p : path) : path * option error :=
  let candidate := p in
  if AbsoluteFileExists fs candidate then (candidate, None)
  else ([], Some ErrNotExist).

(** [CalculateSHA256].  [sha256hex] stands for the digest of package
    [crypto/sha256] written out by [hex.EncodeToString]; reading anything
    but a regular file fails. *)
Definition CalculateSHA256 (sha256hex : string -> string) (fs : files)
           (filename : path) : string * option error :=
  match Open fs filename with
  | inl err => ("", Some err)
  | inr file =>
      match kind file with
      | IFile data => (sha256hex data, None)
      | _ => ("", Some (PathError EISDIR))
      end
  end.

(** The counters that the callback of [DeleteEmptyFolders] updates. *)
Record counters := {
  deletedDirectories : nat;
  deletedDirectoriesThisTime : nat
}.

Definition count_deletion (c : counters) : counters :=
  {| deletedDirectories := S (deletedDirectories c);
     deletedDirectoriesThisTime := S (deletedDirectoriesThisTime c) |}.

(** The function literal passed to [filepath.Walk]. *)
Definition deleteIfEmpty (root : path) : WalkFunc counters :=
  fun p fileInfo walkError c =>
    if bool_decide (p = root) then ret (None, c)
    else if match walkError with Some e => IsNotExist e | None => false end
    then ret (None, c)
    else
      match fileInfo with
      | None => panic nil_dereference
      | Some fileInfo =>
          if IsDir fileInfo then
            '(isEmpty, err) ← read (fun fs => IsDirectoryEmpty fs p);
            match err with
            | Some e => panic e
            | None =>
                if (isEmpty : bool) then
                  err ← update (fun fs => Remove fs p);
                  match err with
                  | None => ret (None, count_deletion c)
                  | Some _ => ret (None, c)
                  end
                else ret (None, c)
            end
          else ret (None, c)
      end.

(** [d] more directories deleted. *)
Definition add_deleted (d : nat) (c : counters) : counters :=
  {| deletedDirectories := deletedDirectories c + d;
     deletedDirectoriesThisTime := deletedDirectoriesThisTime c + d |}.

(** What the scans keep true of the tree [fs] they have reached from
    [orig]: it is well formed, nothing was added, and what is gone was a
    hollow directory below [root]. *)
Definition swept (orig : files) (root : path) (fs : files) : Prop :=
  well_formed fs /\ fs ⊆ orig /\
  forall k, is_Some (orig !! k) -> fs !! k = None -> below root k /\ hollow orig k.

(** What a scan of the [areas] of the tree [fs] comes to: it returns no
    error, it has deleted [d] directories and counted them, what it
    leaves is [swept], nothing outside the areas has changed, and when it
    has deleted nothing, no directory in the areas (the root apart) was
    empty. *)
Definition scanned (orig : files) (root : path) (areas : list path) (fs : files)
           (c : counters) (res : outcome (option error * counters)) : Prop :=
  exists d fs',
    res = Ok (None, add_deleted d c) fs'
    /\ swept orig root fs'
    /\ fs' ⊆ fs
    /\ (size fs' + d = size fs)%nat
    /\ (forall k, (forall a, a ∈ areas -> ~ a `prefix_of` k) -> fs' !! k = fs !! k)
    /\ (d = 0%nat ->
        forall a k, a ∈ areas -> a `prefix_of` k -> k <> root ->
                    fs !! k = Some IDir -> children fs k <> []).

(** The loop of [DeleteEmptyFolders]: [for !atLeastOnce ||
    deletedDirectoriesThisTime != 0]. *)
Fixpoint scan_loop (fuel : nat) (root : path) (atLeastOnce : bool)
         (c : counters) (err : option error) : FSM (option error * counters) :=
  if negb atLeastOnce || negb (deletedDirectoriesThisTime c =? 0)%nat then
    match fuel with
    | O => out_of_fuel
    | S fuel' =>
        let c := {| deletedDirectories := deletedDirectories c;
                    deletedDirectoriesThisTime := 0 |} in
        '(err, c) ← Walk fuel' root (deleteIfEmpty root) c;
        scan_loop fuel' root true c err
    end
  else ret (err, c).

(** [DeleteEmptyFolders]: the error returned, and the number of
    directories removed. *)
Definition DeleteEmptyFolders (fuel : nat) (root : path) : FSM (option error * nat) :=
  '(err, c) ← scan_loop fuel root false
                {| deletedDirectories := 0; deletedDirectoriesThisTime := 0 |} None;
  ret (err, deletedDirectories c).

(** [copyFileContents]: open the source, create or truncate the
    destination, copy. *)
Definition copyFileContents (src dst : path) : FSM (option error) :=
  update (fun fs =>
    match Open fs src with
    | inl err => (Some err, fs)
    | inr input =>
        match resolve max_hops fs true dst with
        | Failed e => (Some (PathError e), fs)
        | Found _ IDir => (Some (PathError EISDIR), fs)
        | Found _ (ISymlink _) => (Some (PathError ELOOP), fs)
        | Found _ ISpecial =>
            match fs !! ino input with
            | Some (IFile _) => (None, fs)
            | _ => (Some (PathError EISDIR), fs)
            end
        | Found out (IFile _) | Absent out =>
            let fs1 := <[out := IFile ""]> fs in
            match fs1 !! ino input with
            | Some (IFile data) => (None, <[out := IFile data]> fs1)
            | _ => (Some (PathError EISDIR), fs1)
            end
        end
    end).

Definition last_name (p : path) : string := List.last p "/".

(** [CopyFile]. *)
Definition CopyFile (src dst : path) : FSM (option error) :=
  sfi ← read (fun fs => Stat fs src);
  match sfi with
  | inl err => ret (Some err)
  | inr sfi =>
      if negb (IsRegular sfi) then
        ret (Some (ErrorF "CopyFile: non-regular source file %s (%q)" [last_name src]))
      else
        dfi ← read (fun fs => Stat fs dst);
        match dfi with
        | inl err =>
            if negb (IsNotExist err) then ret (Some err)
            else copyFileContents src dst
        | inr dfi =>
            if negb (IsRegular dfi) then
              ret (Some (ErrorF "CopyFile: non-regular destination file %s (%q)"
                                [last_name dst]))
            else if SameFile sfi dfi then ret None
            else copyFileContents src dst
        end
  end.

(** [CopyDir] as far as the tree goes: what it does to the tree when no
    permission is denied.  [Permissions.CopyDir] is the function with
    the modes it passes on; [copy_dir_tree] is its tree part, and
    [copy_entries_tree] the loop over the entries of the source
    directory ([copy_dir] is the recursive call). *)
Fixpoint copy_entries_tree (copy_dir : path -> path -> FSM (option error))
         (src dst : path) (entries : list (string * FileInfo)) : FSM (option error) :=
  match entries with
  | [] => ret None
  | (name, entry) :: rest =>
      let srcPath := src ++ [name] in
      let dstPath := dst ++ [name] in
      if IsDir entry then
        err ← copy_dir srcPath dstPath;
        match err with
        | Some e => ret (Some e)
        | None => copy_entries_tree copy_dir src dst rest
        end
      else if IsSymlink entry then copy_entries_tree copy_dir src dst rest
      else
        err ← CopyFile srcPath dstPath;
        match err with
        | Some e => ret (Some e)
        | None => copy_entries_tree copy_dir src dst rest
        end
  end.

Fixpoint copy_dir_tree (fuel : nat) (src dst : path) : FSM (option error) :=
  match fuel with
  | O => out_of_fuel
  | S fuel' =>
      si ← read (fun fs => Stat fs src);
      match si with
      | inl err => ret (Some err)
      | inr si =>
          if negb (IsDir si) then
            ret (Some (ErrorString "source is not a directory"))
          else
            di ← read (fun fs => Stat fs dst);
            match di with
            | inr _ => ret (Some (ErrorString "destination already exists"))
            | inl err =>
                if negb (IsNotExist err) then ret (Some err)
                else
                  err ← update (fun fs => MkdirAll fs dst);
                  match err with
                  | Some e => ret (Some e)
                  | None =>
                      entries ← read (fun fs => ReadDir fs src);
                      match entries with
                      | inl err => ret (Some err)
                      | inr entries =>
                          copy_entries_tree (copy_dir_tree fuel') src dst entries
                      end
                  end
            end
      end
  end.

(** [p] does not exist, and the part of it that exists is a directory:
    [MkdirAll] can make it. *)
Definition creatable (fs : files) (p : path) : Prop :=
  exists base n rest,
    p = base ++ n :: rest /\ fs !! base = Some IDir /\ fs !! (base ++ [n]) = None.

(** What [CopyDir] is to put at [q] below the destination: the regular
    file or the directory found at [q] below the source, and nothing for
    a symbolic link. *)
Definition copy_of (fs : files) (src q : path) : option inode :=
  match fs !! (src ++ q) with
  | Some IDir => Some IDir
  | Some (IFile data) => Some (IFile data)
  | _ => None
  end.

(** Below [src] there are only regular files, directories and symbolic
    links. *)
Definition copyable (fs : files) (src : path) : Prop :=
  forall q, fs !! (src ++ q) <> Some ISpecial.

Definition copyable_b (fs : files) (src : path) : bool :=
  forallb (fun e : path * inode =>
             match path_after src e.1, e.2 with
             | Some _, ISpecial => false
             | _, _ => true
             end) (map_to_list fs).

(** The variables of the loop of [GetUniqueTimestampedFilename]. *)
Record search_state := {
  uniqueFilename : path;
  uniqueNameFound : bool;
  attempts : nat
}.

Definition candidate_name (now filenameBase : string) (attempts : nat) : string :=
  let suffix := if (0 <? attempts)%nat then "_" +:+ format_nat attempts else "" in
  now +:+ " - " +:+ filenameBase +:+ suffix +:+ ".tar.gz".

(** The body of the loop. *)
Definition try_candidate (fs : files) (now : string) (dir : path)
           (filenameBase : string) (s : search_state) : search_state :=
  let candidate := candidate_name now filenameBase (attempts s) in
  match (FileExists fs (Join dir candidate)).2 with
  | Some _ =>
      {| uniqueFilename := Join dir candidate; uniqueNameFound := true;
         attempts := attempts s |}
  | None =>
      {| uniqueFilename := uniqueFilename s; uniqueNameFound := uniqueNameFound s;
         attempts := S (attempts s) |}
  end.

(** The condition of the loop: [!uniqueNameFound || attempts > 50]. *)
Definition searching (s : search_state) : bool :=
  negb (uniqueNameFound s) || (50 <? attempts s)%nat.

(** The loop [for !uniqueNameFound || attempts > 50]. *)
Fixpoint search_loop (fuel : nat) (now : string) (dir : path)
         (filenameBase : string) (s : search_state) : FSM search_state :=
  if searching s then
    match fuel with
    | O => out_of_fuel
    | S fuel' =>
        s' ← read (fun fs => try_candidate fs now dir filenameBase s);
        search_loop fuel' now dir filenameBase s'
    end
  else ret s.

(** [GetUniqueTimestampedFilename]; [now] is the current local time in
    the layout [2006-01-02 15:04:05]. *)
Definition GetUniqueTimestampedFilename (fuel : nat) (now : string)
           (dir : path) (filename : string) : FSM (path * option error) :=
  exists_ ← read (fun fs => DirectoryExists fs dir);
  err ← (if (exists_ : bool) then ret None else update (fun fs => MkdirAll fs dir));
  match err with
  | Some e => ret ([], Some e)
  | None =>
      let ext := Ext filename in
      let filenameBase := TrimSuffix (Base filename) ext in
      s ← search_loop fuel now dir filenameBase
            {| uniqueFilename := []; uniqueNameFound := false; attempts := 0 |};
      ret (uniqueFilename s, None)
  end.

End Filesystem.

(** ** Permissions *)

(** [CopyDir] makes the destination with the mode of the source,
    [os.MkdirAll(dst, si.Mode())], so what it can then put there depends
    on that mode.  This module keeps the permission bits of the
    directories beside the tree and has the operations that make an
    entry in a directory, or list one, fail with [EACCES] when the bits
    deny it.  The process is taken to own the directories and not to be
    the super-user, so that the owner's bits decide; the permissions of
    regular files, and the search permission along a path that is only
    resolved, are not modelled. *)
Module Permissions.
Import GoStrings GoErrors FS.

(** The [umask] of the process, and the permission bits of the
    directories whose mode was set; a directory that [modes] does not
    list has [default_mode]. *)
Record permissions := { umask : Z; modes : gmap path Z }.

(** [0755]. *)
Definition default_mode : Z := 493.

(** [Mode().Perm()] of the directory at [p]. *)
Definition mode_at (ps : permissions) (p : path) : Z :=
  default default_mode (modes ps !! p).

(** The owner's bits [0400], [0200] and [0100]. *)
Definition owner_read (m : Z) : bool := Z.testbit m 8.
Definition owner_write (m : Z) : bool := Z.testbit m 7.
Definition owner_search (m : Z) : bool := Z.testbit m 6.

Definition full_access (m : Z) : bool :=
  owner_read m && owner_write m && owner_search m.

(** The mode of a directory made with [perm]: its nine permission
    bits, without those that the umask clears. *)
Definition made_with (ps : permissions) (perm : Z) : Z :=
  Z.land (Z.land perm 511) (Z.lnot (umask ps)).

(** Making an entry in a directory asks for write and search
    permission on it. *)
Definition may_create_in (ps : permissions) (dir : path) : bool :=
  owner_write (mode_at ps dir) && owner_search (mode_at ps dir).

(** No bit of the owner is denied anywhere: the umask clears none, and
    no directory was given a mode without one of them. *)
Definition accessible (ps : permissions) : Prop :=
  Z.land (umask ps) 448 = 0
  /\ forall p m, modes ps !! p = Some m -> full_access m = true.

Definition accessible_b (ps : permissions) : bool :=
  bool_decide (Z.land (umask ps) 448 = 0)
  && forallb (fun e : path * Z => full_access e.2) (map_to_list (modes ps)).

(** Computations on the tree and the permissions. *)
Definition PSM (A : Type) : Type := permissions -> FSM (A * permissions).

#[global] Instance PSM_ret : MRet PSM := fun A a ps fs => Ok (a, ps) fs.
#[global] Instance PSM_bind : MBind PSM :=
  fun A B k m ps fs =>
    match m ps fs with
    | Ok (a, ps') fs' => k a ps' fs'
    | Panic e => Panic e
    | OutOfFuel => OutOfFuel
    end.

Definition ret {A} (a : A) : PSM A := mret a.
Definition look {A} (f : permissions -> files -> A) : PSM A :=
  fun ps fs => Ok (f ps fs, ps) fs.
Definition out_of_fuel {A} : PSM A := fun _ _ => OutOfFuel.

(** A computation on the tree alone, with the permissions it leaves
    alone. *)
Definition lift {A} (ps : permissions) (o : outcome A) : outcome (A * permissions) :=
  match o with
  | Ok a fs => Ok (a, ps) fs
  | Panic e => Panic e
  | OutOfFuel => OutOfFuel
  end.

(** What a run returned, if it did. *)
Definition returned {A} (o : outcome (A * permissions)) : option A :=
  match o with
  | Ok (a, _) _ => Some a
  | _ => None
  end.

(** [new] does what [old] does on the tree, unless a permission was
    denied: then it returns the error [EACCES], and the permissions it
    started from were not [accessible]. *)
Definition follows (ps : permissions) (new : outcome (option error * permissions))
           (old : outcome (option error)) : Prop :=
  match new with
  | Ok (r, ps') fs' =>
      (old = Ok r fs' /\ (accessible ps -> accessible ps'))
      \/ (r = Some (PathError EACCES) /\ ~ accessible ps)
  | Panic e => old = Panic e
  | OutOfFuel => old = OutOfFuel
  end.

(** [os.Stat], with the [Mode()] of the information it returns (of
    which the permission bits are kept). *)
Definition Stat (p : path) : PSM (error + FileInfo * Z) :=
  look (fun ps fs =>
          match FS.Stat fs p with
          | inl err => inl err
          | inr info => inr (info, mode_at ps (ino info))
          end).

(** [os.Mkdir(p, perm)]. *)
Definition Mkdir (p : path) (perm : Z) : PSM (option error) :=
  fun ps fs =>
    match resolve max_hops fs false p with
    | Found _ _ => Ok (Some (PathError EEXIST), ps) fs
    | Absent canon =>
        if may_create_in ps (removelast canon) then
          Ok (None, {| umask := umask ps;
                       modes := <[canon := made_with ps perm]> (modes ps) |})
             (<[canon := IDir]> fs)
        else Ok (Some (PathError EACCES), ps) fs
    | Failed e => Ok (Some (PathError e), ps) fs
    end.

(** [os.MkdirAll(p, perm)]: the directories that are missing are all
    made with [perm]. *)
Fixpoint mkdirAll (n : nat) (p : path) (perm : Z) : PSM (option error) :=
  dir ← look (fun _ fs => FS.Stat fs p);
  match dir with
  | inr dir => if IsDir dir then ret None else ret (Some (PathError ENOTDIR))
  | inl _ =>
      let parent := removelast p in
      err ← match n, parent with
            | S n', _ :: _ => mkdirAll n' parent perm
            | _, _ => ret None
            end;
      match err with
      | Some e => ret (Some e)
      | None =>
          err ← Mkdir p perm;
          match err with
          | Some e =>
              dir ← look (fun _ fs => FS.Lstat fs p);
              match dir with
              | inr dir => if IsDir dir then ret None else ret (Some e)
              | inl _ => ret (Some e)
              end
          | None => ret None
          end
      end
  end.

Definition MkdirAll (p : path) (perm : Z) : PSM (option error) :=
  mkdirAll (length p) p perm.

(** [ioutil.ReadDir]: listing a directory asks for read permission. *)
Definition ReadDir (p : path) : PSM (error + list (string * FileInfo)) :=
  look (fun ps fs =>
          match resolve max_hops fs true p with
          | Found canon IDir =>
              if owner_read (mode_at ps canon) then FS.ReadDir fs p
              else inl (PathError EACCES)
          | _ => FS.ReadDir fs p
          end).

(** [copyFileContents]: [os.Create] of a file that does not exist makes
    an entry in its directory. *)
Definition copyFileContents (src dst : path) : PSM (option error) :=
  fun ps fs =>
    match Open fs src with
    | inl err => Ok (Some err, ps) fs
    | inr input =>
        let copy out :=
          let fs1 := <[out := IFile ""]> fs in
          match fs1 !! ino input with
          | Some (IFile data) => Ok (None, ps) (<[out := IFile data]> fs1)
          | _ => Ok (Some (PathError EISDIR), ps) fs1
          end in
        match resolve max_hops fs true dst with
        | Failed e => Ok (Some (PathError e), ps) fs
        | Found _ IDir => Ok (Some (PathError EISDIR), ps) fs
        | Found _ (ISymlink _) => Ok (Some (PathError ELOOP), ps) fs
        | Found _ ISpecial =>
            match fs !! ino input with
            | Some (IFile _) => Ok (None, ps) fs
            | _ => Ok (Some (PathError EISDIR), ps) fs
            end
        | Found out (IFile _) => copy out
        | Absent out =>
            if may_create_in ps (removelast out) then copy out
            else Ok (Some (PathError EACCES), ps) fs
        end
    end.

(** [CopyFile]. *)
Definition CopyFile (src dst : path) : PSM (option error) :=
  sfi ← look (fun _ fs => FS.Stat fs src);
  match sfi with
  | inl err => ret (Some err)
  | inr sfi =>
      if negb (IsRegular sfi) then
        ret (Some (ErrorF "CopyFile: non-regular source file %s (%q)"
                          [Filesystem.last_name src]))
      else
        dfi ← look (fun _ fs => FS.Stat fs dst);
        match dfi with
        | inl err =>
            if negb (IsNotExist err) then ret (Some err)
            else copyFileContents src dst
        | inr dfi =>
            if negb (IsRegular dfi) then
              ret (Some (ErrorF "CopyFile: non-regular destination file %s (%q)"
                                [Filesystem.last_name dst]))
            else if SameFile sfi dfi then ret None
            else copyFileContents src dst
        end
  end.

(** The loop of [CopyDir] over the entries of the source directory;
    [copy_dir] is the recursive call. *)
Fixpoint copy_entries (copy_dir : path -> path -> PSM (option error))
         (src dst : path) (entries : list (string * FileInfo)) : PSM (option error) :=
  match entries with
  | [] => ret None
  | (name, entry) :: rest =>
      let srcPath := src ++ [name] in
      let dstPath := dst ++ [name] in
      if IsDir entry then
        err ← copy_dir srcPath dstPath;
        match err with
        | Some e => ret (Some e)
        | None => copy_entries copy_dir src dst rest
        end
      else if IsSymlink entry then copy_entries copy_dir src dst rest
      else
        err ← CopyFile srcPath dstPath;
        match err with
        | Some e => ret (Some e)
        | None => copy_entries copy_dir src dst rest
        end
  end.

(** [CopyDir]. *)
Fixpoint CopyDir (fuel : nat) (src dst : path) : PSM (option error) :=
  match fuel with
  | O => out_of_fuel
  | S fuel' =>
      si ← Stat src;
      match si with
      | inl err => ret (Some err)
      | inr (si, mode) =>
          if negb (IsDir si) then
            ret (Some (ErrorString "source is not a directory"))
          else
            di ← Stat dst;
            match di with
            | inr _ => ret (Some (ErrorString "destination already exists"))
            | inl err =>
                if negb (IsNotExist err) then ret (Some err)
                else
                  err ← MkdirAll dst mode;
                  match err with
                  | Some e => ret (Some e)
                  | None =>
                      entries ← ReadDir src;
                      match entries with
                      | inl err => ret (Some err)
                      | inr entries => copy_entries (CopyDir fuel') src dst entries
                      end
                  end
            end
      end
  end.

End Permissions.

(** ** Concrete memories used in examples *)

Module Cells.
Import Memory.

(** Two memories that hold the same list at address 10 and the same
    strings to clean at address 20, and differ elsewhere. *)
Definition here : memory :=
  list_to_map [(10, "two"); (11, "one"); (12, "two"); (13, "three");
               (20, "one"); (30, "x")]%nat.

Definition there : memory :=
  list_to_map [(10, "two"); (11, "one"); (12, "two"); (13, "three");
               (20, "one"); (30, "y"); (31, "z")]%nat.

Definition numbers : slice := {| ptr := 10; len := 4; cap := 4 |}.
Definition cleaned : slice := {| ptr := 20; len := 1; cap := 1 |}.

End Cells.

(** ** Concrete terminals used in examples *)

Module Terminals.
Import GoStrings GoErrors UI.

Definition line (s : string) : ReadResult :=
  {| text := s +:+ String "010"%char ""; rerr := None |}.

Definition eof : ReadResult :=
  {| text := ""; rerr := Some (ErrorString "EOF") |}.

(** The user types the lines of [ls], then closes the input. *)
Definition typing (ls : list string) : World :=
  {| stdin := fun n => match ls !! n with Some s => line s | None => eof end;
     editor := fun _ old => Edited old;
     reads := 0; edits := 0 |}.

(** The user types the lines of [ls] over and over. *)
Definition repeating (ls : list string) : World :=
  {| stdin := fun n => match ls !! (n mod length ls)%nat with
                       | Some s => line s
                       | None => eof
                       end;
     editor := fun _ old => Edited old;
     reads := 0; edits := 0 |}.

(** ANSI rendering of the two tags, as a colour library produces it. *)
Definition esc : string := String "027"%char "".
Definition ansi : UI :=
  {| CyanBold := fun s => esc +:+ "[1;36m" +:+ s +:+ esc +:+ "[0m";
     YellowBold := fun s => esc +:+ "[1;33m" +:+ s +:+ esc +:+ "[0m" |}.

(** No colours at all. *)
Definition plain : UI := {| CyanBold := fun s => s; YellowBold := fun s => s |}.

End Terminals.

(** ** Concrete file trees used in examples *)

Module Trees.
Import GoStrings GoErrors FS Filesystem.

(** A backup directory in which the name for the given second is taken,
    and so are the names with the suffixes [_1] to [_50]. *)
Definition crowded : files :=
  list_to_map
    (([], IDir) :: (["backups"], IDir)
       :: map (fun n => (["backups"; candidate_name "2016-06-01 12:00:00" "library" n],
                         IFile "")) (seq 0 51)).

(** A small library: two books and a link in [a], with an empty
    directory two levels down; nothing but empty directories in [b]; a
    file [z]. *)
Definition shelves : files :=
  list_to_map
    [([], IDir);
     (["a"], IDir); (["a"; "x"], IFile "hello"); (["a"; "e"], IDir);
     (["a"; "e"; "f"], IDir); (["a"; "l"], ISymlink ["a"; "x"]);
     (["b"], IDir); (["b"; "c"], IDir); (["b"; "c"; "d"], IDir);
     (["z"], IFile "zz")].

(** A backup directory in which the name for the given second is taken. *)
Definition dated : files :=
  list_to_map
    [([], IDir); (["backups"], IDir);
     (["backups"; "2016-06-01 12:00:00 - library.tar.gz"], IFile "")].

(** The library once [a] has been copied to [n/m]. *)
Definition copied : files :=
  list_to_map
    [([], IDir);
     (["a"], IDir); (["a"; "x"], IFile "hello"); (["a"; "e"], IDir);
     (["a"; "e"; "f"], IDir); (["a"; "l"], ISymlink ["a"; "x"]);
     (["b"], IDir); (["b"; "c"], IDir); (["b"; "c"; "d"], IDir);
     (["z"], IFile "zz");
     (["n"], IDir); (["n"; "m"], IDir); (["n"; "m"; "x"], IFile "hello");
     (["n"; "m"; "e"], IDir); (["n"; "m"; "e"; "f"], IDir)].

(** The library with a named pipe among the books of [a]. *)
Definition piped : files := <[ ["a"; "p"] := ISpecial ]> shelves.

(** A tree with nothing but the directory [a]. *)
Definition lonely : files := list_to_map [([], IDir); (["a"], IDir)].

(** The usual permissions: a umask of [022], no mode set. *)
Definition owner : Permissions.permissions :=
  {| Permissions.umask := 18; Permissions.modes := ∅ |}.

(** The same with the directory [a] read-only ([0555]). *)
Definition readonly : Permissions.permissions :=
  {| Permissions.umask := 18; Permissions.modes := {[ ["a"] := 365 ]} |}.

(** The same library without the link. *)
Definition plain_shelves : files := delete ["a"; "l"] shelves.

End Trees.

(** * Properties *)

Import GoStrings GoErrors Slices.

(** ** String-slice helpers *)

Section SliceFacts.
Implicit Types (l others kept junk rest : list string) (found : gmap string bool).

Lemma found_at_insert found x y :
  found_at (<[x := true]> found) y = bool_decide (x = y) || found_at found y.
Proof.
  unfold found_at. destruct (decide (x = y)) as [->|Hne].
  - rewrite lookup_insert_eq, bool_decide_true by done. reflexivity.
  - rewrite lookup_insert_ne, bool_decide_false by done. reflexivity.
Qed.

Lemma found_at_mark_all others x :
  found_at (mark_all others) x = true <-> x ∈ others.
Proof.
  unfold mark_all.
  assert (G : forall found,
    found_at (foldl (fun f o => <[o := true]> f) found others) x = true
    <-> found_at found x = true \/ x ∈ others).
  { induction others as [|o os IH]; intros found; simpl.
    - split; [auto|]. intros [H|H]; [done|]. by apply elem_of_nil in H.
    - rewrite IH, found_at_insert, orb_true_iff, bool_decide_eq_true, elem_of_cons.
      split; [intros [[->|?]|?]|intros [?|[->|?]]]; auto. }
  rewrite G. unfold found_at. rewrite lookup_empty. simpl.
  split; [intros [?|?]; [discriminate|done]|auto].
Qed.

(** The in-place loop computes [keep_new]: the array is the kept
    prefix, then already overwritten or skipped cells, then the part
    still to read. *)
Lemma compact_spec rest : forall kept junk found i j arr,
  i = (length kept + length junk)%nat ->
  j = length kept ->
  arr = kept ++ junk ++ rest ->
  exists junk',
    compact (length rest) i arr found j
    = (kept ++ keep_new found rest ++ junk', (j + length (keep_new found rest))%nat).
Proof.
  induction rest as [|x rest IH]; intros kept junk found i j arr Hi Hj Harr; simpl.
  - exists junk. subst. by rewrite app_nil_r, Nat.add_0_r.
  - assert (Hx : arr !! i = Some x).
    { subst. rewrite lookup_app_r by lia.
      replace (length kept + length junk - length kept)%nat with (length junk) by lia.
      rewrite lookup_app_r by lia. by rewrite Nat.sub_diag. }
    rewrite Hx.
    destruct (negb (found_at found x) && negb (String.eqb x "")) eqn:Hk.
    + destruct junk as [|y junk0].
      * destruct (IH (kept ++ [x]) [] (<[x := true]> found) (S i) (S j)
                     (<[j := x]> arr)) as [junk' E].
        { rewrite length_app. simpl in *. lia. }
        { rewrite length_app. simpl. lia. }
        { subst. simpl. rewrite insert_app_r_alt by lia. rewrite Nat.sub_diag.
          simpl. by rewrite <- app_assoc. }
        rewrite E. exists junk'. rewrite <- app_assoc. simpl. f_equal. lia.
      * destruct (IH (kept ++ [x]) (junk0 ++ [x]) (<[x := true]> found) (S i) (S j)
                     (<[j := x]> arr)) as [junk' E].
        { rewrite !length_app. simpl in *. lia. }
        { rewrite length_app. simpl. lia. }
        { subst. rewrite insert_app_r_alt by lia. rewrite Nat.sub_diag. simpl.
          by rewrite <- !app_assoc. }
        rewrite E. exists junk'. rewrite <- app_assoc. simpl. f_equal. lia.
    + destruct (IH kept (junk ++ [x]) found (S i) j arr) as [junk' E].
      { rewrite length_app. simpl. lia. }
      { done. }
      { subst. by rewrite <- app_assoc. }
      rewrite E. by exists junk'.
Qed.

Lemma RemoveDuplicates_keep_new l others :
  RemoveDuplicates l others = keep_new (mark_all others) l.
Proof.
  unfold RemoveDuplicates.
  destruct (compact_spec l [] [] (mark_all others) 0%nat 0%nat l) as [junk' E];
    [done..|].
  rewrite E. simpl. by rewrite take_app_length.
Qed.

Lemma keep_new_elem l : forall found x,
  x ∈ keep_new found l -> x ∈ l /\ found_at found x = false /\ x <> "".
Proof.
  induction l as [|y l IH]; intros found x; simpl.
  - intros H. by apply elem_of_nil in H.
  - destruct (negb (found_at found y) && negb (String.eqb y "")) eqn:Hk.
    + apply andb_true_iff in Hk as [Hf He].
      apply negb_true_iff in Hf. apply negb_true_iff, String.eqb_neq in He.
      rewrite elem_of_cons. intros [->|Hin].
      * split; [left|]; done.
      * apply IH in Hin as (Hl & Hf' & Hne).
        rewrite found_at_insert in Hf'. apply orb_false_iff in Hf' as [_ Hf'].
        split; [by right|done].
    + intros Hin. apply IH in Hin as (Hl & Hf' & Hne). split; [by right|done].
Qed.

Lemma keep_new_NoDup l : forall found, NoDup (keep_new found l).
Proof.
  induction l as [|y l IH]; intros found; simpl; [constructor|].
  destruct (negb (found_at found y) && negb (String.eqb y "")); [|apply IH].
  constructor; [|apply IH].
  intros Hin. apply keep_new_elem in Hin as (_ & Hf & _).
  rewrite found_at_insert, bool_decide_true in Hf by done. discriminate.
Qed.

Lemma keep_new_sublist l : forall found, sublist (keep_new found l) l.
Proof.
  induction l as [|y l IH]; intros found; simpl; [constructor|].
  destruct (negb (found_at found y) && negb (String.eqb y ""));
    [apply sublist_skip|apply sublist_cons]; apply IH.
Qed.

(** [keep_new] keeps the first occurrences: [pre] is what was read
    before [l].  The empty string is never marked, and never kept. *)
Lemma keep_new_first l : forall found pre others,
  (forall x, x <> "" -> found_at found x = true <-> x ∈ others \/ x ∈ pre) ->
  keep_new found l
  = omap id (imap (fun i x =>
                     if decide ((x ∉ pre ++ take i l) ∧ (x ≠ "") ∧ (x ∉ others))
                     then Some x else None) l).
Proof.
  induction l as [|y l IH]; intros found pre others Hfound; simpl; [done|].
  rewrite app_nil_r.
  assert (Hstep : forall found',
    (forall x, x <> "" ->
               found_at found' x = true <-> x ∈ others \/ x ∈ pre ++ [y]) ->
    keep_new found' l
    = omap id (imap ((fun i x =>
                     if decide ((x ∉ pre ++ take i (y :: l)) ∧ (x ≠ "") ∧ (x ∉ others))
                     then Some x else None) ∘ S) l)).
  { intros found' H'. rewrite (IH found' (pre ++ [y]) others H').
    f_equal. apply imap_ext. intros i x _. simpl.
    rewrite <- app_assoc. simpl. reflexivity. }
  destruct (negb (found_at found y) && negb (String.eqb y "")) eqn:Hk.
  - apply andb_true_iff in Hk as [Hf He].
    apply negb_true_iff in Hf. apply negb_true_iff, String.eqb_neq in He.
    rewrite decide_True.
    + simpl. f_equal. apply Hstep. intros x Hx.
      rewrite found_at_insert, orb_true_iff, bool_decide_eq_true, (Hfound x Hx),
        elem_of_app, list_elem_of_singleton.
      split; [intros [->|[?|?]]|intros [?|[?| ->]]]; auto.
    + split_and!; [|done|]; intros Hin;
        (assert (found_at found y = true) as Ht by (apply Hfound; auto));
        congruence.
  - rewrite decide_False.
    + simpl. apply Hstep. intros x Hx.
      rewrite (Hfound x Hx), elem_of_app, list_elem_of_singleton.
      split; [intros [?|?]; auto|]. intros [?|[?| ->]]; [auto..|].
      apply andb_false_iff in Hk as [Hf|He].
      * apply negb_false_iff in Hf. by apply Hfound in Hf.
      * apply negb_false_iff, String.eqb_eq in He. done.
    + intros (Hpre & Hne & Hoth).
      apply andb_false_iff in Hk as [Hf|He].
      * apply negb_false_iff in Hf. apply Hfound in Hf as [?|?]; done.
      * apply negb_false_iff, String.eqb_eq in He. done.
Qed.

Lemma RemoveDuplicates_first_occurrences l others :
  RemoveDuplicates l others = first_occurrences l others.
Proof.
  rewrite RemoveDuplicates_keep_new. unfold first_occurrences.
  rewrite (keep_new_first l (mark_all others) [] others); [done|].
  intros x _. rewrite found_at_mark_all, elem_of_nil. tauto.
Qed.

End SliceFacts.

(** C5. For every list and every set of strings to clean, the list left by
    [RemoveDuplicates] has no element twice, is a subsequence of the
    original list, and consists of the first occurrences, in their order:
    the element at an index stays exactly when it is kept and does not
    occur at an earlier index. *)
Theorem RemoveDuplicates_first_occurrences_only (l others : list string) :
  NoDup (RemoveDuplicates l others)
  /\ sublist (RemoveDuplicates l others) l
  /\ RemoveDuplicates l others = first_occurrences l others.
Proof.
  split_and!.
  - rewrite RemoveDuplicates_keep_new. apply keep_new_NoDup.
  - rewrite RemoveDuplicates_keep_new. apply keep_new_sublist.
  - apply RemoveDuplicates_first_occurrences.
Qed.

(** C9. [RemoveDuplicates] drops every empty string and every string
    given in [otherStringsToClean], even one that occurs only once. *)
Theorem RemoveDuplicates_cleans (l others : list string) :
  ("" ∉ RemoveDuplicates l others)
  /\ Forall (fun o => o ∉ RemoveDuplicates l others) others.
Proof.
  rewrite RemoveDuplicates_keep_new. split.
  - intros Hin. by apply keep_new_elem in Hin as (_ & _ & Hne).
  - apply Forall_forall. intros o Ho Hin.
    apply keep_new_elem in Hin as (_ & Hf & _).
    apply found_at_mark_all in Ho. congruence.
Qed.

(** The helpers in memory. *)

Lemma length_elems (m : Memory.memory) (s : Memory.slice) :
  length (Memory.elems m s) = Memory.len s.
Proof. unfold Memory.elems. by rewrite length_fmap, length_seq. Qed.

Lemma elems_lookup (m : Memory.memory) (s : Memory.slice) (k : nat) :
  (k < Memory.len s)%nat -> Memory.elems m s !! k = Some (Memory.at_index m s k).
Proof.
  intros Hk. unfold Memory.elems. rewrite list_lookup_fmap, lookup_seq_lt by done.
  reflexivity.
Qed.

Lemma elems_insert (m : Memory.memory) (s : Memory.slice) (j : nat) (x : string) :
  (j < Memory.len s)%nat ->
  Memory.elems (<[(Memory.ptr s + j)%nat := x]> m) s = <[j := x]> (Memory.elems m s).
Proof.
  intros Hj. apply list_eq. intros k.
  destruct (decide (k < Memory.len s)%nat) as [Hk|Hk].
  - rewrite elems_lookup by done. unfold Memory.at_index.
    destruct (decide (k = j)) as [->|Hne].
    + rewrite lookup_insert_eq, list_lookup_insert_eq by (rewrite length_elems; lia).
      reflexivity.
    + rewrite lookup_insert_ne by lia. rewrite list_lookup_insert_ne by done.
      by rewrite elems_lookup.
  - rewrite !lookup_ge_None_2; [done| |].
    + rewrite length_insert, length_elems. lia.
    + rewrite length_elems. lia.
Qed.

Lemma elems_take (m : Memory.memory) (s : Memory.slice) (j c : nat) :
  (j <= Memory.len s)%nat ->
  Memory.elems m {| Memory.ptr := Memory.ptr s; Memory.len := j; Memory.cap := c |}
  = take j (Memory.elems m s).
Proof.
  intros Hj. apply list_eq. intros k.
  destruct (decide (k < j)%nat) as [Hk|Hk].
  - rewrite lookup_take_lt by done. rewrite !elems_lookup by (cbn; lia). reflexivity.
  - rewrite lookup_take_ge by lia. apply lookup_ge_None_2.
    rewrite length_elems. cbn. lia.
Qed.

(** The loop of [StringInSlice] on the cells is the search in the list
    of the elements. *)
Lemma index_at_index_from (a : string) (list : Memory.slice) (m : Memory.memory) (n : nat) :
  forall i, (i + n = Memory.len list)%nat ->
  Memory.index_at n i a list m
  = index_from (Z.of_nat i) a (drop i (Memory.elems m list)).
Proof.
  induction n as [|n IH]; intros i Hi; cbn [Memory.index_at].
  - rewrite drop_ge by (rewrite length_elems; lia). reflexivity.
  - rewrite (drop_S _ (Memory.at_index m list i)) by (apply elems_lookup; lia).
    cbn [index_from]. destruct (String.eqb _ a); [done|].
    rewrite IH by lia. f_equal. lia.
Qed.

Lemma compact_bound (n : nat) : forall i arr found j,
  ((compact n i arr found j).2 <= j + n)%nat.
Proof.
  induction n as [|n IH]; intros i arr found j; cbn [compact]; [cbn; lia|].
  destruct (arr !! i) as [x|]; [|cbn; lia].
  destruct (negb (found_at found x) && negb (String.eqb x "")).
  - specialize (IH (S i) (<[j := x]> arr) (<[x := true]> found) (S j)). lia.
  - specialize (IH (S i) arr found j). lia.
Qed.

(** The loop of [RemoveDuplicates] on the cells does to the elements of
    the slice what [compact] does to their list, and writes nowhere
    else. *)
Lemma compact_at_compact (options : Memory.slice) (n : nat) : forall i found j m,
  (j <= i)%nat -> (i + n <= Memory.len options)%nat ->
  (Memory.compact_at n i options found j m).2
  = (compact n i (Memory.elems m options) found j).2
  /\ Memory.elems (Memory.compact_at n i options found j m).1 options
     = (compact n i (Memory.elems m options) found j).1
  /\ forall addr,
      ~ (Memory.ptr options <= addr < Memory.ptr options + Memory.len options)%nat ->
      (Memory.compact_at n i options found j m).1 !! addr = m !! addr.
Proof.
  induction n as [|n IH]; intros i found j m Hj Hi;
    cbn [Memory.compact_at compact]; [done|].
  rewrite elems_lookup by lia. cbn zeta.
  destruct (negb (found_at found (Memory.at_index m options i))
            && negb (String.eqb (Memory.at_index m options i) "")); [|apply IH; lia].
  destruct (IH (S i) (<[Memory.at_index m options i := true]> found) (S j)
              (<[(Memory.ptr options + j)%nat := Memory.at_index m options i]> m))
    as (E1 & E2 & Hframe); [lia|lia|].
  rewrite elems_insert in E1, E2 by lia.
  split_and!; [done|done|].
  intros addr Haddr. rewrite Hframe by done. apply lookup_insert_ne. lia.
Qed.

(** C8. The string-slice helpers depend on their arguments alone and
    change nothing but the list they are passed.  On the memory of the
    program: calls in two memories that hold the same elements in the
    slices passed give the same results, and [RemoveDuplicates] leaves
    the same list; [StringInSlice] and [CaseInsensitiveContains] leave
    the memory as it is, and [RemoveDuplicates] writes no cell outside
    the slice it is passed.  What they compute is what the functions on
    lists give for the elements. *)
Theorem slice_helpers_touch_the_list_only
        (ToLower : string -> string) (a s substr : string)
        (list options others : Memory.slice) (m m' : Memory.memory) :
  Memory.elems m list = Memory.elems m' list ->
  Memory.elems m options = Memory.elems m' options ->
  Memory.elems m others = Memory.elems m' others ->
  let r := Memory.RemoveDuplicates options others m in
  let r' := Memory.RemoveDuplicates options others m' in
  ((Memory.StringInSlice a list m).1 = (Memory.StringInSlice a list m').1
   /\ r.1 = r'.1
   /\ Memory.elems r.2 r.1 = Memory.elems r'.2 r'.1
   /\ (Memory.CaseInsensitiveContains ToLower s substr m).1
      = (Memory.CaseInsensitiveContains ToLower s substr m').1)
  /\ ((Memory.StringInSlice a list m).2 = m
      /\ (Memory.CaseInsensitiveContains ToLower s substr m).2 = m
      /\ forall addr,
          ~ (Memory.ptr options <= addr < Memory.ptr options + Memory.len options)%nat ->
          r.2 !! addr = m !! addr)
  /\ ((Memory.StringInSlice a list m).1 = StringInSlice a (Memory.elems m list)
      /\ Memory.elems r.2 r.1
         = RemoveDuplicates (Memory.elems m options) (Memory.elems m others)
      /\ (Memory.CaseInsensitiveContains ToLower s substr m).1
         = CaseInsensitiveContains ToLower s substr).
Proof.
  intros Hlist Hoptions Hothers r r'.
  assert (Hsearch : forall m0,
    (Memory.StringInSlice a list m0).1 = StringInSlice a (Memory.elems m0 list)).
  { intros m0. unfold Memory.StringInSlice, StringInSlice. cbn [fst].
    by rewrite index_at_index_from by lia. }
  assert (Hclean : forall m0,
    let r0 := Memory.RemoveDuplicates options others m0 in
    Memory.len r0.1 = (compact (Memory.len options) 0 (Memory.elems m0 options)
                         (mark_all (Memory.elems m0 others)) 0).2
    /\ Memory.ptr r0.1 = Memory.ptr options /\ Memory.cap r0.1 = Memory.cap options
    /\ Memory.elems r0.2 r0.1
       = RemoveDuplicates (Memory.elems m0 options) (Memory.elems m0 others)
    /\ forall addr,
        ~ (Memory.ptr options <= addr < Memory.ptr options + Memory.len options)%nat ->
        r0.2 !! addr = m0 !! addr).
  { intros m0.
    destruct (compact_at_compact options (Memory.len options) 0
                (mark_all (Memory.elems m0 others)) 0 m0) as (E1 & E2 & Hframe);
      [lia|lia|].
    pose proof (compact_bound (Memory.len options) 0 (Memory.elems m0 options)
                  (mark_all (Memory.elems m0 others)) 0) as Hbound.
    unfold Memory.RemoveDuplicates, RemoveDuplicates. cbn zeta.
    rewrite length_elems.
    destruct (Memory.compact_at _ _ _ _ _ m0) as [m1 j].
    destruct (compact _ _ _ _ _) as [arr j0].
    cbn [fst snd Memory.len Memory.ptr Memory.cap] in *. subst j0 arr.
    split_and!; [done|done|done| |done].
    apply elems_take. lia. }
  destruct (Hclean m) as (Hlen & Hptr & Hcap & Helems & Hframe).
  destruct (Hclean m') as (Hlen' & Hptr' & Hcap' & Helems' & _).
  fold r in Hlen, Hptr, Hcap, Helems, Hframe.
  fold r' in Hlen', Hptr', Hcap', Helems'.
  split_and!; try done.
  - by rewrite !Hsearch, Hlist.
  - destruct r.1 as [p1 l1 c1], r'.1 as [p2 l2 c2]. cbn in *.
    rewrite Hoptions, Hothers in Hlen. congruence.
  - by rewrite Helems, Helems', Hoptions, Hothers.
Qed.

Lemma slice_helpers_touch_the_list_only_witness :
  ((Memory.StringInSlice "one" Cells.numbers Cells.here).1
   = (Memory.StringInSlice "one" Cells.numbers Cells.there).1
   /\ (Memory.RemoveDuplicates Cells.numbers Cells.cleaned Cells.here).1
      = (Memory.RemoveDuplicates Cells.numbers Cells.cleaned Cells.there).1
   /\ Memory.elems (Memory.RemoveDuplicates Cells.numbers Cells.cleaned Cells.here).2
        (Memory.RemoveDuplicates Cells.numbers Cells.cleaned Cells.here).1
      = Memory.elems (Memory.RemoveDuplicates Cells.numbers Cells.cleaned Cells.there).2
          (Memory.RemoveDuplicates Cells.numbers Cells.cleaned Cells.there).1
   /\ (Memory.CaseInsensitiveContains ToLower "TestString" "stSt" Cells.here).1
      = (Memory.CaseInsensitiveContains ToLower "TestString" "stSt" Cells.there).1)
  /\ ((Memory.StringInSlice "one" Cells.numbers Cells.here).2 = Cells.here
      /\ (Memory.CaseInsensitiveContains ToLower "TestString" "stSt" Cells.here).2
         = Cells.here
      /\ forall addr,
          ~ (Memory.ptr Cells.numbers <= addr
             < Memory.ptr Cells.numbers + Memory.len Cells.numbers)%nat ->
          (Memory.RemoveDuplicates Cells.numbers Cells.cleaned Cells.here).2 !! addr
          = Cells.here !! addr)
  /\ ((Memory.StringInSlice "one" Cells.numbers Cells.here).1
      = StringInSlice "one" (Memory.elems Cells.here Cells.numbers)
      /\ Memory.elems (Memory.RemoveDuplicates Cells.numbers Cells.cleaned Cells.here).2
           (Memory.RemoveDuplicates Cells.numbers Cells.cleaned Cells.here).1
         = RemoveDuplicates (Memory.elems Cells.here Cells.numbers)
             (Memory.elems Cells.here Cells.cleaned)
      /\ (Memory.CaseInsensitiveContains ToLower "TestString" "stSt" Cells.here).1
         = CaseInsensitiveContains ToLower "TestString" "stSt").
Proof.
  apply (slice_helpers_touch_the_list_only ToLower "one" "TestString" "stSt"
           Cells.numbers Cells.numbers Cells.cleaned Cells.here Cells.there);
    reflexivity.
Defined.

(** ** Tagging *)

Import UI Terminals.

Section TagFacts.
Implicit Types (s t old new : string).

Lemma HasPrefix_append old t : HasPrefix (old +:+ t) old = true.
Proof.
  induction old as [|c old IH]; simpl; [done|].
  by rewrite Ascii.eqb_refl, IH.
Qed.

Lemma replace_scan_skip old new a : forall t,
  replace_scan old new (a +:+ t) (String.length a) = replace_scan old new t 0.
Proof. induction a as [|c a IH]; intros t; simpl; [by destruct t|apply IH]. Qed.

Lemma replace_scan_absent old new s :
  Contains s old = false -> replace_scan old new s 0 = s.
Proof.
  induction s as [|c s IH]; simpl; [done|].
  intros H. apply orb_false_iff in H as [Hp Hc].
  unfold HasPrefix in Hp |- *. fold HasPrefix in Hp |- *.
  rewrite Hp. f_equal. by apply IH.
Qed.

Lemma Replace_absent s old :
  Contains s old = false -> Replace s old "" = s.
Proof.
  intros H. unfold Replace.
  destruct (String.eqb old "") eqn:E; [done|].
  by apply replace_scan_absent.
Qed.

(** Removing a tag from a text that starts with it and has it nowhere
    else leaves the rest. *)
Lemma Replace_leading old t :
  Contains t old = false -> Replace (old +:+ t) old "" = t.
Proof.
  intros H. unfold Replace.
  destruct (String.eqb old "") eqn:E.
  - apply String.eqb_eq in E. by subst.
  - destruct old as [|c old]; [done|].
    change (String c old +:+ t) with (String c (old +:+ t)).
    unfold replace_scan; fold replace_scan.
    change (String c (old +:+ t)) with (String c old +:+ t).
    rewrite HasPrefix_append. simpl String.length. simpl Nat.sub. rewrite Nat.sub_0_r.
    rewrite replace_scan_skip. simpl. by apply replace_scan_absent.
Qed.

Lemma HasPrefix_compatible a : forall e other,
  HasPrefix (a +:+ e) other = true -> compatible a other = true.
Proof.
  induction a as [|x a IH]; intros e other; simpl; [done|].
  destruct other as [|y other]; [done|].
  simpl. intros H. apply andb_true_iff in H as [Hxy H].
  rewrite Ascii.eqb_sym, Hxy. simpl. by apply (IH e).
Qed.

Lemma Contains_after tag other e :
  may_start_in tag other = false ->
  Contains e other = false ->
  Contains (tag +:+ e) other = false.
Proof.
  induction tag as [|c tag IH]; intros H He; [exact He|].
  cbn [may_start_in] in H. apply orb_false_iff in H as [Hc Hm].
  change (String c tag +:+ e) with (String c (tag +:+ e)).
  cbn [Contains]. apply orb_false_iff. split; [|by apply IH].
  destruct (HasPrefix (String c (tag +:+ e)) other) eqn:Hp; [|done].
  apply (HasPrefix_compatible (String c tag) e) in Hp. congruence.
Qed.

End TagFacts.

(** C10. [unTag] undoes [Tag] up to surrounding white space, for an entry
    that contains neither rendered tag.  The colouring methods are not
    among the sources; for an online entry the statement asks of them
    that the rendered local tag cannot begin inside the rendered online
    tag, as is the case for ANSI colour codes and for plain text. *)
Theorem unTag_Tag (ui : UI) (entry : string) (isLocal : bool) :
  (isLocal = false ->
   may_start_in (YellowBold ui OnlineTag) (CyanBold ui LocalTag) = false) ->
  Contains entry (CyanBold ui LocalTag) = false ->
  Contains entry (YellowBold ui OnlineTag) = false ->
  unTag ui (Tag ui entry isLocal) = TrimSpace entry.
Proof.
  intros Hapart HL HO. unfold unTag, Tag. destruct isLocal.
  - by rewrite Replace_leading, Replace_absent.
  - rewrite (Replace_absent (YellowBold ui OnlineTag +:+ entry) (CyanBold ui LocalTag))
      by (apply Contains_after; auto).
    by rewrite Replace_leading.
Qed.

Lemma unTag_Tag_witness :
  unTag ansi (Tag ansi " The Hobbit " false) = TrimSpace " The Hobbit "
  /\ unTag plain (Tag plain "Dune" true) = TrimSpace "Dune".
Proof.
  split.
  - apply (unTag_Tag ansi " The Hobbit " false); reflexivity.
  - apply (unTag_Tag plain "Dune" true); [discriminate|reflexivity..].
Defined.

(** ** The retry loops of the user-interaction layer *)

Section RetryLoops.

Lemma ToUpper_head (c : ascii) (s1 : string) :
  is_byte 196 c = false -> is_byte 197 c = false ->
  exists t, ToUpper (String c s1) = String (upper_byte c) t.
Proof.
  intros H1 H2. destruct s1 as [|c2 s2]; cbn [ToUpper]; [by eexists|].
  rewrite H1, H2. cbn [andb]. by eexists.
Qed.

Lemma Atoi_head (c : ascii) (s1 : string) (i : Z) :
  Atoi (String c s1) = Some i -> (N_of_ascii c < 65)%N.
Proof.
  unfold Atoi. destruct (Ascii.eqb c "-") eqn:Em.
  { apply Ascii.eqb_eq in Em as ->. intros _. by vm_compute. }
  destruct (Ascii.eqb c "+") eqn:Ep.
  { apply Ascii.eqb_eq in Ep as ->. intros _. by vm_compute. }
  unfold parse_unsigned. cbn [parse_digits]. unfold digit_of.
  destruct (byte_in 48 57 c) eqn:Hd; [|discriminate].
  intros _. unfold byte_in in Hd. apply andb_true_iff in Hd as [_ Hd].
  apply N.leb_le in Hd. lia.
Qed.

(** A string that [Atoi] accepts starts with a digit or a sign: its
    upper case is none of the letters of the menu. *)
Lemma Atoi_not_letter (s : string) (i : Z) (x : ascii) :
  x = "E"%char \/ x = "A"%char \/ x = "B"%char ->
  Atoi s = Some i -> ToUpper s <> String x "".
Proof.
  intros Hx Hs Hu. destruct s as [|c s1]; [discriminate Hs|].
  apply Atoi_head in Hs.
  assert (Hlow : byte_in 97 122 c = false).
  { unfold byte_in. apply andb_false_iff. left. apply N.leb_gt. lia. }
  destruct (ToUpper_head c s1) as [t Ht].
  { unfold is_byte. apply N.eqb_neq. lia. }
  { unfold is_byte. apply N.eqb_neq. lia. }
  rewrite Ht in Hu. unfold upper_byte in Hu. rewrite Hlow in Hu.
  injection Hu as Hc _. subst c.
  destruct Hx as [->|[->| ->]]; vm_compute in Hs; discriminate Hs.
Qed.

Lemma SelectOption_body_read ui options longField errs w :
  SelectOption_body ui options longField errs w
  = (let choice := TrimSpace (text (stdin w (reads w))) in
     match rerr (stdin w (reads w)) with
     | Some e => mret (Return ("", Some e))
     | None =>
         if String.eqb (ToUpper choice) "E" then
           '(edited, scanErr) ←
              (if longField then Edit (allVersions_from ui 0 options) else GetInput);
           match scanErr with
           | Some e => mret (Return ("", Some e))
           | None =>
               confirmed ← Accept ("Confirm: " +:+ edited);
               if (confirmed : bool) then mret (Return (edited, None))
               else mret (count_error errs)
           end
         else if String.eqb (ToUpper choice) "A" then
           mret (Return ("", Some (ErrorString userAborted)))
         else if String.eqb (ToUpper choice) "B" then
           mret (Return ("", None))
         else
           match Atoi choice with
           | Some index =>
               if (0 <? index) && (index <=? Z.of_nat (length options))
               then mret (Return (unTag ui (nth (Z.to_nat (index - 1)) options ""), None))
               else mret (count_error errs)
           | None => mret (count_error errs)
           end
     end) (next_line w).
Proof. reflexivity. Qed.

(** A turn of the loop of [SelectOption] at which a number is entered. *)
Lemma SelectOption_loop_number ui options longField errs w raw fuel i o :
  stdin w (reads w) = {| text := raw; rerr := None |} ->
  Atoi (TrimSpace raw) = Some i ->
  1 <= i ->
  options !! Z.to_nat (i - 1) = Some o ->
  SelectOption_loop (S fuel) ui options longField errs w
  = (Some (unTag ui o, None), next_line w).
Proof.
  intros Hin Hi Hpos Ho.
  cbn [SelectOption_loop]. unfold mbind, IO_bind.
  rewrite SelectOption_body_read, Hin. cbn [text rerr].
  rewrite (proj2 (String.eqb_neq _ _) (Atoi_not_letter _ i "E" ltac:(auto) Hi)).
  rewrite (proj2 (String.eqb_neq _ _) (Atoi_not_letter _ i "A" ltac:(auto) Hi)).
  rewrite (proj2 (String.eqb_neq _ _) (Atoi_not_letter _ i "B" ltac:(auto) Hi)).
  rewrite Hi.
  pose proof (lookup_lt_Some _ _ _ Ho) as Hlt.
  replace ((0 <? i) && (i <=? Z.of_nat (length options))) with true
    by (symmetry; apply andb_true_iff; split; [apply Z.ltb_lt|apply Z.leb_le]; lia).
  rewrite (nth_lookup_Some _ _ _ _ Ho). reflexivity.
Qed.

(** A turn at which B or A is entered. *)
Lemma SelectOption_loop_blank ui options longField errs w raw fuel :
  stdin w (reads w) = {| text := raw; rerr := None |} ->
  ToUpper (TrimSpace raw) = "B" ->
  SelectOption_loop (S fuel) ui options longField errs w
  = (Some ("", None), next_line w).
Proof.
  intros Hin Hb.
  cbn [SelectOption_loop]. unfold mbind, IO_bind.
  rewrite SelectOption_body_read, Hin. cbn [text rerr]. rewrite Hb. reflexivity.
Qed.

Lemma SelectOption_loop_abort ui options longField errs w raw fuel :
  stdin w (reads w) = {| text := raw; rerr := None |} ->
  ToUpper (TrimSpace raw) = "A" ->
  SelectOption_loop (S fuel) ui options longField errs w
  = (Some ("", Some (ErrorString userAborted)), next_line w).
Proof.
  intros Hin Hb.
  cbn [SelectOption_loop]. unfold mbind, IO_bind.
  rewrite SelectOption_body_read, Hin. cbn [text rerr]. rewrite Hb. reflexivity.
Qed.

(** A turn of the loop of [SelectOption] returns, or counts an error. *)
Lemma SelectOption_body_turn ui options longField errs w :
  (exists r, (SelectOption_body ui options longField errs w).1 = Return r)
  \/ (SelectOption_body ui options longField errs w).1 = count_error errs.
Proof.
  rewrite SelectOption_body_read. cbn zeta.
  unfold mbind, IO_bind, mret, IO_ret, Accept, GetInput, Edit, mbind, IO_bind,
    ret, mret, IO_ret.
  repeat first
    [ match goal with
      | |- context [match ?x with _ => _ end] =>
          lazymatch x with
          | context [match _ with _ => _ end] => fail
          | _ => destruct x eqn:?
          end
      end
    | progress cbn [fst snd] ];
    eauto.
Qed.

Lemma count_error_turn errs :
  count_error errs
  = if (10 <? S errs)%nat then Return ("", Some (ErrorString invalidChoice))
    else Again (S errs).
Proof. reflexivity. Qed.

Lemma SelectOption_loop_returns ui options longField k : forall errs w,
  (10 <= errs + k)%nat ->
  exists r w', forall fuel, (k < fuel)%nat ->
    SelectOption_loop fuel ui options longField errs w = (Some r, w').
Proof.
  induction k as [|k IH]; intros errs w Hk.
  - destruct (SelectOption_body ui options longField errs w) as [t w1] eqn:Hb.
    destruct (SelectOption_body_turn ui options longField errs w) as [[r Hr]|Hc];
      rewrite Hb in *; cbn [fst] in *.
    + exists r, w1. intros [|fuel] Hf; [lia|].
      cbn [SelectOption_loop]. unfold mbind, IO_bind. rewrite Hb, Hr. reflexivity.
    + rewrite count_error_turn in Hc.
      destruct (10 <? S errs)%nat eqn:Hlt; [|apply Nat.ltb_ge in Hlt; lia].
      exists ("", Some (ErrorString invalidChoice)), w1. intros [|fuel] Hf; [lia|].
      cbn [SelectOption_loop]. unfold mbind, IO_bind. rewrite Hb, Hc. reflexivity.
  - destruct (SelectOption_body ui options longField errs w) as [t w1] eqn:Hb.
    destruct (SelectOption_body_turn ui options longField errs w) as [[r Hr]|Hc];
      rewrite Hb in *; cbn [fst] in *.
    + exists r, w1. intros [|fuel] Hf; [lia|].
      cbn [SelectOption_loop]. unfold mbind, IO_bind. rewrite Hb, Hr. reflexivity.
    + rewrite count_error_turn in Hc.
      destruct (10 <? S errs)%nat eqn:Hlt.
      * exists ("", Some (ErrorString invalidChoice)), w1. intros [|fuel] Hf; [lia|].
        cbn [SelectOption_loop]. unfold mbind, IO_bind. rewrite Hb, Hc. reflexivity.
      * destruct (IH (S errs) w1) as (r & w' & Hrun); [lia|].
        exists r, w'. intros [|fuel] Hf; [lia|].
        cbn [SelectOption_loop]. unfold mbind, IO_bind. rewrite Hb, Hc.
        apply Hrun. lia.
Qed.

Lemma UpdateValue_body_read oldValue longField s w :
  UpdateValue_body oldValue longField s w
  = (let choice := TrimSpace (text (stdin w (reads w))) in
     match rerr (stdin w (reads w)) with
     | Some e => mret (Return (newValue s, Some e))
     | None =>
         if String.eqb (ToLower choice) "e" then
           '(choice, scanErr) ← (if longField then Edit oldValue else GetInput);
           match scanErr with
           | Some e => mret (Return (newValue s, Some e))
           | None =>
               confirmed ← Accept "Confirm";
               if (confirmed : bool)
               then mret (Again {| newValue := choice; validChoice := true;
                                   errs := errs s |})
               else mret (Again s)
           end
         else if String.eqb (ToLower choice) "k" then
           mret (Again {| newValue := oldValue; validChoice := true; errs := errs s |})
         else
           if (10 <? S (errs s))%nat
           then mret (Return ("", Some (ErrorString invalidChoice)))
           else mret (Again {| newValue := newValue s;
                               validChoice := validChoice s; errs := S (errs s) |})
     end) (next_line w).
Proof. reflexivity. Qed.

(** A choice that is neither edit nor keep counts as an error. *)
Lemma UpdateValue_body_invalid oldValue longField s w raw :
  stdin w (reads w) = {| text := raw; rerr := None |} ->
  ToLower (TrimSpace raw) <> "e" ->
  ToLower (TrimSpace raw) <> "k" ->
  UpdateValue_body oldValue longField s w
  = (if (10 <? S (errs s))%nat
     then Return ("", Some (ErrorString invalidChoice))
     else Again {| newValue := newValue s; validChoice := validChoice s;
                   errs := S (errs s) |},
     next_line w).
Proof.
  intros Hin He Hk. rewrite UpdateValue_body_read, Hin. cbn [text rerr].
  apply String.eqb_neq in He, Hk. rewrite He, Hk.
  by destruct (10 <? S (errs s))%nat.
Qed.

Lemma UpdateValue_loop_valid fuel oldValue longField s w :
  validChoice s = true ->
  UpdateValue_loop fuel oldValue longField s w
  = (Some (TrimSpace (newValue s), None), w).
Proof. intros H. destruct fuel; simpl; by rewrite H. Qed.

(** While edit is never chosen, every turn of the loop of
    [UpdateValue] returns, keeps the value, or counts an error. *)
Lemma UpdateValue_loop_returns oldValue longField k : forall s w,
  (10 <= errs s + k)%nat ->
  (forall n, (reads w <= n)%nat -> ToLower (TrimSpace (text (stdin w n))) <> "e") ->
  exists r w', forall fuel, (k < fuel)%nat ->
    UpdateValue_loop fuel oldValue longField s w = (Some r, w').
Proof.
  induction k as [|k IH]; intros s w Hk Hnoedit;
    (destruct (validChoice s) eqn:Hv;
     [exists (TrimSpace (newValue s), None), w; intros fuel _;
      by apply UpdateValue_loop_valid|]);
    pose proof (Hnoedit (reads w) (le_n _)) as Hne;
    apply String.eqb_neq in Hne;
    destruct (stdin w (reads w)) as [raw [e|]] eqn:Hin;
    cbn [text rerr] in Hne.
  - exists (newValue s, Some e), (next_line w). intros [|fuel] Hf; [lia|].
    cbn [UpdateValue_loop]. rewrite Hv. unfold mbind, IO_bind.
    rewrite UpdateValue_body_read, Hin. reflexivity.
  - destruct (String.eqb (ToLower (TrimSpace raw)) "k") eqn:Hkeep.
    + exists (TrimSpace oldValue, None), (next_line w). intros [|fuel] Hf; [lia|].
      cbn [UpdateValue_loop]. rewrite Hv. unfold mbind, IO_bind.
      rewrite UpdateValue_body_read, Hin. cbn [text rerr]. rewrite Hne, Hkeep.
      cbn. by rewrite UpdateValue_loop_valid.
    + exists ("", Some (ErrorString invalidChoice)), (next_line w).
      intros [|fuel] Hf; [lia|].
      cbn [UpdateValue_loop]. rewrite Hv. unfold mbind, IO_bind.
      rewrite UpdateValue_body_read, Hin. cbn [text rerr]. rewrite Hne, Hkeep.
      destruct (10 <? S (errs s))%nat eqn:Hlt; [reflexivity|].
      apply Nat.ltb_ge in Hlt. lia.
  - exists (newValue s, Some e), (next_line w). intros [|fuel] Hf; [lia|].
    cbn [UpdateValue_loop]. rewrite Hv. unfold mbind, IO_bind.
    rewrite UpdateValue_body_read, Hin. reflexivity.
  - destruct (String.eqb (ToLower (TrimSpace raw)) "k") eqn:Hkeep.
    + exists (TrimSpace oldValue, None), (next_line w). intros [|fuel] Hf; [lia|].
      cbn [UpdateValue_loop]. rewrite Hv. unfold mbind, IO_bind.
      rewrite UpdateValue_body_read, Hin. cbn [text rerr]. rewrite Hne, Hkeep.
      cbn. by rewrite UpdateValue_loop_valid.
    + destruct (10 <? S (errs s))%nat eqn:Hlt.
      * exists ("", Some (ErrorString invalidChoice)), (next_line w).
        intros [|fuel] Hf; [lia|].
        cbn [UpdateValue_loop]. rewrite Hv. unfold mbind, IO_bind.
        rewrite UpdateValue_body_read, Hin. cbn [text rerr].
        by rewrite Hne, Hkeep, Hlt.
      * destruct (IH {| newValue := newValue s; validChoice := validChoice s;
                        errs := S (errs s) |} (next_line w)) as (r & w' & Hrun).
        { cbn [errs]. lia. }
        { intros n Hn. apply Hnoedit. cbn [reads next_line] in Hn. lia. }
        exists r, w'. intros [|fuel] Hf; [lia|].
        cbn [UpdateValue_loop]. rewrite Hv. unfold mbind, IO_bind.
        rewrite UpdateValue_body_read, Hin. cbn [text rerr].
        rewrite Hne, Hkeep, Hlt. cbn. apply Hrun. lia.
Qed.

(** The user who edits and then declines the confirmation, again and
    again: a turn of the loop of [UpdateValue] changes nothing but the
    position in the input. *)
Lemma UpdateValue_body_unconfirmed oldValue s w :
  stdin w = stdin (repeating ["e"; "new"; "n"]) ->
  (reads w mod 3 = 0)%nat ->
  UpdateValue_body oldValue false s w
  = (Again s, next_line (next_line (next_line w))).
Proof.
  intros Hs Hm.
  assert (H0 : stdin w (reads w) = line "e").
  { rewrite Hs. cbn [stdin repeating length]. by rewrite Hm. }
  assert (H1 : stdin w (S (reads w)) = line "new").
  { rewrite Hs. cbn [stdin repeating length].
    pose proof (Nat.div_mod_eq (reads w) 3) as Hd.
    replace (S (reads w)) with (1 + (reads w / 3) * 3)%nat by lia.
    by rewrite Nat.Div0.mod_add. }
  assert (H2 : stdin w (S (S (reads w))) = line "n").
  { rewrite Hs. cbn [stdin repeating length].
    pose proof (Nat.div_mod_eq (reads w) 3) as Hd.
    replace (S (S (reads w))) with (2 + (reads w / 3) * 3)%nat by lia.
    by rewrite Nat.Div0.mod_add. }
  rewrite UpdateValue_body_read, H0. cbn [text rerr line].
  change (ToLower (TrimSpace ("e" +:+ String "010" "")) =? "e")%string with true.
  cbn iota. unfold mbind, IO_bind, GetInput at 1.
  cbn [next_line reads stdin]. rewrite H1. cbn [text rerr line].
  unfold Accept, mbind, IO_bind, GetInput. cbn [next_line reads stdin].
  rewrite H2. reflexivity.
Qed.

Lemma UpdateValue_loop_unconfirmed oldValue s fuel : forall w,
  validChoice s = false ->
  stdin w = stdin (repeating ["e"; "new"; "n"]) ->
  (reads w mod 3 = 0)%nat ->
  (UpdateValue_loop fuel oldValue false s w).1 = None.
Proof.
  induction fuel as [|fuel IH]; intros w Hv Hs Hm; cbn [UpdateValue_loop]; rewrite Hv.
  - reflexivity.
  - unfold mbind, IO_bind. rewrite UpdateValue_body_unconfirmed by done.
    apply IH; [done..|].
    cbn [next_line reads].
    pose proof (Nat.div_mod_eq (reads w) 3) as Hd.
    replace (S (S (S (reads w)))) with (0 + (reads w / 3 + 1) * 3)%nat by lia.
    by rewrite Nat.Div0.mod_add.
Qed.

End RetryLoops.

(** C4. In [SelectOption], with [opts] the options after duplicates are
    removed and no read error: a number [i] between 1 and the number of
    options returns the untagged text of [opts[i-1]] and no error; B in
    either case returns the empty string and no error; A in either case
    returns the empty string and the error "User aborted.". *)
Theorem SelectOption_choices (ui : UI) (title usage : string)
        (options : list string) (longField : bool) (w : World)
        (raw : string) (fuel : nat) :
  stdin w (reads w) = {| text := raw; rerr := None |} ->
  let opts := RemoveDuplicates options [] in
  let run := SelectOption (S fuel) ui title usage options longField w in
  (forall i, Atoi (TrimSpace raw) = Some i -> 1 <= i <= Z.of_nat (length opts) ->
             exists o, opts !! Z.to_nat (i - 1) = Some o
                       /\ run = (Some (unTag ui o, None), next_line w))
  /\ (ToUpper (TrimSpace raw) = "B" -> run = (Some ("", None), next_line w))
  /\ (ToUpper (TrimSpace raw) = "A" ->
      run = (Some ("", Some (ErrorString userAborted)), next_line w)).
Proof.
  intros Hin opts run. subst run. unfold SelectOption. fold opts. split_and!.
  - intros i Hi [Hlo Hhi].
    destruct (lookup_lt_is_Some_2 opts (Z.to_nat (i - 1))) as [o Ho]; [lia|].
    exists o. split; [done|]. by eapply SelectOption_loop_number.
  - intros Hb. by eapply SelectOption_loop_blank.
  - intros Ha. by eapply SelectOption_loop_abort.
Qed.

Lemma SelectOption_choices_witness :
  SelectOption 1 ansi "Author" "" [Tag ansi "Tolkien" true; Tag ansi "J.R.R. Tolkien" false;
                                   Tag ansi "Tolkien" true] false (typing ["2"])
  = (Some ("J.R.R. Tolkien", None), next_line (typing ["2"]))
  /\ SelectOption 1 ansi "Author" "" ["x"] false (typing ["b"])
     = (Some ("", None), next_line (typing ["b"]))
  /\ SelectOption 1 ansi "Author" "" ["x"] false (typing ["A"])
     = (Some ("", Some (ErrorString userAborted)), next_line (typing ["A"])).
Proof.
  split_and!.
  - destruct (proj1 (SelectOption_choices ansi "Author" ""
                [Tag ansi "Tolkien" true; Tag ansi "J.R.R. Tolkien" false;
                 Tag ansi "Tolkien" true] false (typing ["2"]) _ 0 eq_refl)
                2 eq_refl ltac:(vm_compute; split; discriminate)) as (o & Ho & E).
    vm_compute in Ho. injection Ho as <-. exact E.
  - exact (proj1 (proj2 (SelectOption_choices ansi "Author" "" ["x"] false
                           (typing ["b"]) _ 0 eq_refl)) eq_refl).
  - exact (proj2 (proj2 (SelectOption_choices ansi "Author" "" ["x"] false
                           (typing ["A"]) _ 0 eq_refl)) eq_refl).
Defined.

(** C1, as the code has it.  [SelectOption] returns within eleven turns of
    its loop on every input: a turn that does not return counts an error,
    and the turn that takes the counter above 10 returns the error
    "Invalid choice.".  [UpdateValue] counts a choice that is neither edit
    nor keep, and returns that error when the counter goes above 10; it
    returns within eleven turns on every input on which edit is never
    chosen.  An edit that is not confirmed is tried again and not counted. *)
Theorem retry_loops_bounded :
  (forall ui title usage options longField w,
      exists r w', forall fuel, (11 <= fuel)%nat ->
        SelectOption fuel ui title usage options longField w = (Some r, w'))
  /\ (forall ui options longField errs w,
        (exists r, (SelectOption_body ui options longField errs w).1 = Return r)
        \/ (SelectOption_body ui options longField errs w).1
           = if (10 <? S errs)%nat
             then Return ("", Some (ErrorString invalidChoice))
             else Again (S errs))
  /\ (forall field usage oldValue longField w,
        (forall n, (reads w <= n)%nat ->
                   ToLower (TrimSpace (text (stdin w n))) <> "e") ->
        exists r w', forall fuel, (11 <= fuel)%nat ->
          UpdateValue fuel field usage oldValue longField w = (Some r, w'))
  /\ (forall oldValue longField s w raw,
        stdin w (reads w) = {| text := raw; rerr := None |} ->
        ToLower (TrimSpace raw) <> "e" ->
        ToLower (TrimSpace raw) <> "k" ->
        UpdateValue_body oldValue longField s w
        = (if (10 <? S (errs s))%nat
           then Return ("", Some (ErrorString invalidChoice))
           else Again {| newValue := newValue s; validChoice := validChoice s;
                         errs := S (errs s) |},
           next_line w)).
Proof.
  split_and!.
  - intros ui title usage options longField w. unfold SelectOption.
    destruct (SelectOption_loop_returns ui (RemoveDuplicates options []) longField
                10 0%nat w) as (r & w' & H); [lia|].
    exists r, w'. intros fuel Hf. apply H. lia.
  - intros. apply SelectOption_body_turn.
  - intros field usage oldValue longField w Hnoedit. unfold UpdateValue.
    destruct (UpdateValue_loop_returns oldValue longField 10
                {| newValue := ""; validChoice := false; errs := 0 |} w)
      as (r & w' & H); [cbn; lia|done|].
    exists r, w'. intros fuel Hf. apply H. lia.
  - intros. by eapply UpdateValue_body_invalid.
Qed.

Lemma retry_loops_bounded_witness :
  (exists r w', forall fuel, (11 <= fuel)%nat ->
      UpdateValue fuel "Title" "" "Dune" false (repeating ["x"]) = (Some r, w'))
  /\ UpdateValue_body "Dune" false {| newValue := ""; validChoice := false; errs := 10 |}
       (repeating ["x"])
     = (Return ("", Some (ErrorString invalidChoice)), next_line (repeating ["x"])).
Proof.
  split.
  - apply (proj1 (proj2 (proj2 retry_loops_bounded))).
    intros n _. cbn [stdin repeating length]. rewrite Nat.mod_1_r. discriminate.
  - exact (proj2 (proj2 (proj2 retry_loops_bounded)) "Dune" false
             {| newValue := ""; validChoice := false; errs := 10 |} (repeating ["x"])
             ("x" +:+ String "010" "") eq_refl
             ltac:(discriminate) ltac:(discriminate)).
Defined.

(** The sentence of C1 that no input keeps the loops going fails for
    [UpdateValue]: with a user who chooses edit, types a value and declines
    to confirm it, over and over, no number of turns reaches a return. *)
Lemma UpdateValue_unconfirmed_edits_never_return :
  ~ exists fuel,
      is_Some (UpdateValue fuel "Title" "" "Dune" false
                 (repeating ["e"; "new"; "n"])).1.
Proof.
  intros [fuel [r Hr]]. unfold UpdateValue in Hr.
  rewrite UpdateValue_loop_unconfirmed in Hr by done. discriminate.
Qed.

(** ** The spinner *)

Import Spinner.

Lemma spin_loop_ticks (ticks : nat) (rest : list message) (s : spin_state) :
  functionDone s = false ->
  spin_loop (repeat Tick ticks ++ rest) s = spin_loop rest s.
Proof.
  intros Hs. induction ticks as [|n IH]; [done|].
  cbn [repeat app spin_loop]. rewrite Hs. cbn [select_case]. exact IH.
Qed.

(** C7. Whatever number of ticks the [select] receives before the result
    of the worker, [SpinWhileThingsHappen] returns, and returns exactly
    what [f] returned: [nil] when [f] returned [nil], the error of [f]
    otherwise. *)
Theorem SpinWhileThingsHappen_returns_result_of_f
        (title : string) (f : unit -> option error) (ticks : nat) :
  SpinWhileThingsHappen title f ticks = Some (f tt).
Proof.
  unfold SpinWhileThingsHappen, interleaving.
  rewrite spin_loop_ticks by reflexivity.
  destruct (f tt) as [e|]; reflexivity.
Qed.

(** ** Unique file names *)

Import FS Filesystem Trees.

Section UniqueNames.
Variables (now : string) (dir : path) (filenameBase : string) (fs : files).

Lemma search_loop_unfold fuel s :
  search_loop fuel now dir filenameBase s fs
  = if searching s then
      match fuel with
      | O => OutOfFuel
      | S fuel' =>
          search_loop fuel' now dir filenameBase
            (try_candidate fs now dir filenameBase s) fs
      end
    else Ok s fs.
Proof.
  destruct fuel; cbn [search_loop]; destruct (searching s); reflexivity.
Qed.

(** A state in which the loop condition holds and that the body leaves
    unchanged is never left. *)
Lemma search_loop_stuck s :
  searching s = true ->
  try_candidate fs now dir filenameBase s = s ->
  forall fuel, search_loop fuel now dir filenameBase s fs = OutOfFuel.
Proof.
  intros Hc Hfix fuel. induction fuel as [|fuel IH];
    rewrite search_loop_unfold, Hc; [done|]. by rewrite Hfix.
Qed.

Lemma search_loop_reaches_stuck n : forall s,
  (forall k, (k <= n)%nat ->
             searching (Nat.iter k (try_candidate fs now dir filenameBase) s) = true) ->
  try_candidate fs now dir filenameBase
    (Nat.iter n (try_candidate fs now dir filenameBase) s)
  = Nat.iter n (try_candidate fs now dir filenameBase) s ->
  forall fuel, search_loop fuel now dir filenameBase s fs = OutOfFuel.
Proof.
  induction n as [|n IH]; intros s Hall Hfix fuel.
  - apply search_loop_stuck; [|done]. apply (Hall 0%nat). lia.
  - rewrite search_loop_unfold.
    pose proof (Hall 0%nat ltac:(lia)) as H0. cbn [Nat.iter nat_rect] in H0.
    rewrite H0.
    destruct fuel as [|fuel]; [done|].
    apply IH.
    + intros k Hk. rewrite <- Nat.iter_succ_r. apply Hall. lia.
    + by rewrite <- !Nat.iter_succ_r.
Qed.

Lemma try_candidate_taken s :
  AbsoluteFileExists fs (Join dir (candidate_name now filenameBase (attempts s))) = true ->
  try_candidate fs now dir filenameBase s
  = {| uniqueFilename := uniqueFilename s; uniqueNameFound := uniqueNameFound s;
       attempts := S (attempts s) |}.
Proof. intros H. unfold try_candidate, FileExists. by rewrite H. Qed.

Lemma try_candidate_free s :
  AbsoluteFileExists fs (Join dir (candidate_name now filenameBase (attempts s))) = false ->
  try_candidate fs now dir filenameBase s
  = {| uniqueFilename := Join dir (candidate_name now filenameBase (attempts s));
       uniqueNameFound := true; attempts := attempts s |}.
Proof. intros H. unfold try_candidate, FileExists. by rewrite H. Qed.

(** Where the loop does what is expected of it: when the first free
    name comes within the first 51 candidates, the loop returns it. *)
Lemma search_loop_first_free j : forall i u fuel,
  (i + j <= 50)%nat ->
  (forall a, (i <= a < i + j)%nat ->
             AbsoluteFileExists fs (Join dir (candidate_name now filenameBase a)) = true) ->
  AbsoluteFileExists fs (Join dir (candidate_name now filenameBase (i + j))) = false ->
  (j < fuel)%nat ->
  search_loop fuel now dir filenameBase
    {| uniqueFilename := u; uniqueNameFound := false; attempts := i |} fs
  = Ok {| uniqueFilename := Join dir (candidate_name now filenameBase (i + j));
          uniqueNameFound := true; attempts := i + j |} fs.
Proof.
  induction j as [|j IH]; intros i u fuel Hle Htaken Hfree Hfuel;
    (destruct fuel as [|fuel]; [lia|]); rewrite search_loop_unfold; cbn [searching
      uniqueNameFound negb orb].
  - rewrite Nat.add_0_r in *. rewrite try_candidate_free by done. cbn [attempts].
    rewrite search_loop_unfold. unfold searching. cbn [uniqueNameFound attempts negb orb].
    by replace (50 <? i)%nat with false by (symmetry; apply Nat.ltb_ge; lia).
  - rewrite try_candidate_taken by (apply Htaken; cbn; lia). cbn [attempts uniqueFilename
      uniqueNameFound].
    replace (i + S j)%nat with (S i + j)%nat by lia.
    apply IH; [lia| |by replace (S i + j)%nat with (i + S j)%nat by lia|lia].
    intros a Ha. apply Htaken. lia.
Qed.

End UniqueNames.

(** X26. In a directory that exists, with at most 50 of the candidate
    names taken before the first free one, [GetUniqueTimestampedFilename]
    returns that free name and leaves the tree as it is. *)
Lemma GetUniqueTimestampedFilename_first_free
      (now : string) (dir : path) (filename : string) (fs : files) (j fuel : nat) :
  let base := TrimSuffix (Base filename) (Ext filename) in
  DirectoryExists fs dir = true ->
  (j <= 50)%nat ->
  (forall a, (a < j)%nat ->
             AbsoluteFileExists fs (Join dir (candidate_name now base a)) = true) ->
  AbsoluteFileExists fs (Join dir (candidate_name now base j)) = false ->
  (j < fuel)%nat ->
  GetUniqueTimestampedFilename fuel now dir filename fs
  = Ok (Join dir (candidate_name now base j), None) fs.
Proof.
  intros base Hdir Hj Htaken Hfree Hfuel.
  unfold GetUniqueTimestampedFilename, mbind, FSM_bind, read. rewrite Hdir.
  unfold FS.ret, mret, FSM_ret. cbn iota beta. fold base.
  rewrite (search_loop_first_free now dir base fs j 0 [] fuel); [done|lia| |done|done].
  intros a Ha. apply Htaken. lia.
Qed.

(** C2 at the directory [crowded], in which the name for the current
    second and its 50 suffixed variants exist: the loop of
    [GetUniqueTimestampedFilename] finds the free name with the suffix
    [_51] and then repeats for ever, because its condition also holds
    while [attempts > 50]. *)
Theorem GetUniqueTimestampedFilename_never_returns :
  forall fuel,
    GetUniqueTimestampedFilename fuel "2016-06-01 12:00:00" ["backups"]
      "/home/me/library.epub" crowded = OutOfFuel.
Proof.
  intros fuel. unfold GetUniqueTimestampedFilename.
  unfold mbind, FSM_bind, read.
  change (DirectoryExists crowded ["backups"]) with true. cbn iota beta.
  unfold FS.ret, mret, FSM_ret. cbn iota beta.
  change (TrimSuffix (Base "/home/me/library.epub") (Ext "/home/me/library.epub"))
    with "library".
  rewrite (search_loop_reaches_stuck _ _ _ _ 52); [done| |by vm_compute].
  intros k Hk.
  assert (Hall : forallb (fun k => searching (Nat.iter k
                   (try_candidate crowded "2016-06-01 12:00:00" ["backups"] "library")
                   {| uniqueFilename := []; uniqueNameFound := false; attempts := 0 |}))
                   (seq 0 53) = true) by (by vm_compute).
  rewrite forallb_forall in Hall. apply Hall. apply in_seq. lia.
Qed.

(** ** The file tree *)

Section TreeFacts.
Implicit Types (fs : files) (p q k canon rest : path) (i : inode).

Lemma well_formed_b_true fs : well_formed_b fs = true -> well_formed fs.
Proof.
  unfold well_formed_b, well_formed. intros H.
  apply andb_true_iff in H as [Hroot Hall]. apply bool_decide_eq_true in Hroot.
  split; [done|]. intros p n [i Hi].
  rewrite forallb_forall in Hall.
  assert (Hin : In (p ++ [n]) (map_to_list fs).*1).
  { apply list_elem_of_In, list_elem_of_fmap. exists (p ++ [n], i).
    split; [done|]. by apply elem_of_map_to_list. }
  apply Hall in Hin. destruct (p ++ [n]) as [|x l] eqn:E.
  - by destruct p.
  - rewrite <- E, removelast_last in Hin. by apply bool_decide_eq_true in Hin.
Qed.

Lemma height_le_height fs : height_le fs (height fs).
Proof.
  unfold height_le, height. intros k [i Hi].
  assert (Hin : k ∈ (map_to_list fs).*1).
  { apply list_elem_of_fmap. exists (k, i). split; [done|]. by apply elem_of_map_to_list. }
  induction ((map_to_list fs).*1) as [|x l IH]; [by apply elem_of_nil in Hin|].
  apply elem_of_cons in Hin as [->|Hin]; simpl; [lia|]. specialize (IH Hin). lia.
Qed.

(** In a well-formed tree everything above an existing path is a
    directory. *)
Lemma ancestors_are_dirs fs p :
  well_formed fs -> is_Some (fs !! p) ->
  forall q, q `prefix_of` p -> q <> p -> fs !! q = Some IDir.
Proof.
  intros [Hroot Hwf]. induction p as [|n p IH] using rev_ind; intros Hp q [r Hr] Hne.
  - symmetry in Hr. apply app_eq_nil in Hr as [-> _]. done.
  - destruct r as [|x r _] using rev_ind.
    + rewrite app_nil_r in Hr. congruence.
    + rewrite app_assoc in Hr. apply app_inj_tail in Hr as [-> ->].
      pose proof (Hwf _ _ Hp) as Hdir.
      destruct r as [|y r].
      * by rewrite app_nil_r in Hdir.
      * apply IH; [by eexists|by eexists|].
        intros E. apply (f_equal length) in E. rewrite length_app in E. simpl in E. lia.
Qed.

Lemma descend_found fs follow jump rest : forall canon i,
  (forall q, canon `prefix_of` q -> q `prefix_of` canon ++ rest -> q <> canon ++ rest ->
             fs !! q = Some IDir) ->
  fs !! (canon ++ rest) = Some i ->
  (follow = false \/ forall t, i <> ISymlink t) ->
  descend fs follow jump canon rest = Found (canon ++ rest) i.
Proof.
  induction rest as [|c rest IH]; intros canon i Habove Hi Hlink.
  - rewrite app_nil_r in *. cbn [descend]. rewrite Hi.
    destruct i as [d| |t|]; try done.
    destruct Hlink as [->|Hl]; [done|]. by destruct (Hl t).
  - cbn [descend]. rewrite (Habove canon); [| done | by eexists |].
    + replace (canon ++ c :: rest) with ((canon ++ [c]) ++ rest) in *
        by (by rewrite <- app_assoc).
      apply IH; [|done..].
      intros q [r ->] Hq Hne. apply Habove; [|done..].
      rewrite <- app_assoc. by eexists.
    + intros E. apply (f_equal length) in E. rewrite length_app in E. simpl in E. lia.
Qed.

Lemma descend_absent fs follow jump rest : forall canon,
  (forall q, canon `prefix_of` q -> q `prefix_of` canon ++ rest -> q <> canon ++ rest ->
             fs !! q = Some IDir) ->
  fs !! (canon ++ rest) = None ->
  descend fs follow jump canon rest = Absent (canon ++ rest).
Proof.
  induction rest as [|c rest IH]; intros canon Habove Hi.
  - rewrite app_nil_r in *. cbn [descend]. by rewrite Hi.
  - cbn [descend]. rewrite (Habove canon); [| done | by eexists |].
    + replace (canon ++ c :: rest) with ((canon ++ [c]) ++ rest) in *
        by (by rewrite <- app_assoc).
      apply IH; [|done].
      intros q [r ->] Hq Hne. apply Habove; [|done..].
      rewrite <- app_assoc. by eexists.
    + intros E. apply (f_equal length) in E. rewrite length_app in E. simpl in E. lia.
Qed.

Lemma resolve_max_hops fs follow p :
  resolve max_hops fs follow p = descend fs follow (resolve 39 fs follow) [] p.
Proof. reflexivity. Qed.

(** [Lstat] and [Stat] of an existing path of a well-formed tree. *)
Lemma resolve_found fs follow p i :
  well_formed fs -> fs !! p = Some i ->
  (follow = false \/ forall t, i <> ISymlink t) ->
  resolve max_hops fs follow p = Found p i.
Proof.
  intros Hwf Hi Hlink. rewrite resolve_max_hops.
  apply (descend_found fs follow _ p [] i); [|done..].
  intros q _ Hq Hne. by apply (ancestors_are_dirs fs p).
Qed.

(** A name that does not exist in an existing directory. *)
Lemma resolve_absent fs follow p n :
  well_formed fs -> fs !! p = Some IDir -> fs !! (p ++ [n]) = None ->
  resolve max_hops fs follow (p ++ [n]) = Absent (p ++ [n]).
Proof.
  intros Hwf Hp Hn. rewrite resolve_max_hops.
  apply (descend_absent fs follow _ (p ++ [n]) []); [|done].
  intros q _ [r Hr] Hne. simpl in Hr, Hne.
  destruct r as [|x r _] using rev_ind; [rewrite app_nil_r in Hr; congruence|].
  rewrite app_assoc in Hr. apply app_inj_tail in Hr as [-> ->].
  destruct r as [|y r]; [by rewrite app_nil_r in Hp|].
  apply (ancestors_are_dirs fs (q ++ y :: r)); [done|by eexists|by eexists|].
  intros E. apply (f_equal length) in E. rewrite length_app in E. simpl in E. lia.
Qed.

Lemma path_after_Some p : forall k r, path_after p k = Some r <-> k = p ++ r.
Proof.
  induction p as [|a p IH]; intros k r; simpl.
  - split; [by intros [= ->]|by intros ->].
  - destruct k as [|b k]; [split; [done|by intros [=]]|].
    destruct (String.eqb a b) eqn:E.
    + apply String.eqb_eq in E as ->. rewrite IH. split; [by intros ->|by intros [= ->]].
    + apply String.eqb_neq in E. split; [done|]. intros [= -> _]. done.
Qed.

Lemma child_name_Some p k n : child_name p k = Some n <-> k = p ++ [n].
Proof.
  unfold child_name. destruct (path_after p k) as [r|] eqn:E.
  - apply path_after_Some in E as ->.
    destruct r as [|x [|y r]]; (split; [intros H|intros H%app_inv_head]);
      try done; congruence.
  - split; [done|]. intros ->.
    assert (path_after p (p ++ [n]) = Some [n]) by (by apply path_after_Some).
    congruence.
Qed.

Lemma NoDup_omap_inj {A B} (f : A -> option B) (l : list A) :
  (forall x y z, f x = Some z -> f y = Some z -> x = y) ->
  NoDup l -> NoDup (omap f l).
Proof.
  intros Hinj. induction 1 as [|x l Hx Hl IH]; simpl; [constructor|].
  destruct (f x) as [z|] eqn:E; [|done].
  constructor; [|done]. intros Hin. apply list_elem_of_omap in Hin as (y & Hy & Hfy).
  by rewrite (Hinj _ _ _ E Hfy) in Hx.
Qed.

Lemma elem_of_children fs p n : n ∈ children fs p <-> is_Some (fs !! (p ++ [n])).
Proof.
  unfold children. rewrite merge_sort_Permutation, list_elem_of_omap. split.
  - intros (k & Hk & Hn). apply child_name_Some in Hn as ->.
    apply list_elem_of_fmap in Hk as ([k i] & -> & Hk).
    apply elem_of_map_to_list in Hk. by eexists.
  - intros [i Hi]. exists (p ++ [n]). split; [|by apply child_name_Some].
    apply list_elem_of_fmap. exists (p ++ [n], i). split; [done|].
    by apply elem_of_map_to_list.
Qed.

Lemma NoDup_children fs p : NoDup (children fs p).
Proof.
  unfold children. rewrite merge_sort_Permutation.
  apply NoDup_omap_inj; [|apply NoDup_fst_map_to_list].
  intros x y z Hx Hy. apply child_name_Some in Hx, Hy. congruence.
Qed.

Lemma children_nil fs p : children fs p = [] <-> forall n, fs !! (p ++ [n]) = None.
Proof.
  split.
  - intros E n. destruct (fs !! (p ++ [n])) as [i|] eqn:Hi; [|done].
    assert (n ∈ children fs p) as Hin by (apply elem_of_children; by eexists).
    rewrite E in Hin. by apply elem_of_nil in Hin.
  - intros H. destruct (children fs p) as [|n l] eqn:E; [done|].
    assert (n ∈ children fs p) as Hin by (rewrite E; left).
    apply elem_of_children in Hin as [i Hi]. by rewrite H in Hi.
Qed.

(** Nothing exists under a path that does not exist, or that is not a
    directory. *)
Lemma nothing_under fs p q :
  well_formed fs -> fs !! p <> Some IDir -> q <> [] -> fs !! (p ++ q) = None.
Proof.
  intros Hwf Hp Hq. destruct (fs !! (p ++ q)) as [i|] eqn:Hi; [|done].
  destruct Hp. apply (ancestors_are_dirs fs (p ++ q)); [done|by eexists|by eexists|].
  intros E. apply (f_equal length) in E. rewrite length_app in E.
  destruct q; [done|simpl in E; lia].
Qed.

End TreeFacts.

(** ** Removing empty folders *)

Section Sweep.
Variables (orig : files) (root : path) (H : nat).
Implicit Types (fs : files) (p q k : path) (c : counters) (d : nat).

Lemma below_not_nil p : root `prefix_of` p -> p <> root -> p <> [].
Proof. intros Hp Hne ->. apply prefix_nil_inv in Hp. congruence. Qed.

Lemma deleteIfEmpty_root info err c fs :
  deleteIfEmpty root root info err c fs = Ok (None, c) fs.
Proof. unfold deleteIfEmpty. by rewrite bool_decide_true. Qed.

Lemma deleteIfEmpty_gone p c fs :
  p <> root ->
  deleteIfEmpty root p None (Some (PathError ENOENT)) c fs = Ok (None, c) fs.
Proof. intros Hp. unfold deleteIfEmpty. by rewrite bool_decide_false. Qed.

Lemma deleteIfEmpty_other p i c fs :
  p <> root -> i <> IDir ->
  deleteIfEmpty root p (Some {| ino := p; kind := i |}) None c fs = Ok (None, c) fs.
Proof.
  intros Hp Hi. unfold deleteIfEmpty. rewrite bool_decide_false by done.
  by destruct i.
Qed.

Lemma IsDirectoryEmpty_dir fs p :
  well_formed fs -> fs !! p = Some IDir ->
  IsDirectoryEmpty fs p = (bool_decide (children fs p = []), None).
Proof.
  intros Hwf Hp. unfold IsDirectoryEmpty, Open, Stat, info_of.
  rewrite (resolve_found fs true p IDir) by (auto; right; done).
  unfold Readdirnames1. cbn [kind ino].
  by destruct (children fs p).
Qed.

Lemma Remove_empty_dir fs p :
  well_formed fs -> fs !! p = Some IDir -> p <> [] -> children fs p = [] ->
  Remove fs p = (None, delete p fs).
Proof.
  intros Hwf Hp Hne Hc. unfold Remove.
  rewrite (resolve_found fs false p IDir) by auto.
  destruct p; [done|]. by rewrite Hc.
Qed.

(** The callback on a directory that is not the root: it goes when it
    is empty. *)
Lemma deleteIfEmpty_dir p c fs :
  well_formed fs -> fs !! p = Some IDir -> p <> root -> p <> [] ->
  deleteIfEmpty root p (Some {| ino := p; kind := IDir |}) None c fs
  = if bool_decide (children fs p = [])
    then Ok (None, count_deletion c) (delete p fs)
    else Ok (None, c) fs.
Proof.
  intros Hwf Hp Hroot Hne. unfold deleteIfEmpty.
  rewrite bool_decide_false by done. cbn [IsDir kind].
  unfold mbind, FSM_bind, read. rewrite IsDirectoryEmpty_dir by done.
  case_bool_decide as Hc; [|done].
  unfold update. by rewrite Remove_empty_dir.
Qed.

Lemma well_formed_delete fs p :
  well_formed fs -> p <> [] -> children fs p = [] -> well_formed (delete p fs).
Proof.
  intros [Hroot Hwf] Hne Hc. split; [by rewrite lookup_delete_ne|].
  intros q n [i Hi]. apply lookup_delete_Some in Hi as [Hqn Hi].
  rewrite lookup_delete_ne; [apply (Hwf q n); by eexists|].
  intros ->. apply children_nil with (n := n) in Hc. congruence.
Qed.

Lemma swept_refl fs : well_formed fs -> swept fs root fs.
Proof. intros Hwf. split_and!; [done|done|]. intros k [i Hi] Hk. congruence. Qed.

Lemma swept_delete fs p :
  swept orig root fs -> fs !! p = Some IDir ->
  root `prefix_of` p -> p <> root -> children fs p = [] ->
  swept orig root (delete p fs).
Proof.
  intros (Hwf & Hsub & Hgone) Hp Hroot Hne Hc.
  pose proof (below_not_nil p Hroot Hne) as Hnil.
  split_and!.
  - by apply well_formed_delete.
  - etrans; [apply delete_subseteq|done].
  - intros k Hk Hdel. apply lookup_delete_None in Hdel as [Heq|Hk']; [|by apply Hgone].
    subst k. split; [done|].
    assert (Horig : orig !! p = Some IDir)
      by (by apply (lookup_weaken fs orig)).
    split; [done|]. intros q Hq.
    destruct q as [|n q]; [by rewrite app_nil_r|].
    assert (Hnone : fs !! (p ++ n :: q) = None).
    { destruct (fs !! (p ++ n :: q)) as [i|] eqn:Hi; [|done].
      apply children_nil with (n := n) in Hc.
      destruct q as [|m q]; [congruence|].
      rewrite (ancestors_are_dirs fs (p ++ n :: m :: q) Hwf) in Hc; [done|by eexists| |].
      - exists (m :: q). by rewrite <- app_assoc.
      - intros E. apply (f_equal length) in E. rewrite !length_app in E. simpl in E. lia. }
    by destruct (Hgone _ Hq Hnone) as [_ [Hd _]].
Qed.

Lemma add_deleted_0 c : add_deleted 0 c = c.
Proof. destruct c. unfold add_deleted. simpl. by rewrite !Nat.add_0_r. Qed.

Lemma add_deleted_add d1 d2 c :
  add_deleted d2 (add_deleted d1 c) = add_deleted (d1 + d2) c.
Proof. unfold add_deleted. simpl. f_equal; lia. Qed.

Lemma add_deleted_1 c : count_deletion c = add_deleted 1 c.
Proof. unfold add_deleted, count_deletion. f_equal; lia. Qed.

Lemma height_le_subseteq fs fs' : fs' ⊆ fs -> height_le fs H -> height_le fs' H.
Proof.
  intros Hsub Hh k [i Hi]. apply Hh. exists i. by apply (lookup_weaken fs' fs).
Qed.

Lemma Lstat_found fs p i :
  well_formed fs -> fs !! p = Some i -> Lstat fs p = inr {| ino := p; kind := i |}.
Proof. intros Hwf Hi. unfold Lstat, info_of. by rewrite (resolve_found fs false p i) by auto. Qed.

Lemma Lstat_absent fs p n :
  well_formed fs -> fs !! p = Some IDir -> fs !! (p ++ [n]) = None ->
  Lstat fs (p ++ [n]) = inl (PathError ENOENT).
Proof. intros Hwf Hp Hn. unfold Lstat, info_of. by rewrite resolve_absent. Qed.

Lemma readDirNames_dir fs p :
  well_formed fs -> fs !! p = Some IDir -> readDirNames fs p = inr (children fs p).
Proof.
  intros Hwf Hp. unfold readDirNames.
  by rewrite (resolve_found fs true p IDir) by (auto; right; done).
Qed.

Lemma snoc_not_root p n : root `prefix_of` p -> p ++ [n] <> root.
Proof.
  intros Hp E. rewrite <- E in Hp. by apply prefix_snoc_not in Hp.
Qed.

Lemma scanned_nothing areas fs c :
  swept orig root fs ->
  (forall a k, a ∈ areas -> a `prefix_of` k -> k <> root ->
               fs !! k = Some IDir -> children fs k <> []) ->
  scanned orig root areas fs c (Ok (None, c) fs).
Proof.
  intros Hs Hne. exists 0%nat, fs. rewrite add_deleted_0.
  split_and!; [done|done|done|lia|done|auto].
Qed.

(** Two scans one after the other. *)
Lemma scanned_then a areas fs c d1 fs1 res :
  swept orig root fs1 -> fs1 ⊆ fs -> (size fs1 + d1 = size fs)%nat ->
  (forall k, ~ a `prefix_of` k -> fs1 !! k = fs !! k) ->
  (d1 = 0%nat -> forall k, a `prefix_of` k -> k <> root ->
                           fs !! k = Some IDir -> children fs k <> []) ->
  scanned orig root areas fs1 (add_deleted d1 c) res ->
  scanned orig root (a :: areas) fs c res.
Proof.
  intros Hs1 Hsub1 Hsz1 Hfr1 Hne1 (d2 & fs2 & -> & Hs2 & Hsub2 & Hsz2 & Hfr2 & Hne2).
  exists (d1 + d2)%nat, fs2. rewrite add_deleted_add.
  split_and!; [done|done|by etrans|lia| |].
  - intros k Hk. rewrite Hfr2, Hfr1; [done| |].
    + apply Hk. left.
    + intros b Hb. apply Hk. by right.
  - intros Hd b k Hb Hbk Hroot Hdir.
    assert (d1 = 0%nat) as Hd1 by lia. assert (d2 = 0%nat) as Hd2 by lia.
    assert (fs1 = fs) as Hsame by (apply map_subseteq_size_eq; [done|lia]).
    apply elem_of_cons in Hb as [->|Hb]; [by apply Hne1|].
    subst fs1. by apply (Hne2 Hd2 b).
Qed.

Lemma walk_entries_scanned fuel p :
  (forall q i c fs,
      swept orig root fs -> height_le fs H -> root `prefix_of` q ->
      fs !! q = Some i -> (H < fuel + length q)%nat ->
      scanned orig root [q] fs c
        (walk fuel q {| ino := q; kind := i |} (deleteIfEmpty root) c fs)) ->
  root `prefix_of` p -> (H < fuel + S (length p))%nat ->
  forall names c fs,
    swept orig root fs -> height_le fs H -> fs !! p = Some IDir ->
    scanned orig root ((fun n => p ++ [n]) <$> names) fs c
      (walk_entries (fun q i u => walk fuel q i (deleteIfEmpty root) u)
         (deleteIfEmpty root) p names c fs).
Proof.
  intros Hwalk Hroot Hfuel names.
  induction names as [|name rest IH]; intros c fs Hs Hh Hp.
  - apply scanned_nothing; [done|]. intros a k Ha. by apply elem_of_nil in Ha.
  - cbn [walk_entries fmap list_fmap]. unfold mbind, FSM_bind, read.
    pose proof Hs as (Hwf & _ & _).
    destruct (fs !! (p ++ [name])) as [i|] eqn:Hi.
    + rewrite (Lstat_found fs _ i) by done.
      destruct (Hwalk (p ++ [name]) i c fs) as
        (d1 & fs1 & E1 & Hs1 & Hsub1 & Hsz1 & Hfr1 & Hne1); [done|done| |done| |].
      { by apply prefix_app_r. }
      { rewrite length_app. simpl. lia. }
      rewrite E1.
      apply (scanned_then _ _ fs c d1 fs1); [done|done|done| | |].
      * intros k Hk. apply Hfr1. intros a Ha. apply list_elem_of_singleton in Ha. by subst.
      * intros Hd k Hk. apply (Hne1 Hd (p ++ [name])); [|done]. by left.
      * apply IH; [done|by apply (height_le_subseteq fs)|].
        rewrite Hfr1; [done|]. intros a Ha. apply list_elem_of_singleton in Ha. subst a.
        apply prefix_snoc_not.
    + rewrite Lstat_absent by done.
      rewrite deleteIfEmpty_gone by (by apply snoc_not_root).
      apply (scanned_then _ _ fs c 0%nat fs); [done|done|lia|done| |].
      * intros _ k [r ->] _ Hk.
        destruct r as [|m r]; [rewrite app_nil_r, Hi in Hk; done|].
        rewrite (nothing_under fs (p ++ [name]) (m :: r)) in Hk;
          [done|done|by rewrite Hi|done].
      * rewrite add_deleted_0. by apply IH.
Qed.

(** Scanning the entries of a directory that stays is scanning the
    directory. *)
Lemma scanned_dir q fs c res :
  well_formed fs -> fs !! q = Some IDir ->
  (q = root \/ children fs q <> []) ->
  scanned orig root ((fun n => q ++ [n]) <$> children fs q) fs c res ->
  scanned orig root [q] fs c res.
Proof.
  intros Hwf Hq Hstay (d & fs' & -> & Hs & Hsub & Hsz & Hfr & Hne).
  exists d, fs'. split_and!; [done..| |].
  - intros k Hk. apply Hfr. intros a Ha Hak.
    apply list_elem_of_fmap in Ha as (n & -> & _).
    apply (Hk q); [by left|]. by apply prefix_app_l in Hak.
  - intros Hd a k Ha [r ->] Hroot Hdir. apply list_elem_of_singleton in Ha. subst a.
    destruct r as [|n r].
    + rewrite app_nil_r in *. by destruct Hstay.
    + assert (Hn : is_Some (fs !! (q ++ [n]))).
      { destruct r as [|m r]; [by eexists|].
        exists IDir. apply (ancestors_are_dirs fs (q ++ n :: m :: r)); [done|by eexists| |].
        - exists (m :: r). by rewrite <- app_assoc.
        - intros E. apply (f_equal length) in E. rewrite !length_app in E.
          simpl in E. lia. }
      apply (Hne Hd (q ++ [n])); [|by exists r; rewrite <- app_assoc|done..].
      apply list_elem_of_fmap. exists n. split; [done|]. by apply elem_of_children.
Qed.

(** [walk] with the callback of [DeleteEmptyFolders], given fuel for the
    depth of the tree. *)
Lemma walk_scanned fuel : forall q i c fs,
  swept orig root fs -> height_le fs H -> root `prefix_of` q ->
  fs !! q = Some i -> (H < fuel + length q)%nat ->
  scanned orig root [q] fs c
    (walk fuel q {| ino := q; kind := i |} (deleteIfEmpty root) c fs).
Proof.
  induction fuel as [|fuel IH]; intros q i c fs Hs Hh Hroot Hq Hfuel.
  - assert (length q <= H)%nat by (apply Hh; by eexists). lia.
  - pose proof Hs as (Hwf & _ & _).
    cbn [walk]. destruct (decide (i = IDir)) as [->|Hi].
    + cbn [IsDir kind negb]. unfold mbind, FSM_bind, read.
      rewrite readDirNames_dir by done.
      destruct (decide (q = root)) as [->|Hne].
      * rewrite deleteIfEmpty_root.
        apply scanned_dir; [done|done|by left|].
        apply walk_entries_scanned; [done|done|lia|done..].
      * rewrite deleteIfEmpty_dir by (try done; by apply below_not_nil).
        case_bool_decide as Hc.
        -- rewrite Hc. cbn [walk_entries]. unfold FS.ret, mret, FSM_ret.
           exists 1%nat, (delete q fs). rewrite add_deleted_1.
           split_and!; [done|by apply swept_delete|apply delete_subseteq| | |lia].
           ++ rewrite map_size_delete_Some by (by eexists).
              assert (size fs <> 0%nat) by (apply (map_size_ne_0_lookup_2 fs q); by eexists).
              lia.
           ++ intros k Hk. apply lookup_delete_ne. intros ->. by apply (Hk k); [left|].
        -- apply scanned_dir; [done|done|by right|].
           apply walk_entries_scanned; [done|done|lia|done..].
    + replace (negb (IsDir {| ino := q; kind := i |})) with true by (by destruct i).
      assert (deleteIfEmpty root q (Some {| ino := q; kind := i |}) None c fs
              = Ok (None, c) fs) as ->.
      { destruct (decide (q = root)) as [->|Hne];
          [apply deleteIfEmpty_root|by apply deleteIfEmpty_other]. }
      apply scanned_nothing; [done|].
      intros a k Ha [r ->] _ Hdir. apply list_elem_of_singleton in Ha. subst a.
      destruct r as [|n r]; [rewrite app_nil_r in Hdir; congruence|].
      rewrite (nothing_under fs q (n :: r)) in Hdir; [done|done|congruence|done].
Qed.

(** [filepath.Walk] from a root that is a directory. *)
Lemma Walk_scanned fuel c fs :
  swept orig root fs -> height_le fs H -> fs !! root = Some IDir ->
  (H < fuel)%nat ->
  scanned orig root [root] fs c (Walk fuel root (deleteIfEmpty root) c fs).
Proof.
  intros Hs Hh Hroot Hfuel. pose proof Hs as (Hwf & _ & _).
  unfold Walk, mbind, FSM_bind, read. rewrite (Lstat_found fs root IDir) by done.
  destruct (walk_scanned fuel root IDir c fs) as (d & fs' & E & Hrest);
    [done|done|done|done|lia|].
  rewrite E. cbn. by exists d, fs'.
Qed.

Lemma scan_loop_done fuel c err fs :
  deletedDirectoriesThisTime c = 0%nat ->
  scan_loop fuel root true c err fs = Ok (err, c) fs.
Proof. intros Hc. destruct fuel; cbn [scan_loop]; by rewrite Hc. Qed.

Lemma swept_root fs :
  swept orig root fs -> is_Some (orig !! root) -> fs !! root = orig !! root.
Proof.
  intros (_ & Hsub & Hgone) [i Hi]. destruct (fs !! root) as [j|] eqn:Hj.
  - by rewrite (lookup_weaken fs orig root j).
  - destruct (Hgone root) as [[_ Hne] _]; [by eexists|done|done].
Qed.

(** The scans go on until one deletes nothing; there are at most as many
    as the tree has entries. *)
Lemma scan_loop_sweeps n : forall fuel fs c err once,
  (size fs <= n)%nat ->
  swept orig root fs -> height_le fs H -> fs !! root = Some IDir ->
  (once = false \/ deletedDirectoriesThisTime c <> 0%nat) ->
  (n + H + 1 < fuel)%nat ->
  exists fs' c',
    scan_loop fuel root once c err fs = Ok (None, c') fs'
    /\ swept orig root fs'
    /\ (deletedDirectories c' + size fs' = deletedDirectories c + size fs)%nat
    /\ (forall k, below root k -> fs' !! k = Some IDir -> children fs' k <> []).
Proof.
  induction n as [|n IH]; intros fuel fs c err once Hsize Hs Hh Hroot Hgo Hfuel.
  - assert (size fs <> 0%nat) by (apply (map_size_ne_0_lookup_2 fs root); by eexists). lia.
  - destruct fuel as [|fuel]; [lia|]. cbn [scan_loop].
    replace (negb once || negb (deletedDirectoriesThisTime c =? 0)%nat) with true.
    2:{ destruct Hgo as [->|Hc]; [done|].
        apply Nat.eqb_neq in Hc. rewrite Hc. by destruct once. }
    unfold mbind, FSM_bind.
    set (c0 := {| deletedDirectories := deletedDirectories c;
                  deletedDirectoriesThisTime := 0 |}).
    destruct (Walk_scanned fuel c0 fs) as (d & fs1 & E & Hs1 & Hsub1 & Hsz1 & Hfr1 & Hne1);
      [done|done|done|lia|].
    rewrite E. cbn beta iota.
    destruct (decide (d = 0%nat)) as [->|Hd].
    + rewrite scan_loop_done by (cbn; lia).
      assert (fs1 = fs) as -> by (apply map_subseteq_size_eq; [done|lia]).
      exists fs, (add_deleted 0 c0). split_and!; [done|done|cbn; lia|].
      intros k [Hk Hkr] Hdir. apply (Hne1 eq_refl root); [by left|done..].
    + assert (is_Some (orig !! root)) as Horig.
      { destruct Hs as (_ & Hsub & _). exists IDir. by apply (lookup_weaken fs orig). }
      destruct (IH fuel fs1 (add_deleted d c0) None true)
        as (fs2 & c2 & E2 & Hs2 & Hsz2 & Hne2).
      * lia.
      * done.
      * by apply (height_le_subseteq fs).
      * rewrite (swept_root fs1), <- (swept_root fs); done.
      * right. cbn. lia.
      * lia.
      * exists fs2, c2. split_and!; [done|done| |done].
        rewrite Hsz2. cbn. lia.
Qed.

End Sweep.

(** The directories that are hollow in [orig] are gone from a swept tree
    in which no directory below the root is empty. *)
Lemma swept_no_hollow (orig : files) (root : path) (fs : files) (H : nat) :
  swept orig root fs -> height_le fs H ->
  (forall k, below root k -> fs !! k = Some IDir -> children fs k <> []) ->
  forall k, below root k -> hollow orig k -> fs !! k = None.
Proof.
  intros (Hwf & Hsub & _) Hh Hne k Hbelow [Hk Hall].
  assert (G : forall m q, (H < m + length (k ++ q))%nat -> fs !! (k ++ q) = None).
  { induction m as [|m IH]; intros q Hm.
    - destruct (fs !! (k ++ q)) as [i|] eqn:Hi; [|done].
      assert (length (k ++ q) <= H)%nat by (apply Hh; by eexists). lia.
    - destruct (fs !! (k ++ q)) as [i|] eqn:Hi; [|done].
      assert (orig !! (k ++ q) = Some i) as Ho by (by apply (lookup_weaken fs orig)).
      rewrite (Hall q) in Ho by (by eexists). injection Ho as <-.
      destruct (children fs (k ++ q)) as [|n l] eqn:Hc.
      + destruct (Hne (k ++ q)); [|done|done].
        destruct Hbelow as [Hp Hr]. split; [by apply prefix_app_r|].
        intros E. rewrite <- E in Hp. destruct q as [|x q]; [by rewrite app_nil_r in E|].
        apply prefix_length in Hp. rewrite length_app in Hp. simpl in Hp.
        assert (length k <= length root)%nat; [|lia].
        rewrite <- E, length_app. lia.
      + assert (n ∈ children fs (k ++ q)) as Hn by (rewrite Hc; left).
        apply elem_of_children in Hn as [j Hj].
        rewrite <- app_assoc, IH in Hj; [done|].
        rewrite !length_app in *. simpl. lia. }
  specialize (G (S H) []). rewrite app_nil_r in G. apply G. lia.
Qed.


(** ** Copying a directory *)

Section Copy.
Implicit Types (fs : files) (p q k src dst base rest : path) (i : inode).

Lemma descend_dirs fs follow jump rest0 : forall canon rest,
  (forall q, canon `prefix_of` q -> q `prefix_of` canon ++ rest0 -> fs !! q = Some IDir) ->
  rest <> [] ->
  descend fs follow jump canon (rest0 ++ rest)
  = descend fs follow jump (canon ++ rest0) rest.
Proof.
  induction rest0 as [|c rest0 IH]; intros canon rest Hdirs Hrest.
  - by rewrite app_nil_r.
  - cbn [app descend]. rewrite (Hdirs canon); [|done|by eexists].
    replace (canon ++ c :: rest0) with ((canon ++ [c]) ++ rest0) in *
      by (by rewrite <- app_assoc).
    apply IH; [|done]. intros q [r ->] Hq. apply Hdirs; [|done].
    rewrite <- app_assoc. by eexists.
Qed.

(** A path whose existing part is a directory, and that goes on. *)
Lemma resolve_missing fs follow base n rest :
  well_formed fs -> fs !! base = Some IDir -> fs !! (base ++ [n]) = None ->
  resolve max_hops fs follow (base ++ n :: rest)
  = match rest with [] => Absent (base ++ [n]) | _ :: _ => Failed ENOENT end.
Proof.
  intros Hwf Hbase Hn. rewrite resolve_max_hops.
  rewrite (descend_dirs fs follow _ base [] (n :: rest)); [|intros q _ Hq|done].
  - rewrite app_nil_l. cbn [descend]. rewrite Hbase.
    destruct rest; cbn [descend]; by rewrite Hn.
  - destruct (decide (q = base)) as [->|Hne]; [done|].
    by apply (ancestors_are_dirs fs base); [|eexists|..].
Qed.

Lemma Stat_creatable fs dst :
  well_formed fs -> creatable fs dst -> Stat fs dst = inl (PathError ENOENT).
Proof.
  intros Hwf (base & n & rest & -> & Hbase & Hn). unfold Stat, info_of.
  rewrite resolve_missing by done. by destruct rest.
Qed.

Lemma well_formed_insert fs p n i :
  well_formed fs -> fs !! p = Some IDir -> fs !! (p ++ [n]) = None ->
  well_formed (<[p ++ [n] := i]> fs).
Proof.
  intros [Hroot Hwf] Hp Hn. split.
  - rewrite lookup_insert_ne; [done|]. by destruct p.
  - intros q m [j Hj]. destruct (decide (p ++ [n] = q ++ [m])) as [E|E].
    + apply app_inj_tail in E as [-> ->].
      rewrite lookup_insert_ne; [done|]. intros E. apply (f_equal length) in E.
      rewrite length_app in E. simpl in E. lia.
    + rewrite lookup_insert_ne in Hj by done.
      destruct (decide (p ++ [n] = q)) as [<-|E'].
      * rewrite (nothing_under fs (p ++ [n]) [m]) in Hj; [done|by split|by rewrite Hn|done].
      * rewrite lookup_insert_ne by done. apply (Hwf q m). by eexists.
Qed.

Lemma Mkdir_absent fs p n :
  well_formed fs -> fs !! p = Some IDir -> fs !! (p ++ [n]) = None ->
  Mkdir fs (p ++ [n]) = (None, <[p ++ [n] := IDir]> fs).
Proof. intros Hwf Hp Hn. unfold Mkdir. by rewrite resolve_absent. Qed.

Lemma Stat_dir fs p :
  well_formed fs -> fs !! p = Some IDir -> Stat fs p = inr {| ino := p; kind := IDir |}.
Proof.
  intros Hwf Hp. unfold Stat, info_of.
  by rewrite (resolve_found fs true p IDir) by (auto; right; done).
Qed.

(** [MkdirAll] makes the missing directories of a creatable path, and
    nothing else. *)
Lemma mkdirAll_creatable fs base n rest : forall m,
  well_formed fs -> fs !! base = Some IDir -> fs !! (base ++ [n]) = None ->
  (length (base ++ n :: rest) <= m)%nat ->
  exists fs',
    mkdirAll m fs (base ++ n :: rest) = (None, fs')
    /\ well_formed fs'
    /\ forall k, fs' !! k = if decide (k `prefix_of` base ++ n :: rest /\ ~ k `prefix_of` base)
                            then Some IDir else fs !! k.
Proof.
  induction rest as [|x rest IH] using rev_ind; intros m Hwf Hbase Hn Hm.
  - destruct m as [|m]; [rewrite length_app in Hm; simpl in Hm; lia|].
    cbn [mkdirAll]. unfold Stat at 1, info_of. rewrite resolve_absent by done.
    rewrite removelast_last.
    assert (Hparent : (match base with
                       | [] => (None, fs)
                       | _ :: _ => mkdirAll m fs base
                       end) = (None, fs)).
    { destruct base as [|b base']; [done|].
      destruct m; cbn [mkdirAll]; by rewrite (Stat_dir fs (b :: base')). }
    rewrite Hparent, Mkdir_absent by done.
    exists (<[base ++ [n] := IDir]> fs). split_and!; [done|by apply well_formed_insert|].
    intros k. destruct (decide (k = base ++ [n])) as [->|Hk].
    + rewrite lookup_insert_eq, decide_True; [done|]. split; [done|apply prefix_snoc_not].
    + rewrite lookup_insert_ne by done.
      destruct (decide (k `prefix_of` base ++ [n] /\ ~ k `prefix_of` base))
        as [[[r Hr] Hnb]|_]; [|done].
      destruct r as [|y r _] using rev_ind; [rewrite app_nil_r in Hr; congruence|].
      rewrite app_assoc in Hr. apply app_inj_tail in Hr as [-> ->].
      destruct Hnb. by eexists.
  - destruct m as [|m]; [rewrite !length_app in Hm; simpl in Hm; lia|].
    replace (base ++ n :: rest ++ [x]) with ((base ++ n :: rest) ++ [x]) in *
      by (by rewrite <- app_assoc).
    destruct (IH m Hwf Hbase Hn) as (fs1 & E1 & Hwf1 & Hfs1).
    { rewrite !length_app in *. simpl in *. lia. }
    assert (Hnew : fs !! ((base ++ n :: rest) ++ [x]) = None).
    { replace ((base ++ n :: rest) ++ [x]) with ((base ++ [n]) ++ (rest ++ [x]))
        by (by rewrite <- !app_assoc).
      apply (nothing_under fs (base ++ [n])); [done|by rewrite Hn|by destruct rest]. }
    cbn [mkdirAll]. rewrite Stat_creatable; [|done|].
    2:{ exists base, n, (rest ++ [x]). by rewrite <- app_assoc. }
    rewrite removelast_last.
    destruct (base ++ n :: rest) as [|b l] eqn:El; [by destruct base|].
    rewrite <- El in *. rewrite E1.
    assert (Hp1 : fs1 !! (base ++ n :: rest) = Some IDir).
    { rewrite Hfs1, decide_True; [done|]. split; [done|].
      intros Hp. apply prefix_length in Hp. rewrite length_app in Hp. simpl in Hp. lia. }
    assert (Hx1 : fs1 !! ((base ++ n :: rest) ++ [x]) = None).
    { rewrite Hfs1, decide_False; [done|]. intros [Hp _]. by apply prefix_snoc_not in Hp. }
    rewrite Mkdir_absent by done.
    exists (<[(base ++ n :: rest) ++ [x] := IDir]> fs1).
    split_and!; [done|by apply well_formed_insert|].
    intros k. destruct (decide (k = (base ++ n :: rest) ++ [x])) as [->|Hk].
    + rewrite lookup_insert_eq, decide_True; [done|]. split; [done|].
      intros Hp. apply prefix_length in Hp. rewrite !length_app in Hp. simpl in Hp. lia.
    + rewrite lookup_insert_ne, Hfs1 by done.
      apply decide_ext. split; intros [Hp Hnb]; (split; [|done]).
      * by apply prefix_app_r.
      * destruct Hp as [r Hr].
        destruct r as [|y r _] using rev_ind; [rewrite app_nil_r in Hr; congruence|].
        rewrite app_assoc in Hr. apply app_inj_tail in Hr as [-> ->]. by eexists.
Qed.

Lemma creatable_absent fs dst q :
  well_formed fs -> creatable fs dst -> fs !! (dst ++ q) = None.
Proof.
  intros Hwf (base & n & rest & -> & Hbase & Hn).
  replace ((base ++ n :: rest) ++ q) with ((base ++ [n]) ++ (rest ++ q))
    by (by rewrite <- !app_assoc).
  destruct (rest ++ q) as [|x r] eqn:E; [by rewrite app_nil_r|].
  apply nothing_under; [done|by rewrite Hn|done].
Qed.

(** A copy destination that does not exist is nowhere above or below
    the source, unless it is inside the source. *)
Lemma apart fs src dst q :
  well_formed fs -> is_Some (fs !! src) -> creatable fs dst ->
  ~ src `prefix_of` dst -> ~ dst `prefix_of` src ++ q.
Proof.
  intros Hwf Hsrc Hdst Hin Hp.
  destruct (prefix_weak_total dst src (src ++ q)) as [[r Hr]|?];
    [done|by apply prefix_app_r|..|done].
  pose proof (creatable_absent fs dst r Hwf Hdst) as Hnone.
  rewrite <- Hr in Hnone. destruct Hsrc. congruence.
Qed.

Lemma ReadDir_dir fs src :
  well_formed fs -> fs !! src = Some IDir ->
  exists entries,
    ReadDir fs src = inr entries
    /\ Forall (fun e => fs !! (src ++ [e.1]) = Some (kind e.2)) entries
    /\ NoDup entries.*1
    /\ forall n, is_Some (fs !! (src ++ [n])) -> n ∈ entries.*1.
Proof.
  intros Hwf Hsrc. unfold ReadDir.
  rewrite (resolve_found fs true src IDir) by (auto; right; done).
  set (f := fun n => match fs !! (src ++ [n]) with
                     | Some i => Some (n, {| ino := src ++ [n]; kind := i |})
                     | None => None
                     end).
  assert (Hnames : forall l, (forall n, n ∈ l -> is_Some (fs !! (src ++ [n]))) ->
                             (omap f l).*1 = l).
  { induction l as [|n l IH]; intros Hl; [done|]. simpl. unfold f at 1.
    destruct (Hl n) as [i Hi]; [left|]. rewrite Hi. simpl. f_equal.
    apply IH. intros m Hm. apply Hl. by right. }
  exists (omap f (children fs src)). split_and!; [done| | |].
  - apply Forall_forall. intros [n info] Hin.
    apply list_elem_of_omap in Hin as (m & _ & Hm). unfold f in Hm.
    destruct (fs !! (src ++ [m])) as [i|] eqn:Hi; [|done]. by injection Hm as <- <-.
  - rewrite Hnames; [apply NoDup_children|]. intros n. by apply elem_of_children.
  - intros n Hn. rewrite Hnames; [by apply elem_of_children|].
    intros m. by apply elem_of_children.
Qed.

(** [CopyFile] of a regular file to a name that is free in an existing
    directory. *)
Lemma CopyFile_new fs sp dp n data :
  well_formed fs -> fs !! sp = Some (IFile data) ->
  fs !! dp = Some IDir -> fs !! (dp ++ [n]) = None ->
  CopyFile sp (dp ++ [n]) fs = Ok None (<[dp ++ [n] := IFile data]> fs).
Proof.
  intros Hwf Hsp Hdp Hn.
  assert (Hs : Stat fs sp = inr {| ino := sp; kind := IFile data |}).
  { unfold Stat, info_of. by rewrite (resolve_found fs true sp (IFile data))
      by (auto; right; done). }
  assert (Hd : Stat fs (dp ++ [n]) = inl (PathError ENOENT)).
  { unfold Stat, info_of. by rewrite resolve_absent. }
  unfold CopyFile, mbind, FSM_bind, read. rewrite Hs. cbn [IsRegular kind negb].
  rewrite Hd. cbn [IsNotExist negb].
  unfold copyFileContents, update, Open. rewrite Hs, resolve_absent by done.
  cbn [ino]. rewrite lookup_insert_ne by (intros E; congruence).
  rewrite Hsp. by rewrite insert_insert_eq.
Qed.

Lemma copy_of_nothing fs src n q :
  well_formed fs ->
  (fs !! (src ++ [n]) = None \/ exists t, fs !! (src ++ [n]) = Some (ISymlink t)) ->
  copy_of fs src (n :: q) = None.
Proof.
  intros Hwf Hn. unfold copy_of.
  destruct q as [|m q].
  - by destruct Hn as [->|[t ->]].
  - replace (src ++ n :: m :: q) with ((src ++ [n]) ++ m :: q) by (by rewrite <- app_assoc).
    rewrite nothing_under; [done|done| |done]. by destruct Hn as [->|[t ->]].
Qed.

Lemma copy_of_file fs src n q data :
  well_formed fs -> fs !! (src ++ [n]) = Some (IFile data) ->
  copy_of fs src (n :: q) = match q with [] => Some (IFile data) | _ :: _ => None end.
Proof.
  intros Hwf Hn. unfold copy_of. destruct q as [|m q]; [by rewrite Hn|].
  replace (src ++ n :: m :: q) with ((src ++ [n]) ++ m :: q) by (by rewrite <- app_assoc).
  rewrite nothing_under; [done|done|by rewrite Hn|done].
Qed.

Lemma snoc_prefix_cons dst n m q : dst ++ [n] `prefix_of` dst ++ m :: q -> n = m.
Proof.
  intros [r Hr]. rewrite <- app_assoc in Hr. apply app_inv_head in Hr.
  by injection Hr as ->.
Qed.

Lemma snoc_prefix_snoc src dst n : src ++ [n] `prefix_of` dst ++ [n] -> src `prefix_of` dst.
Proof.
  intros [r Hr]. destruct r as [|y r _] using rev_ind.
  - rewrite app_nil_r in Hr. by apply app_inj_tail in Hr as [-> _].
  - rewrite app_assoc in Hr. apply app_inj_tail in Hr as [-> _].
    rewrite <- app_assoc. by eexists.
Qed.

Lemma prefix_snoc_inv k dst n :
  k `prefix_of` dst ++ [n] -> k = dst ++ [n] \/ k `prefix_of` dst.
Proof.
  intros [r Hr]. destruct r as [|y r _] using rev_ind.
  - left. by rewrite app_nil_r in Hr.
  - right. rewrite app_assoc in Hr. apply app_inj_tail in Hr as [-> _]. by eexists.
Qed.

(** The loop of [CopyDir] over the entries of [src].  [fs0] is the tree
    before the copy, [copy_dir] the recursive call. *)
Lemma copy_entries_copies copy_dir fs0 src dst :
  well_formed fs0 -> copyable fs0 src ->
  (forall q, ~ dst `prefix_of` src ++ q) ->
  (forall n fs,
      fs0 !! (src ++ [n]) = Some IDir -> well_formed fs ->
      (forall q, fs !! (src ++ q) = fs0 !! (src ++ q)) ->
      fs !! dst = Some IDir -> fs !! (dst ++ [n]) = None ->
      exists fs',
        copy_dir (src ++ [n]) (dst ++ [n]) fs = Ok None fs'
        /\ well_formed fs'
        /\ (forall k, ~ dst ++ [n] `prefix_of` k -> fs' !! k = fs !! k)
        /\ (forall q, fs' !! (dst ++ n :: q) = copy_of fs0 src (n :: q))) ->
  forall entries fs,
    Forall (fun e => fs0 !! (src ++ [e.1]) = Some (kind e.2)) entries ->
    NoDup entries.*1 ->
    well_formed fs -> fs !! dst = Some IDir ->
    (forall q, fs !! (src ++ q) = fs0 !! (src ++ q)) ->
    (forall n q, n ∈ entries.*1 -> fs !! (dst ++ n :: q) = None) ->
    exists fs',
      copy_entries_tree copy_dir src dst entries fs = Ok None fs'
      /\ well_formed fs'
      /\ (forall k, ~ dst `prefix_of` k -> fs' !! k = fs !! k)
      /\ fs' !! dst = Some IDir
      /\ (forall n q, fs' !! (dst ++ n :: q)
                      = if decide (n ∈ entries.*1) then copy_of fs0 src (n :: q)
                        else fs !! (dst ++ n :: q)).
Proof.
  intros Hwf0 Hcopyable Hapart Hrec entries.
  induction entries as [|[name info] rest IH];
    intros fs Hkinds Hnodup Hwf Hdst Hsrc Hfree.
  - exists fs. split_and!; [done..|]. intros n q. rewrite decide_False; [done|].
    apply not_elem_of_nil.
  - apply Forall_cons in Hkinds as [Hkind Hkinds]. cbn [fst snd] in Hkind.
    cbn [fmap list_fmap fst] in Hnodup. apply NoDup_cons in Hnodup as [Hname Hnodup].
    assert (Hhead : exists fs1,
      copy_entries_tree copy_dir src dst ((name, info) :: rest) fs
      = copy_entries_tree copy_dir src dst rest fs1
      /\ well_formed fs1
      /\ (forall k, ~ dst ++ [name] `prefix_of` k -> fs1 !! k = fs !! k)
      /\ (forall q, fs1 !! (dst ++ name :: q) = copy_of fs0 src (name :: q))).
    { cbn [copy_entries_tree]. unfold IsDir, IsSymlink.
      destruct (kind info) as [data| |t|] eqn:Hk.
      - unfold mbind, FSM_bind.
        rewrite (CopyFile_new fs (src ++ [name]) dst name data);
          [|done|by rewrite Hsrc|done|by apply Hfree; left].
        eexists. split_and!; [done| | |].
        + apply well_formed_insert; [done..|]. apply (Hfree name []). left.
        + intros k Hk'. apply lookup_insert_ne. intros <-. by destruct Hk'.
        + intros q. rewrite (copy_of_file fs0 src name q data) by done.
          destruct q as [|m q]; [by rewrite lookup_insert_eq|].
          rewrite lookup_insert_ne; [apply Hfree; left|].
          intros E. apply (f_equal length) in E. rewrite !length_app in E. simpl in E. lia.
      - destruct (Hrec name fs) as (fs1 & E1 & Hwf1 & Hfr1 & Hcp1);
          [done|done|done|done|by apply (Hfree name []); left|].
        unfold mbind, FSM_bind. rewrite E1. by exists fs1.
      - exists fs. split_and!; [done..|]. intros q.
        rewrite copy_of_nothing; [apply Hfree; left|done|right; by eexists].
      - by destruct (Hcopyable [name]). }
    destruct Hhead as (fs1 & -> & Hwf1 & Hfr1 & Hcp1).
    destruct (IH fs1) as (fs2 & E2 & Hwf2 & Hfr2 & Hdst2 & Hcp2); [done|done|done| | | |].
    + rewrite Hfr1; [done|]. apply prefix_snoc_not.
    + intros q. rewrite Hfr1; [done|]. intros Hp. apply (Hapart q).
      by apply prefix_app_l in Hp.
    + intros n q Hn. rewrite Hfr1; [apply Hfree; by right|].
      intros Hp. apply snoc_prefix_cons in Hp. congruence.
    + exists fs2. split_and!; [done|done| |done|].
      * intros k Hk. rewrite Hfr2, Hfr1; [done| |done].
        intros Hp. apply Hk. by apply prefix_app_l in Hp.
      * intros n q. rewrite Hcp2. cbn [fmap list_fmap fst].
        destruct (decide (n = name)) as [->|Hne].
        -- rewrite decide_False by done. rewrite decide_True by left. apply Hcp1.
        -- rewrite Hfr1 by (intros Hp; apply snoc_prefix_cons in Hp; congruence).
           apply decide_ext. rewrite elem_of_cons.
           split; [by right|by intros [?|?]].
Qed.

Lemma MkdirAll_creatable fs dst :
  well_formed fs -> creatable fs dst ->
  exists fs1,
    MkdirAll fs dst = (None, fs1)
    /\ well_formed fs1
    /\ fs1 !! dst = Some IDir
    /\ (forall q, q <> [] -> fs1 !! (dst ++ q) = None)
    /\ (forall k, ~ k `prefix_of` dst -> fs1 !! k = fs !! k)
    /\ (forall k, k `prefix_of` dst -> fs1 !! k = Some IDir).
Proof.
  intros Hwf Hc. pose proof Hc as (base & n & rest & -> & Hbase & Hn).
  destruct (mkdirAll_creatable fs base n rest (length (base ++ n :: rest)))
    as (fs1 & E & Hwf1 & Hfs1); [done..|].
  exists fs1. split_and!; [done|done| | | |].
  - rewrite Hfs1, decide_True; [done|]. split; [done|].
    intros Hp. apply prefix_length in Hp. rewrite length_app in Hp. simpl in Hp. lia.
  - intros q Hq. rewrite Hfs1, decide_False.
    + by apply creatable_absent.
    + intros [Hp _]. apply prefix_length in Hp. rewrite length_app in Hp.
      destruct q; [done|simpl in Hp; lia].
  - intros k Hk. rewrite Hfs1, decide_False; [done|]. by intros [? _].
  - intros k Hk. rewrite Hfs1. case_decide as Hd; [done|].
    destruct (decide (k `prefix_of` base)) as [Hb|Hnb]; [|by destruct Hd].
    destruct (decide (k = base)) as [->|Hne]; [done|].
    by apply (ancestors_are_dirs fs base); [|eexists|..].
Qed.

(** The tree part of [CopyDir], to a destination that can be made and is
    not inside the source, given fuel for the depth of the source. *)
Lemma copy_dir_tree_copies fuel : forall src dst fs,
  well_formed fs -> fs !! src = Some IDir -> creatable fs dst ->
  ~ src `prefix_of` dst -> copyable fs src ->
  (forall q, is_Some (fs !! (src ++ q)) -> (length q < fuel)%nat) ->
  exists fs',
    copy_dir_tree fuel src dst fs = Ok None fs'
    /\ well_formed fs'
    /\ (forall k, ~ dst `prefix_of` k -> fs' !! k = (MkdirAll fs dst).2 !! k)
    /\ (forall q, fs' !! (dst ++ q) = copy_of fs src q).
Proof.
  induction fuel as [|fuel IH]; intros src dst fs Hwf Hsrc Hdst Hin Hcopyable Hdepth.
  - specialize (Hdepth []). rewrite app_nil_r in Hdepth.
    assert (0 < 0)%nat by (apply Hdepth; by eexists). lia.
  - pose proof (fun q => apart fs src dst q Hwf ltac:(by eexists) Hdst Hin) as Hapart.
    destruct (MkdirAll_creatable fs dst Hwf Hdst)
      as (fs1 & Emk & Hwf1 & Hdst1 & Hunder1 & Hout1 & Hup1).
    assert (Hsrc1 : forall q, fs1 !! (src ++ q) = fs !! (src ++ q)).
    { intros q. apply Hout1. intros Hp. apply Hin. by apply prefix_app_l in Hp. }
    destruct (ReadDir_dir fs1 src Hwf1) as (entries & Erd & Hkinds & Hnodup & Hall).
    { specialize (Hsrc1 []). by rewrite app_nil_r, Hsrc in Hsrc1. }
    cbn [copy_dir_tree]. unfold mbind, FSM_bind, read, update.
    rewrite (Stat_dir fs src) by done. cbn [IsDir kind negb].
    rewrite (Stat_creatable fs dst) by done. cbn [IsNotExist negb].
    rewrite Emk, Erd.
    destruct (copy_entries_copies (copy_dir_tree fuel) fs src dst Hwf Hcopyable Hapart)
      with (entries := entries) (fs := fs1)
      as (fs' & E & Hwf' & Hfr & Hdst' & Hcp); [| |done|done|done|done| |].
    + intros n fs2 Hn Hwf2 Hsrc2 Hdst2 Hfree2.
      destruct (IH (src ++ [n]) (dst ++ [n]) fs2) as (fs3 & E3 & Hwf3 & Hfr3 & Hcp3).
      * done.
      * by rewrite Hsrc2.
      * by exists dst, n, [].
      * intros Hp. by apply Hin, (snoc_prefix_snoc src dst n).
      * intros q. rewrite <- app_assoc, Hsrc2. apply Hcopyable.
      * intros q Hq. rewrite <- app_assoc, Hsrc2 in Hq. apply Hdepth in Hq.
        simpl in Hq. lia.
      * exists fs3. split_and!; [done|done| |].
        -- intros k Hk. rewrite Hfr3 by done.
           destruct (MkdirAll_creatable fs2 (dst ++ [n]))
             as (fs4 & E4 & _ & _ & _ & Hout4 & Hup4); [done|by exists dst, n, []|].
           rewrite E4. cbn [snd].
           destruct (decide (k `prefix_of` dst ++ [n])) as [Hp|Hp]; [|by apply Hout4].
           rewrite (Hup4 k Hp).
           apply prefix_snoc_inv in Hp as [->|Hp]; [by destruct Hk|].
           destruct (decide (k = dst)) as [->|Hne]; [done|].
           symmetry. by apply (ancestors_are_dirs fs2 dst); [|eexists|..].
        -- intros q. replace (dst ++ n :: q) with ((dst ++ [n]) ++ q)
             by (by rewrite <- app_assoc).
           rewrite Hcp3. unfold copy_of. by rewrite <- !app_assoc, Hsrc2.
    + apply Forall_impl with (1 := Hkinds). intros e He. by rewrite <- Hsrc1.
    + intros n q _. apply Hunder1. done.
    + rewrite E. exists fs'. split_and!; [done|done| |].
      * intros k Hk. cbn [snd]. by apply Hfr.
      * intros [|n q].
        -- rewrite app_nil_r, Hdst'. unfold copy_of. by rewrite app_nil_r, Hsrc.
        -- rewrite Hcp. case_decide as Hn; [done|].
           rewrite Hunder1 by done. symmetry. apply copy_of_nothing; [done|left].
           destruct (fs !! (src ++ [n])) as [i|] eqn:Hi; [|done].
           destruct Hn. apply Hall. rewrite Hsrc1. by eexists.
Qed.

Lemma copyable_b_true fs src : copyable_b fs src = true -> copyable fs src.
Proof.
  unfold copyable_b, copyable. intros Hall q Hq. rewrite forallb_forall in Hall.
  specialize (Hall (src ++ q, ISpecial)). cbn [fst snd] in Hall.
  assert (path_after src (src ++ q) = Some q) as E by (by apply path_after_Some).
  rewrite E in Hall. discriminate Hall.
  by apply list_elem_of_In, elem_of_map_to_list.
Qed.

End Copy.

(** *** Permissions *)

Section Access.
Import Permissions.
Implicit Types (ps : permissions) (fs : files) (p src dst : path).

Lemma accessible_b_true ps : accessible_b ps = true -> accessible ps.
Proof.
  unfold accessible_b, accessible. rewrite andb_true_iff, forallb_forall.
  intros [Hu Hall]. split; [by apply bool_decide_eq_true in Hu|].
  intros p m Hm. apply (Hall (p, m)). by apply list_elem_of_In, elem_of_map_to_list.
Qed.

Lemma mode_at_full ps p : accessible ps -> full_access (mode_at ps p) = true.
Proof.
  intros [_ Hall]. unfold mode_at.
  destruct (modes ps !! p) as [m|] eqn:Hm; [by apply (Hall p)|reflexivity].
Qed.

Lemma umask_bit ps (n : Z) :
  accessible ps -> 6 <= n <= 8 -> Z.testbit (umask ps) n = false.
Proof.
  intros [Hu _] Hn.
  assert (E : Z.testbit (Z.land (umask ps) 448) n = false)
    by (rewrite Hu; apply Z.bits_0).
  rewrite Z.land_spec in E.
  assert (n = 6 \/ n = 7 \/ n = 8) as [-> | [-> | ->]] by lia;
    by rewrite andb_true_r in E.
Qed.

Lemma made_with_full ps perm :
  accessible ps -> full_access perm = true -> full_access (made_with ps perm) = true.
Proof.
  intros Hps. unfold full_access, owner_read, owner_write, owner_search, made_with.
  rewrite !andb_true_iff. intros [[Hr Hw] Hx].
  rewrite !Z.land_spec, !Z.lnot_spec by lia.
  rewrite Hr, Hw, Hx, !(umask_bit ps) by (done || lia). done.
Qed.

Lemma accessible_insert ps p m :
  accessible ps -> full_access m = true ->
  accessible {| umask := umask ps; modes := <[p := m]> (modes ps) |}.
Proof.
  intros [Hu Hall] Hm. split; [done|]. cbn [modes]. intros q m' Hq.
  destruct (decide (p = q)) as [->|Hne].
  - rewrite lookup_insert_eq in Hq. by injection Hq as <-.
  - rewrite lookup_insert_ne in Hq by done. by apply (Hall q).
Qed.

Lemma may_create_in_accessible ps p : accessible ps -> may_create_in ps p = true.
Proof.
  intros Hps. pose proof (mode_at_full ps p Hps) as Hfull.
  unfold full_access in Hfull. unfold may_create_in.
  apply andb_true_iff in Hfull as [Hrw Hx]. apply andb_true_iff in Hrw as [_ Hw].
  by rewrite Hw, Hx.
Qed.

Lemma follows_weaken ps ps1 new old :
  (accessible ps -> accessible ps1) -> follows ps1 new old -> follows ps new old.
Proof.
  intros Hacc. unfold follows. destruct new as [[r ps'] fs'| |]; [|done..].
  intros [[E Hkeep]|[E Hdenied]]; [left|right]; split; auto.
Qed.

(** [os.MkdirAll] with a mode does to the tree what it does without,
    unless making a directory is denied. *)
Lemma mkdirAll_follows perm (n : nat) : forall p ps fs,
  (accessible ps -> full_access perm = true) ->
  follows ps (mkdirAll n p perm ps fs) (update (fun fs => FS.mkdirAll n fs p) fs).
Proof.
  assert (Hlast : forall p ps0 ps1 fs1,
    (accessible ps0 -> full_access perm = true) ->
    (accessible ps0 -> accessible ps1) ->
    follows ps0
      (match Mkdir p perm ps1 fs1 with
       | Ok (Some e, ps2) fs2 =>
           match FS.Lstat fs2 p with
           | inr dir => if IsDir dir then Ok (None, ps2) fs2 else Ok (Some e, ps2) fs2
           | inl _ => Ok (Some e, ps2) fs2
           end
       | Ok (None, ps2) fs2 => Ok (None, ps2) fs2
       | Panic e => Panic e
       | OutOfFuel => OutOfFuel
       end)
      (let '(err, fs2) := FS.Mkdir fs1 p in
       match err with
       | Some e =>
           match FS.Lstat fs2 p with
           | inr dir => if IsDir dir then Ok None fs2 else Ok (Some e) fs2
           | inl _ => Ok (Some e) fs2
           end
       | None => Ok None fs2
       end)).
  { intros p ps0 ps1 fs1 Hperm Hacc. unfold Mkdir, FS.Mkdir.
    destruct (resolve max_hops fs1 false p) as [canon i|canon|e] eqn:Hres.
    - destruct (FS.Lstat fs1 p) as [?|dir]; [|destruct (IsDir dir)];
        left; split; auto.
    - destruct (may_create_in ps1 (removelast canon)) eqn:Hmay.
      + left. split; [done|]. intros Hps0.
        apply accessible_insert; [auto|]. apply made_with_full; auto.
      + unfold FS.Lstat, info_of. rewrite Hres. right. split; [done|].
        intros Hps0. rewrite may_create_in_accessible in Hmay by auto. discriminate.
    - destruct (FS.Lstat fs1 p) as [?|dir]; [|destruct (IsDir dir)];
        left; split; auto. }
  induction n as [|n IH]; intros p ps fs Hperm;
    cbn [mkdirAll FS.mkdirAll]; unfold update, mbind, PSM_bind, look;
    (destruct (FS.Stat fs p) as [err|dir];
     [|destruct (IsDir dir); left; split; done]).
  - cbn [ret mret PSM_ret].
    specialize (Hlast p ps ps fs Hperm (fun H => H)).
    destruct (Mkdir p perm ps fs) as [[[e|] ps2] fs2| |];
      destruct (FS.Mkdir fs p) as [[e'|] fs2'];
      try (destruct (FS.Lstat fs2 p) as [?|d]; [|destruct (IsDir d)]);
      try (destruct (FS.Lstat fs2' p) as [?|d']; [|destruct (IsDir d')]);
      exact Hlast.
  - destruct (removelast p) as [|x parent] eqn:Hparent.
    + cbn [ret mret PSM_ret].
      specialize (Hlast p ps ps fs Hperm (fun H => H)).
      destruct (Mkdir p perm ps fs) as [[[e|] ps2] fs2| |];
        destruct (FS.Mkdir fs p) as [[e'|] fs2'];
        try (destruct (FS.Lstat fs2 p) as [?|d]; [|destruct (IsDir d)]);
        try (destruct (FS.Lstat fs2' p) as [?|d']; [|destruct (IsDir d')]);
        exact Hlast.
    + specialize (IH (x :: parent) ps fs Hperm). unfold follows in IH.
      unfold update in IH.
      destruct (mkdirAll n (x :: parent) perm ps fs) as [[r1 ps1] fs1| |];
        destruct (FS.mkdirAll n fs (x :: parent)) as [r1' fs1']; try done.
      destruct IH as [[[= -> ->] Hacc] | [-> Hden]].
      * destruct r1 as [e|]; [left; split; done|].
        specialize (Hlast p ps ps1 fs1 Hperm Hacc). cbn [ret mret PSM_ret].
        destruct (Mkdir p perm ps1 fs1) as [[[e|] ps2] fs2| |];
          destruct (FS.Mkdir fs1 p) as [[e'|] fs2'];
          try (destruct (FS.Lstat fs2 p) as [?|d]; [|destruct (IsDir d)]);
          try (destruct (FS.Lstat fs2' p) as [?|d']; [|destruct (IsDir d')]);
          exact Hlast.
      * right. done.
Qed.

Lemma ReadDir_follows p ps fs :
  exists r, ReadDir p ps fs = Ok (r, ps) fs
            /\ (r = FS.ReadDir fs p \/ (r = inl (PathError EACCES) /\ ~ accessible ps)).
Proof.
  unfold ReadDir, look.
  destruct (resolve max_hops fs true p) as [canon [| | |]|canon|e] eqn:Hres;
    try (eexists; split; [reflexivity|by left]).
  destruct (owner_read (mode_at ps canon)) eqn:Hread;
    (eexists; split; [reflexivity|]); [by left|right].
  split; [done|]. intros Hps. pose proof (mode_at_full ps canon Hps) as Hfull.
  unfold full_access in Hfull. rewrite Hread in Hfull. discriminate.
Qed.

Lemma copyFileContents_follows src dst ps fs :
  follows ps (copyFileContents src dst ps fs) (Filesystem.copyFileContents src dst fs).
Proof.
  unfold copyFileContents, Filesystem.copyFileContents, update.
  destruct (Open fs src) as [err|input]; [left; split; done|].
  destruct (resolve max_hops fs true dst) as [out [data| |t|]|out|e] eqn:Hres.
  - destruct (<[out:=IFile ""]> fs !! ino input) as [[]|]; left; split; done.
  - left; split; done.
  - left; split; done.
  - destruct (fs !! ino input) as [[]|]; left; split; done.
  - destruct (may_create_in ps (removelast out)) eqn:Hmay.
    + destruct (<[out:=IFile ""]> fs !! ino input) as [[]|]; left; split; done.
    + right. split; [done|]. intros Hps.
      rewrite may_create_in_accessible in Hmay by done. discriminate.
  - left; split; done.
Qed.

Lemma CopyFile_follows src dst ps fs :
  follows ps (CopyFile src dst ps fs) (Filesystem.CopyFile src dst fs).
Proof.
  unfold CopyFile, Filesystem.CopyFile, mbind, PSM_bind, FSM_bind, look, read.
  destruct (FS.Stat fs src) as [err|sfi]; [left; split; done|].
  destruct (negb (IsRegular sfi)); [left; split; done|].
  destruct (FS.Stat fs dst) as [err|dfi].
  - destruct (negb (IsNotExist err)); [left; split; done|].
    apply copyFileContents_follows.
  - destruct (negb (IsRegular dfi)); [left; split; done|].
    destruct (SameFile sfi dfi); [left; split; done|].
    apply copyFileContents_follows.
Qed.

Lemma follows_bind ps new old (k : PSM (option error)) (k0 : FSM (option error)) :
  follows ps (new ps) old ->
  (forall ps1 fs1, follows ps1 (k ps1 fs1) (k0 fs1)) ->
  follows ps
    (match new ps with
     | Ok (Some e, ps1) fs1 => Ok (Some e, ps1) fs1
     | Ok (None, ps1) fs1 => k ps1 fs1
     | Panic e => Panic e
     | OutOfFuel => OutOfFuel
     end)
    (match old with
     | Ok (Some e) fs1 => Ok (Some e) fs1
     | Ok None fs1 => k0 fs1
     | Panic e => Panic e
     | OutOfFuel => OutOfFuel
     end).
Proof.
  intros Hfirst Hrest. unfold follows in Hfirst.
  destruct (new ps) as [[r ps1] fs1| |]; [|by subst old..].
  destruct Hfirst as [[-> Hacc] | [-> Hden]]; [|by right].
  destruct r as [e|]; [by left|].
  by apply (follows_weaken ps ps1).
Qed.

Lemma copy_entries_follows copy_dir copy_dir0 src dst :
  (forall s d ps fs, follows ps (copy_dir s d ps fs) (copy_dir0 s d fs)) ->
  forall entries ps fs,
    follows ps (copy_entries copy_dir src dst entries ps fs)
      (copy_entries_tree copy_dir0 src dst entries fs).
Proof.
  intros Hrec. induction entries as [|[name entry] rest IH]; intros ps fs.
  - left. split; done.
  - cbn [copy_entries copy_entries_tree].
    destruct (IsDir entry).
    + unfold mbind, PSM_bind, FSM_bind.
      pose proof (follows_bind ps (fun ps => copy_dir (src ++ [name]) (dst ++ [name]) ps fs)
                    (copy_dir0 (src ++ [name]) (dst ++ [name]) fs)
                    (copy_entries copy_dir src dst rest)
                    (copy_entries_tree copy_dir0 src dst rest) (Hrec _ _ ps fs) IH) as H.
      cbn beta in H.
      destruct (copy_dir (src ++ [name]) (dst ++ [name]) ps fs) as [[[e|] ps1] fs1| |];
        destruct (copy_dir0 (src ++ [name]) (dst ++ [name]) fs) as [[e'|] fs1'| |];
        exact H.
    + destruct (IsSymlink entry); [apply IH|].
      unfold mbind, PSM_bind, FSM_bind.
      pose proof (follows_bind ps (fun ps => CopyFile (src ++ [name]) (dst ++ [name]) ps fs)
                    (Filesystem.CopyFile (src ++ [name]) (dst ++ [name]) fs)
                    (copy_entries copy_dir src dst rest)
                    (copy_entries_tree copy_dir0 src dst rest)
                    (CopyFile_follows _ _ ps fs) IH) as H.
      cbn beta in H.
      destruct (CopyFile (src ++ [name]) (dst ++ [name]) ps fs) as [[[e|] ps1] fs1| |];
        destruct (Filesystem.CopyFile (src ++ [name]) (dst ++ [name]) fs)
          as [[e'|] fs1'| |];
        exact H.
Qed.

(** [CopyDir] does to the tree what its tree part does, unless a
    permission is denied on the way. *)
Lemma CopyDir_follows (fuel : nat) : forall src dst ps fs,
  follows ps (CopyDir fuel src dst ps fs) (copy_dir_tree fuel src dst fs).
Proof.
  induction fuel as [|fuel IH]; intros src dst ps fs; [done|].
  cbn [CopyDir copy_dir_tree].
  unfold mbind, PSM_bind, FSM_bind, Stat, look, read.
  destruct (FS.Stat fs src) as [err|si]; [left; split; done|].
  destruct (negb (IsDir si)); [left; split; done|].
  destruct (FS.Stat fs dst) as [err|di]; [|left; split; done].
  destruct (negb (IsNotExist err)); [left; split; done|].
  pose proof (mkdirAll_follows (mode_at ps (ino si)) (length dst) dst ps fs
                (fun Hps => mode_at_full ps (ino si) Hps)) as Hmk.
  unfold MkdirAll, FS.MkdirAll, update in *. unfold follows in Hmk.
  destruct (mkdirAll (length dst) dst (mode_at ps (ino si)) ps fs) as [[r1 ps1] fs1| |];
    destruct (FS.mkdirAll (length dst) fs dst) as [r1' fs1']; try done.
  destruct Hmk as [[[= -> ->] Hacc] | [-> Hden]]; [|by right].
  destruct r1 as [e|]; [left; split; done|].
  destruct (ReadDir_follows src ps1 fs1) as (r & -> & Hr).
  destruct Hr as [-> | [-> Hden]].
  - destruct (FS.ReadDir fs1 src) as [err1|entries]; [left; split; done|].
    apply (follows_weaken ps ps1); [done|].
    by apply copy_entries_follows.
  - right. split; [done|]. auto.
Qed.

(** With nothing denied, [CopyDir] is its tree part. *)
Lemma CopyDir_granted (fuel : nat) src dst ps fs :
  accessible ps ->
  exists ps', accessible ps'
              /\ CopyDir fuel src dst ps fs = lift ps' (copy_dir_tree fuel src dst fs).
Proof.
  intros Hps. pose proof (CopyDir_follows fuel src dst ps fs) as H. unfold follows in H.
  destruct (CopyDir fuel src dst ps fs) as [[r ps'] fs'|e|].
  - destruct H as [[-> Hacc] | [_ Hden]]; [|done]. exists ps'. split; [auto|done].
  - rewrite H. by exists ps.
  - rewrite H. by exists ps.
Qed.

(** A copy that [CopyDir] made is the copy that its tree part makes. *)
Lemma CopyDir_agrees (fuel : nat) src dst ps ps' fs fs' :
  CopyDir fuel src dst ps fs = Ok (None, ps') fs' ->
  copy_dir_tree fuel src dst fs = Ok None fs'.
Proof.
  intros E. pose proof (CopyDir_follows fuel src dst ps fs) as H.
  rewrite E in H. by destruct H as [[-> _] | [? _]].
Qed.

End Access.

(** A directory copied into itself is copied again and again: the copy
    finds the directory it has just made among the entries to copy. *)
Lemma copy_dir_tree_into_itself (fuel : nat) : forall fs p n,
  well_formed fs -> fs !! p = Some IDir -> (forall m, fs !! (p ++ [m]) = None) ->
  copy_dir_tree fuel p (p ++ [n]) fs = OutOfFuel.
Proof.
  induction fuel as [|fuel IH]; intros fs p n Hwf Hp Hempty; [done|].
  assert (Hdst : creatable fs (p ++ [n])) by (by exists p, n, []).
  destruct (MkdirAll_creatable fs (p ++ [n]) Hwf Hdst)
    as (fs1 & Emk & Hwf1 & Hdst1 & Hunder1 & Hout1 & Hup1).
  assert (Hp1 : fs1 !! p = Some IDir) by (apply Hup1; by apply prefix_app_r).
  destruct (ReadDir_dir fs1 p Hwf1 Hp1) as (entries & Erd & Hkinds & Hnodup & Hall).
  cbn [copy_dir_tree]. unfold mbind, FSM_bind, read, update.
  rewrite (Stat_dir fs p) by done. cbn [IsDir kind negb].
  rewrite (Stat_creatable fs (p ++ [n])) by done. cbn [IsNotExist negb].
  rewrite Emk, Erd.
  assert (Hnames : forall e, e ∈ entries -> e.1 = n /\ kind e.2 = IDir).
  { intros e He. rewrite Forall_forall in Hkinds. specialize (Hkinds e He).
    destruct (decide (e.1 = n)) as [Heq|Hne].
    - split; [done|]. rewrite Heq, Hdst1 in Hkinds. by injection Hkinds.
    - rewrite Hout1, Hempty in Hkinds; [done|].
      intros Hpre. apply Hne. by apply (snoc_prefix_cons p e.1 n []). }
  assert (Hn : n ∈ entries.*1) by (apply Hall; by rewrite Hdst1).
  destruct entries as [|[n1 e1] [|[n2 e2] rest]].
  - by apply elem_of_nil in Hn.
  - destruct (Hnames (n1, e1)) as [Hn1 Hk1]; [left|]. cbn [fst snd] in *. subst n1.
    cbn [copy_entries_tree]. unfold IsDir. rewrite Hk1.
    unfold mbind, FSM_bind.
    rewrite (IH fs1 (p ++ [n]) n); [done|done|done|].
    intros m. by apply Hunder1.
  - destruct (Hnames (n1, e1)) as [Hn1 _]; [left|].
    destruct (Hnames (n2, e2)) as [Hn2 _]; [right; left|].
    cbn [fst snd] in *. subst n1 n2. cbn in Hnodup.
    apply NoDup_cons in Hnodup as [Hnot _]. destruct Hnot. left.
Qed.

(** C6, as the code has it.  The checks of [CopyDir] come in order, and a
    failed check returns its error and leaves everything as it is: the
    error of [Stat] when the source cannot be examined, "source is not a
    directory" for a source that is not one, and "destination already
    exists" when the source is a directory and the destination exists.
    When the source is a directory of regular files, directories and
    symbolic links, the destination can be made and is not inside the
    source, and no directory denies its owner reading, writing or
    searching, [CopyDir] returns without error; below the destination
    there is then what there is below the source, the symbolic links left
    out, and the rest of the tree is as [MkdirAll] left it. *)
Theorem CopyDir_checks_then_copies
        (ps : Permissions.permissions) (fs : files) (src dst : path) (fuel : nat) :
  (forall e, Stat fs src = inl e ->
             Permissions.CopyDir (S fuel) src dst ps fs = Ok (Some e, ps) fs)
  /\ (forall si, Stat fs src = inr si -> IsDir si = false ->
        Permissions.CopyDir (S fuel) src dst ps fs
        = Ok (Some (ErrorString "source is not a directory"), ps) fs)
  /\ (forall si di, Stat fs src = inr si -> IsDir si = true -> Stat fs dst = inr di ->
        Permissions.CopyDir (S fuel) src dst ps fs
        = Ok (Some (ErrorString "destination already exists"), ps) fs)
  /\ (well_formed fs -> fs !! src = Some IDir -> creatable fs dst ->
      ~ src `prefix_of` dst -> copyable fs src -> Permissions.accessible ps ->
      (height fs <= fuel)%nat ->
      exists fs' ps',
        Permissions.CopyDir (S fuel) src dst ps fs = Ok (None, ps') fs'
        /\ (forall q, fs' !! (dst ++ q) = copy_of fs src q)
        /\ (forall k, ~ dst `prefix_of` k ->
                      fs' !! k = if decide (k `prefix_of` dst) then Some IDir
                                 else fs !! k)).
Proof.
  split_and!.
  - intros e He. cbn [Permissions.CopyDir].
    unfold mbind, Permissions.PSM_bind, Permissions.Stat, Permissions.look.
    by rewrite He.
  - intros si Hsi Hdir. cbn [Permissions.CopyDir].
    unfold mbind, Permissions.PSM_bind, Permissions.Stat, Permissions.look.
    by rewrite Hsi, Hdir.
  - intros si di Hsi Hdir Hdi. cbn [Permissions.CopyDir].
    unfold mbind, Permissions.PSM_bind, Permissions.Stat, Permissions.look.
    rewrite Hsi, Hdir. cbn [negb]. by rewrite Hdi.
  - intros Hwf Hsrc Hdst Hin Hcopyable Hps Hfuel.
    destruct (copy_dir_tree_copies (S fuel) src dst fs) as (fs' & E & _ & Hfr & Hcp);
      [done..| |].
    { intros q Hq. apply height_le_height in Hq. rewrite length_app in Hq. lia. }
    destruct (CopyDir_granted (S fuel) src dst ps fs Hps) as (ps' & _ & Enew).
    rewrite E in Enew. exists fs', ps'. split_and!; [done|done|].
    intros k Hk. rewrite (Hfr k Hk).
    destruct (MkdirAll_creatable fs dst) as (fs1 & -> & _ & _ & _ & Hout & Hup);
      [done..|]. cbn [snd].
    case_decide as Hp; [by apply Hup|by apply Hout].
Qed.

Lemma CopyDir_checks_then_copies_witness :
  Permissions.CopyDir 11 ["nowhere"] ["n"] owner shelves
  = Ok (Some (PathError ENOENT), owner) shelves
  /\ Permissions.CopyDir 11 ["z"] ["n"] owner shelves
     = Ok (Some (ErrorString "source is not a directory"), owner) shelves
  /\ Permissions.CopyDir 11 ["a"] ["b"] owner shelves
     = Ok (Some (ErrorString "destination already exists"), owner) shelves
  /\ exists fs' ps',
      Permissions.CopyDir 11 ["a"] ["n"; "m"] owner shelves = Ok (None, ps') fs'
      /\ (forall q, fs' !! (["n"; "m"] ++ q) = copy_of shelves ["a"] q)
      /\ (forall k, ~ ["n"; "m"] `prefix_of` k ->
                    fs' !! k = if decide (k `prefix_of` ["n"; "m"]) then Some IDir
                               else shelves !! k).
Proof.
  split_and!.
  - by apply (proj1 (CopyDir_checks_then_copies owner shelves ["nowhere"] ["n"] 10)).
  - by apply (proj1 (proj2 (CopyDir_checks_then_copies owner shelves ["z"] ["n"] 10))
                {| ino := ["z"]; kind := IFile "zz" |}).
  - by apply (proj1 (proj2 (proj2 (CopyDir_checks_then_copies owner shelves
                                     ["a"] ["b"] 10)))
                {| ino := ["a"]; kind := IDir |} {| ino := ["b"]; kind := IDir |}).
  - apply (proj2 (proj2 (proj2 (CopyDir_checks_then_copies owner shelves
                                  ["a"] ["n"; "m"] 10)))).
    + apply well_formed_b_true. by vm_compute.
    + by vm_compute.
    + exists [], "n", ["m"]. by vm_compute.
    + intros [r Hr]. discriminate Hr.
    + apply copyable_b_true. by vm_compute.
    + apply accessible_b_true. by vm_compute.
    + vm_compute. lia.
Defined.

(** Where the sentences of C6 fail.  With a source that does not exist
    and a destination that does, the error is that of the source, not
    "destination already exists".  And a source that is a directory with
    a destination that does not exist is not enough for a copy: a named
    pipe below the source stops the copy with the error of [CopyFile]; a
    destination below a regular file cannot be examined; a destination
    inside the source is copied into itself without end; and from a
    source directory that is read-only the destination is made read-only
    and nothing can be put in it. *)
Lemma CopyDir_preconditions_are_not_enough :
  (Stat shelves ["b"] = inr {| ino := ["b"]; kind := IDir |}
   /\ Permissions.CopyDir 11 ["nowhere"] ["b"] owner shelves
      = Ok (Some (PathError ENOENT), owner) shelves
   /\ Permissions.CopyDir 11 ["nowhere"] ["b"] owner shelves
      <> Ok (Some (ErrorString "destination already exists"), owner) shelves)
  /\ (DirectoryExists piped ["a"] = true
      /\ Stat piped ["n"] = inl (PathError ENOENT)
      /\ Permissions.returned (Permissions.CopyDir 11 ["a"] ["n"] owner piped)
         = Some (Some (ErrorF "CopyFile: non-regular source file %s (%q)" ["p"])))
  /\ (DirectoryExists shelves ["a"] = true
      /\ Permissions.CopyDir 11 ["a"] ["z"; "n"] owner shelves
         = Ok (Some (PathError ENOTDIR), owner) shelves)
  /\ (DirectoryExists lonely ["a"] = true
      /\ Stat lonely ["a"; "b"] = inl (PathError ENOENT)
      /\ forall fuel, Permissions.CopyDir fuel ["a"] ["a"; "b"] owner lonely = OutOfFuel)
  /\ (DirectoryExists shelves ["a"] = true
      /\ Stat shelves ["n"] = inl (PathError ENOENT)
      /\ Permissions.returned (Permissions.CopyDir 11 ["a"] ["n"] readonly shelves)
         = Some (Some (PathError EACCES))).
Proof.
  assert (E : Permissions.CopyDir 11 ["nowhere"] ["b"] owner shelves
              = Ok (Some (PathError ENOENT), owner) shelves)
    by (vm_compute; reflexivity).
  split; [|split; [|split; [|split]]].
  - split; [vm_compute; reflexivity|]. split; [exact E|]. rewrite E. discriminate.
  - split; [vm_compute; reflexivity|]. split; vm_compute; reflexivity.
  - split; vm_compute; reflexivity.
  - split; [vm_compute; reflexivity|]. split; [vm_compute; reflexivity|].
    intros fuel.
    destruct (CopyDir_granted fuel ["a"] ["a"; "b"] owner lonely) as (ps' & _ & ->).
    { apply accessible_b_true. vm_compute. reflexivity. }
    change ["a"; "b"] with (["a"] ++ ["b"]).
    rewrite (copy_dir_tree_into_itself fuel lonely ["a"] "b"); [done| | |].
    + apply well_formed_b_true. vm_compute. reflexivity.
    + vm_compute. reflexivity.
    + intros m. unfold lonely. cbn [list_to_map foldr fst snd].
      rewrite !lookup_insert_ne by done. apply lookup_empty.
  - split; [vm_compute; reflexivity|]. split; vm_compute; reflexivity.
Qed.


(** * Further properties *)

(** ** More on the string-slice helpers *)

Lemma index_from_spec (a : string) (l : list string) : forall i,
  match index_from i a l with
  | (j, true) =>
      exists n : nat, j = i + Z.of_nat n /\ l !! n = Some a /\ a ∉ take n l
  | (j, false) => j = -1 /\ a ∉ l
  end.
Proof.
  induction l as [|b l IH]; intros i; simpl.
  - split; [done|]. apply not_elem_of_nil.
  - destruct (String.eqb b a) eqn:E.
    + apply String.eqb_eq in E as ->. exists 0%nat.
      split_and!; [lia|done|apply not_elem_of_nil].
    + apply String.eqb_neq in E. specialize (IH (i + 1)).
      destruct (index_from (i + 1) a l) as [j []].
      * destruct IH as (n & -> & Hn & Hbefore). exists (S n).
        split_and!; [lia|done|]. simpl. rewrite not_elem_of_cons. by split.
      * destruct IH as [-> Hnot]. split; [done|]. rewrite not_elem_of_cons. by split.
Qed.

(** X1. [StringInSlice] returns the index of the first element equal to
    [a], and [-1] with [false] exactly when there is none. *)
Theorem StringInSlice_first_index (a : string) (l : list string) :
  match StringInSlice a l with
  | (i, true) =>
      0 <= i /\ l !! Z.to_nat i = Some a /\ (a ∉ take (Z.to_nat i) l)
  | (i, false) => i = -1 /\ (a ∉ l)
  end.
Proof.
  unfold StringInSlice. pose proof (index_from_spec a l 0) as H.
  destruct (index_from 0 a l) as [j []]; [|done].
  destruct H as (n & -> & Hn & Hbefore).
  rewrite Z.add_0_l, Nat2Z.id. split_and!; [lia|done|done].
Qed.

Lemma index_from_ci_spec (ToLower : string -> string) (a : string) (l : list string) :
  forall i,
  match index_from_ci ToLower i a l with
  | (j, true) =>
      exists (n : nat) b,
        j = i + Z.of_nat n /\ l !! n = Some b /\ ToLower b = ToLower a
        /\ Forall (fun c => ToLower c <> ToLower a) (take n l)
  | (j, false) => j = -1 /\ Forall (fun c => ToLower c <> ToLower a) l
  end.
Proof.
  induction l as [|b l IH]; intros i; simpl.
  - split; [done|]. constructor.
  - destruct (String.eqb (ToLower b) (ToLower a)) eqn:E.
    + apply String.eqb_eq in E. exists 0%nat, b.
      split_and!; [lia|done|done|constructor].
    + apply String.eqb_neq in E. specialize (IH (i + 1)).
      destruct (index_from_ci ToLower (i + 1) a l) as [j []].
      * destruct IH as (n & c & -> & Hn & Hc & Hbefore). exists (S n), c.
        split_and!; [lia|done|done|]. simpl. by constructor.
      * destruct IH as [-> Hnot]. split; [done|]. by constructor.
Qed.

(** X2. Whatever [strings.ToLower] maps a string to,
    [StringInSliceCaseInsensitive] returns the index of the first
    element whose lower case is that of [a], and [-1] with [false]
    exactly when there is none.  It finds whatever [StringInSlice]
    finds, at the same index or before. *)
Theorem StringInSliceCaseInsensitive_first_index
        (ToLower : string -> string) (a : string) (l : list string) :
  match StringInSliceCaseInsensitive ToLower a l with
  | (i, true) =>
      0 <= i
      /\ (exists b, l !! Z.to_nat i = Some b /\ ToLower b = ToLower a)
      /\ Forall (fun c => ToLower c <> ToLower a) (take (Z.to_nat i) l)
      /\ (forall k, StringInSlice a l = (k, true) -> i <= k)
  | (i, false) =>
      i = -1
      /\ Forall (fun c => ToLower c <> ToLower a) l
      /\ StringInSlice a l = (-1, false)
  end.
Proof.
  unfold StringInSliceCaseInsensitive, StringInSlice.
  pose proof (index_from_ci_spec ToLower a l 0) as H.
  pose proof (index_from_spec a l 0) as H'.
  destruct (index_from_ci ToLower 0 a l) as [j []].
  - destruct H as (n & b & -> & Hn & Hb & Hbefore).
    rewrite Z.add_0_l, Nat2Z.id. split_and!; [lia|by exists b|done|].
    intros k Hk. rewrite Hk in H'. destruct H' as (m & -> & Hm & _).
    destruct (decide (m < n)%nat) as [Hlt|]; [|lia].
    rewrite Forall_forall in Hbefore. destruct (Hbefore a); [|done].
    apply list_elem_of_lookup. exists m. by rewrite lookup_take_lt.
  - destruct H as [-> Hnone]. split_and!; [done|done|].
    destruct (index_from 0 a l) as [k []]; [|by destruct H' as [-> _]].
    destruct H' as (m & _ & Hm & _). rewrite Forall_forall in Hnone.
    destruct (Hnone a); [|done]. apply list_elem_of_lookup. by exists m.
Qed.

Lemma keep_new_complete (l : list string) : forall found x,
  x ∈ l -> x <> "" -> found_at found x = false -> x ∈ keep_new found l.
Proof.
  induction l as [|y l IH]; intros found x Hin Hne Hf; [by apply elem_of_nil in Hin|].
  simpl. destruct (decide (x = y)) as [->|Hxy].
  - rewrite Hf. apply String.eqb_neq in Hne. rewrite Hne. simpl. left.
  - apply elem_of_cons in Hin as [?|Hin]; [done|].
    destruct (negb (found_at found y) && negb (String.eqb y "")).
    + right. apply IH; [done..|].
      rewrite found_at_insert, Hf, bool_decide_false; [done|congruence].
    + by apply IH.
Qed.

(** X3. A string is in the list left by [RemoveDuplicates] exactly when
    it was in the list, is not empty and is not one of the strings to
    clean: nothing else is lost. *)
Theorem RemoveDuplicates_elements (l others : list string) (x : string) :
  x ∈ RemoveDuplicates l others <-> x ∈ l /\ x <> "" /\ (x ∉ others).
Proof.
  rewrite RemoveDuplicates_keep_new. split.
  - intros Hin. apply keep_new_elem in Hin as (Hl & Hf & Hne).
    split_and!; [done..|]. intros Ho. apply found_at_mark_all in Ho. congruence.
  - intros (Hl & Hne & Ho). apply keep_new_complete; [done..|].
    destruct (found_at (mark_all others) x) eqn:Hf; [|done].
    by apply found_at_mark_all in Hf.
Qed.

Lemma keep_new_clean (l : list string) : forall found,
  NoDup l -> Forall (fun x => x <> "" /\ found_at found x = false) l ->
  keep_new found l = l.
Proof.
  induction l as [|y l IH]; intros found Hnd Hall; [done|].
  apply NoDup_cons in Hnd as [Hy Hnd]. apply Forall_cons in Hall as [[Hne Hf] Hall].
  simpl. rewrite Hf. apply String.eqb_neq in Hne. rewrite Hne. simpl. f_equal.
  apply IH; [done|]. rewrite Forall_forall in Hall |- *. intros x Hx.
  destruct (Hall x Hx) as [Hxne Hxf]. split; [done|].
  rewrite found_at_insert, Hxf, bool_decide_false; [done|]. by intros ->.
Qed.

(** X4. A list without duplicates, without empty strings and without
    strings to clean is left as it is, and so [RemoveDuplicates] applied
    a second time changes nothing. *)
Theorem RemoveDuplicates_idempotent (l others : list string) :
  (NoDup l -> Forall (fun x => x <> "" /\ (x ∉ others)) l ->
   RemoveDuplicates l others = l)
  /\ RemoveDuplicates (RemoveDuplicates l others) others = RemoveDuplicates l others.
Proof.
  assert (Hclean : forall l', NoDup l' ->
            Forall (fun x => x <> "" /\ (x ∉ others)) l' ->
            RemoveDuplicates l' others = l').
  { intros l' Hnd Hall. rewrite RemoveDuplicates_keep_new.
    apply keep_new_clean; [done|]. apply Forall_impl with (1 := Hall).
    intros x [Hne Ho]. split; [done|].
    destruct (found_at (mark_all others) x) eqn:Hf; [|done].
    by apply found_at_mark_all in Hf. }
  split; [apply Hclean|]. apply Hclean.
  - rewrite RemoveDuplicates_keep_new. apply keep_new_NoDup.
  - apply Forall_forall. intros x Hx. rewrite RemoveDuplicates_keep_new in Hx.
    apply keep_new_elem in Hx as (_ & Hf & Hne). split; [done|].
    intros Ho. apply found_at_mark_all in Ho. congruence.
Qed.

Lemma RemoveDuplicates_idempotent_witness :
  RemoveDuplicates ["b"; "a"; "c"] ["z"] = ["b"; "a"; "c"].
Proof.
  apply (proj1 (RemoveDuplicates_idempotent ["b"; "a"; "c"] ["z"])).
  - apply (bool_decide_unpack _). by vm_compute.
  - apply (bool_decide_unpack _). by vm_compute.
Defined.

Lemma compact_cells (n : nat) : forall i arr found j,
  (j <= (compact n i arr found j).2)%nat
  /\ length (compact n i arr found j).1 = length arr
  /\ forall k, ((compact n i arr found j).2 <= k)%nat ->
               (compact n i arr found j).1 !! k = arr !! k.
Proof.
  induction n as [|n IH]; intros i arr found j; simpl; [done|].
  destruct (arr !! i) as [x|]; [|done].
  destruct (negb (found_at found x) && negb (String.eqb x "")); [|apply IH].
  destruct (IH (S i) (<[j := x]> arr) (<[x := true]> found) (S j)) as (Hj & Hlen & Hk).
  split_and!; [lia|by rewrite Hlen, length_insert|].
  intros k Hle. rewrite Hk by done. apply list_lookup_insert_ne. lia.
Qed.

(** X5. [RemoveDuplicates] works in the backing array of the slice: the
    array keeps its length, its first cells hold the result, and the
    cells after them are as they were, so that a caller who kept the old
    slice header sees stale elements there. *)
Theorem RemoveDuplicates_in_place (l others : list string) :
  let r := compact (length l) 0 l (mark_all others) 0 in
  length r.1 = length l
  /\ take r.2 r.1 = RemoveDuplicates l others
  /\ r.2 = length (RemoveDuplicates l others)
  /\ forall k, (r.2 <= k)%nat -> r.1 !! k = l !! k.
Proof.
  intros r. destruct (compact_cells (length l) 0 l (mark_all others) 0) as (_ & Hlen & Hk).
  assert (Hr : take r.2 r.1 = RemoveDuplicates l others).
  { unfold RemoveDuplicates. fold r. by destruct r. }
  split_and!; [done|done| |done].
  rewrite <- Hr, length_take. 
  destruct (compact_spec l [] [] (mark_all others) 0%nat 0%nat l) as [junk E]; [done..|].
  fold r in E. rewrite E. simpl. rewrite length_app. lia.
Qed.

(** ** More on the spinner *)

(** X6. [CheckErrors] returns the first error of its arguments that is
    not [nil], and [nil] exactly when they all are. *)
Theorem CheckErrors_first_error (errs : list (option error)) :
  match CheckErrors errs with
  | None => Forall (fun e => e = None) errs
  | Some e =>
      exists n, errs !! n = Some (Some e) /\ Forall (fun e => e = None) (take n errs)
  end.
Proof.
  induction errs as [|[e|] errs IH]; simpl.
  - constructor.
  - exists 0%nat. by split.
  - destruct (CheckErrors errs) as [e|].
    + destruct IH as (n & Hn & Hbefore). exists (S n). split; [done|]. simpl.
      by constructor.
    + by constructor.
Qed.

(** X7. The loop of [SpinWhileThingsHappen] does not return while only
    ticks arrive, and returns the result of the worker as soon as it
    arrives, whatever is sent afterwards. *)
Theorem spin_loop_waits_for_worker (ticks : nat) (r : option error)
        (later : list message) :
  spin_loop (repeat Tick ticks) {| functionDone := false; err := None |} = None
  /\ spin_loop (repeat Tick ticks ++ Finished r :: later)
       {| functionDone := false; err := None |} = Some r.
Proof.
  split.
  - rewrite <- (app_nil_r (repeat Tick ticks)). by rewrite spin_loop_ticks.
  - rewrite spin_loop_ticks by done. destruct r; [done|]. by destruct later.
Qed.

(** ** More on the user-interaction layer *)

Lemma SelectOption_body_error ui options longField errs w v e :
  (SelectOption_body ui options longField errs w).1 = Return (v, Some e) -> v = "".
Proof.
  rewrite SelectOption_body_read. cbn zeta.
  unfold count_error, mbind, IO_bind, mret, IO_ret, Accept, GetInput, Edit, mbind,
    IO_bind, UI.ret, mret, IO_ret.
  repeat first
    [ match goal with
      | |- context [match ?x with _ => _ end] =>
          lazymatch x with
          | context [match _ with _ => _ end] => fail
          | _ => destruct x eqn:?
          end
      end
    | progress cbn [fst snd] ];
    intros [= ]; by subst.
Qed.

(** X8. Whenever [SelectOption] returns an error, the string it returns
    with it is empty. *)
Theorem SelectOption_error_without_value
        (fuel : nat) (ui : UI) (title usage : string) (options : list string)
        (longField : bool) (w w' : World) (v : string) (e : error) :
  SelectOption fuel ui title usage options longField w = (Some (v, Some e), w') ->
  v = "".
Proof.
  unfold SelectOption. generalize (RemoveDuplicates options []) 0%nat.
  intros opts errs. revert errs w.
  induction fuel as [|fuel IH]; intros errs w; cbn [SelectOption_loop]; [done|].
  unfold mbind, IO_bind.
  destruct (SelectOption_body ui opts longField errs w) as [t w1] eqn:Hb.
  destruct t as [[v1 e1]|errs1].
  - intros [= -> -> ->].
    apply (SelectOption_body_error ui opts longField errs w v e). by rewrite Hb.
  - apply IH.
Qed.

Lemma SelectOption_error_without_value_witness :
  SelectOption 11 ansi "Title" "" ["Dune"] false (typing ["a"])
  = (Some ("", Some (ErrorString userAborted)), next_line (typing ["a"]))
  /\ "" = "".
Proof.
  assert (E : SelectOption 11 ansi "Title" "" ["Dune"] false (typing ["a"])
              = (Some ("", Some (ErrorString userAborted)), next_line (typing ["a"])))
    by reflexivity.
  split; [exact E|].
  exact (SelectOption_error_without_value 11 ansi "Title" "" ["Dune"] false
           (typing ["a"]) _ "" _ E).
Defined.

Lemma UpdateValue_body_turns oldValue longField s w :
  match (UpdateValue_body oldValue longField s w).1 with
  | Return (v, Some _) => v = newValue s \/ v = ""
  | Return (_, None) => False
  | Again s' => validChoice s' = true \/ newValue s' = newValue s
  end.
Proof.
  rewrite UpdateValue_body_read. cbn zeta.
  destruct (rerr (stdin w (reads w))); [cbn; auto|].
  destruct (String.eqb (ToLower _) "e").
  - unfold mbind, IO_bind.
    destruct ((if longField then Edit oldValue else GetInput) (next_line w))
      as [[choice [e|]] w1]; [cbn; auto|].
    destruct (Accept "Confirm" w1) as [[|] w2]; cbn; auto.
  - destruct (String.eqb (ToLower _) "k"); [cbn; auto|].
    destruct (10 <? S (errs s))%nat; cbn; auto.
Qed.

(** X9. Whenever [UpdateValue] returns an error, the new value it
    returns with it is empty: the old value is never handed back with an
    error, and neither is a value that was not confirmed. *)
Theorem UpdateValue_error_without_value
        (fuel : nat) (field usage oldValue : string) (longField : bool)
        (w w' : World) (v : string) (e : error) :
  UpdateValue fuel field usage oldValue longField w = (Some (v, Some e), w') ->
  v = "".
Proof.
  unfold UpdateValue.
  assert (G : forall s w,
    (validChoice s = false -> newValue s = "") ->
    UpdateValue_loop fuel oldValue longField s w = (Some (v, Some e), w') -> v = "").
  { induction fuel as [|fuel IH]; intros s w0 Hinv; cbn [UpdateValue_loop];
      destruct (validChoice s) eqn:Hv; try done.
    unfold mbind, IO_bind.
    pose proof (UpdateValue_body_turns oldValue longField s w0) as Hturn.
    destruct (UpdateValue_body oldValue longField s w0) as [t w1].
    cbn [fst] in Hturn. destruct t as [[v1 [e1|]]|s1]; [|done|].
    - intros [= -> -> ->]. destruct Hturn as [Ht|Ht]; [|done].
      rewrite Ht. auto.
    - apply IH. intros Hv1. destruct Hturn as [Ht|Ht]; [congruence|].
      rewrite Ht. auto. }
  apply G. done.
Qed.

Lemma UpdateValue_error_without_value_witness :
  UpdateValue 11 "Title" "" "Dune" false (typing [])
  = (Some ("", Some (ErrorString "EOF")), next_line (typing []))
  /\ "" = "".
Proof.
  assert (E : UpdateValue 11 "Title" "" "Dune" false (typing [])
              = (Some ("", Some (ErrorString "EOF")), next_line (typing [])))
    by reflexivity.
  split; [exact E|].
  exact (UpdateValue_error_without_value 11 "Title" "" "Dune" false (typing []) _ "" _ E).
Defined.

Lemma iter_next_line (n : nat) (w : World) :
  Nat.iter n next_line w
  = {| stdin := stdin w; editor := editor w; reads := reads w + n; edits := edits w |}.
Proof.
  induction n as [|n IH].
  - destruct w. cbn. by rewrite Nat.add_0_r.
  - rewrite Nat.iter_succ, IH. unfold next_line. cbn. f_equal. lia.
Qed.

(** X10. [UpdateValue] forgives up to ten choices that are neither edit
    nor keep: after [m <= 10] of them, keep returns the old value,
    trimmed, and no error, having read [m + 1] lines. *)
Theorem UpdateValue_keeps_after_invalid_choices
        (fuel m : nat) (field usage oldValue : string) (longField : bool) (w : World) :
  (m <= 10)%nat -> (m < fuel)%nat ->
  (forall i, (i < m)%nat ->
             rerr (stdin w (reads w + i)) = None
             /\ ToLower (TrimSpace (text (stdin w (reads w + i)))) <> "e"
             /\ ToLower (TrimSpace (text (stdin w (reads w + i)))) <> "k") ->
  rerr (stdin w (reads w + m)) = None ->
  ToLower (TrimSpace (text (stdin w (reads w + m)))) = "k" ->
  UpdateValue fuel field usage oldValue longField w
  = (Some (TrimSpace oldValue, None), Nat.iter (S m) next_line w).
Proof.
  intros Hm Hfuel Hbad Herr Hkeep. unfold UpdateValue.
  assert (G : forall m fuel s w,
    validChoice s = false -> (errs s + m <= 10)%nat -> (m < fuel)%nat ->
    (forall i, (i < m)%nat ->
               rerr (stdin w (reads w + i)) = None
               /\ ToLower (TrimSpace (text (stdin w (reads w + i)))) <> "e"
               /\ ToLower (TrimSpace (text (stdin w (reads w + i)))) <> "k") ->
    rerr (stdin w (reads w + m)) = None ->
    ToLower (TrimSpace (text (stdin w (reads w + m)))) = "k" ->
    UpdateValue_loop fuel oldValue longField s w
    = (Some (TrimSpace oldValue, None), Nat.iter (S m) next_line w)).
  { clear. induction m as [|m IH]; intros fuel s w Hv Herrs Hfuel Hbad Herr Hkeep;
      (destruct fuel as [|fuel]; [lia|]); cbn [UpdateValue_loop]; rewrite Hv;
      unfold mbind, IO_bind.
    - rewrite Nat.add_0_r in Herr, Hkeep.
      rewrite UpdateValue_body_read. cbn zeta. rewrite Herr, Hkeep. cbn.
      by rewrite UpdateValue_loop_valid.
    - destruct (Hbad 0%nat) as (He0 & Hne & Hnk); [lia|]. rewrite Nat.add_0_r in *.
      destruct (stdin w (reads w)) as [raw rr] eqn:Hin. cbn [text rerr] in *. subst rr.
      rewrite (UpdateValue_body_invalid oldValue longField s w raw) by done.
      replace (10 <? S (errs s))%nat with false by (symmetry; apply Nat.ltb_ge; lia).
      rewrite (IH fuel _ (next_line w)); [|done|cbn; lia|lia| | |].
      + by rewrite <- Nat.iter_succ_r.
      + intros i Hi. cbn [next_line stdin reads].
        replace (S (reads w) + i)%nat with (reads w + S i)%nat by lia.
        apply Hbad. lia.
      + cbn [next_line stdin reads].
        by replace (S (reads w) + m)%nat with (reads w + S m)%nat by lia.
      + cbn [next_line stdin reads].
        by replace (S (reads w) + m)%nat with (reads w + S m)%nat by lia. }
  apply G; [done|cbn; lia|done..].
Qed.

Lemma UpdateValue_keeps_after_invalid_choices_witness :
  UpdateValue 11 "Title" "" " Dune " false (typing ["x"; ""; "keep"; "K"])
  = (Some ("Dune", None), Nat.iter 4 next_line (typing ["x"; ""; "keep"; "K"])).
Proof.
  apply (UpdateValue_keeps_after_invalid_choices 11 3 "Title" "" " Dune " false
           (typing ["x"; ""; "keep"; "K"])); [lia|lia| |reflexivity|reflexivity].
  intros i Hi. destruct i as [|[|[|i]]]; [by vm_compute..|lia].
Defined.

(** X11. An edit that is confirmed is what [UpdateValue] returns, with
    surrounding white space removed and no error: the new value comes
    from the editor for a long field and from the next line otherwise. *)
Theorem UpdateValue_confirmed_edit
        (fuel : nat) (field usage oldValue : string) (longField : bool)
        (w w1 w2 : World) (c : string) :
  rerr (stdin w (reads w)) = None ->
  ToLower (TrimSpace (text (stdin w (reads w)))) = "e" ->
  (if longField then Edit oldValue else GetInput) (next_line w) = ((c, None), w1) ->
  Accept "Confirm" w1 = (true, w2) ->
  UpdateValue (S fuel) field usage oldValue longField w
  = (Some (TrimSpace c, None), w2).
Proof.
  intros Herr He Hc Hy. unfold UpdateValue. cbn [UpdateValue_loop validChoice].
  unfold mbind at 1, IO_bind at 1.
  rewrite UpdateValue_body_read. cbn zeta. rewrite Herr, He.
  change (("e" =? "e")%string) with true. cbv iota.
  unfold mbind at 1, IO_bind at 1. rewrite Hc.
  unfold mbind at 1, IO_bind at 1. rewrite Hy. cbn [mret IO_ret].
  by rewrite UpdateValue_loop_valid.
Qed.

Lemma UpdateValue_confirmed_edit_witness :
  UpdateValue 1 "Title" "" "Dune" false (typing ["E"; " Dune Messiah "; "yes"])
  = (Some ("Dune Messiah", None),
     Nat.iter 3 next_line (typing ["E"; " Dune Messiah "; "yes"])).
Proof.
  apply (UpdateValue_confirmed_edit 0 "Title" "" "Dune" false
           (typing ["E"; " Dune Messiah "; "yes"])
           (Nat.iter 2 next_line (typing ["E"; " Dune Messiah "; "yes"]))
           (Nat.iter 3 next_line (typing ["E"; " Dune Messiah "; "yes"]))
           "Dune Messiah"); reflexivity.
Defined.

(** [Accept] reads one line. *)
Lemma Accept_world question w : (Accept question w).2 = next_line w.
Proof.
  unfold Accept, GetInput, mbind, IO_bind. by destruct (rerr (stdin w (reads w))).
Qed.

Lemma Accept_read question w :
  Accept question w = (says_yes (stdin w (reads w)), next_line w).
Proof.
  unfold Accept, GetInput, says_yes, mbind, IO_bind.
  by destruct (rerr (stdin w (reads w))).
Qed.

(** A turn of the loop of [SelectOption] leaves what the user types and
    what the editor gives as they are, and moves the positions forward. *)
Lemma SelectOption_body_world ui options longField errs w :
  let w1 := (SelectOption_body ui options longField errs w).2 in
  stdin w1 = stdin w /\ editor w1 = editor w
  /\ (reads w <= reads w1)%nat /\ (edits w <= edits w1)%nat.
Proof.
  cbn zeta. rewrite SelectOption_body_read. cbn zeta.
  destruct (rerr (stdin w (reads w))); [cbn; split_and!; auto; lia|].
  destruct (String.eqb (ToUpper _) "E").
  - unfold mbind at 1 3 5 7, IO_bind at 1 3 5 7.
    assert (Hw : forall w1 edited,
      stdin w1 = stdin w -> editor w1 = editor w ->
      (reads w <= reads w1)%nat -> (edits w <= edits w1)%nat ->
      let r := (confirmed ← Accept ("Confirm: " +:+ edited);
                if (confirmed : bool) then mret (Return (edited, None))
                else mret (count_error errs)) w1 in
      stdin r.2 = stdin w /\ editor r.2 = editor w
      /\ (reads w <= reads r.2)%nat /\ (edits w <= edits r.2)%nat).
    { intros w1 edited Hs He Hr Hed. cbn zeta. unfold mbind, IO_bind.
      rewrite Accept_read.
      destruct (says_yes _); cbn; split_and!; auto; lia. }
    destruct longField.
    + unfold Edit. cbn [next_line stdin editor edits].
      destruct (editor w (edits w) _); [cbn; split_and!; auto; lia|].
      apply Hw; cbn; auto; lia.
    + unfold GetInput. cbn [next_line stdin reads].
      destruct (rerr _); [cbn; split_and!; auto; lia|].
      apply Hw; cbn; auto; lia.
  - repeat case_match; cbn; split_and!; auto; lia.
Qed.

(** Where the value of a turn that returns without error comes from:
    the choice read at the start of the turn, and for an edit the line
    or the editor content that follows it and the confirmation. *)
Lemma SelectOption_body_value ui options longField errs w w1 v :
  SelectOption_body ui options longField errs w = (Return (v, None), w1) ->
  let choice := TrimSpace (text (stdin w (reads w))) in
  rerr (stdin w (reads w)) = None
  /\ ((ToUpper choice = "B" /\ v = "" /\ reads w1 = S (reads w))
      \/ (exists index o,
            Atoi choice = Some index /\ 1 <= index
            /\ options !! Z.to_nat (index - 1) = Some o
            /\ v = unTag ui o /\ reads w1 = S (reads w))
      \/ (longField = false /\ ToUpper choice = "E"
          /\ rerr (stdin w (S (reads w))) = None
          /\ v = TrimSpace (text (stdin w (S (reads w))))
          /\ says_yes (stdin w (S (S (reads w)))) = true
          /\ reads w1 = S (S (S (reads w))))
      \/ (longField = true /\ ToUpper choice = "E"
          /\ (exists c, editor w (edits w) (allVersions_from ui 0 options) = Edited c
                        /\ v = TrimSpace c)
          /\ says_yes (stdin w (S (reads w))) = true
          /\ reads w1 = S (S (reads w)) /\ edits w1 = S (edits w))).
Proof.
  rewrite SelectOption_body_read. cbn zeta.
  destruct (rerr (stdin w (reads w))); [done|].
  intros H. split; [done|]. revert H.
  destruct (String.eqb (ToUpper _) "E") eqn:HE.
  - apply String.eqb_eq in HE. unfold mbind at 1, IO_bind at 1.
    destruct longField.
    + unfold Edit. cbn [next_line stdin editor edits reads].
      destruct (editor w (edits w) _) as [e|c] eqn:Hed; [done|].
      unfold mbind, IO_bind. rewrite Accept_read. cbn [stdin reads].
      destruct (says_yes _) eqn:Hyes; cbn; [|by rewrite count_error_turn; case_match].
      intros [= <- <-]. right. right. right. cbn. split_and!; eauto.
    + unfold GetInput at 1. cbn [next_line stdin reads].
      destruct (rerr (stdin w (S (reads w)))) eqn:Herr; [done|].
      unfold mbind, IO_bind. rewrite Accept_read. cbn [stdin reads next_line].
      destruct (says_yes _) eqn:Hyes; cbn; [|by rewrite count_error_turn; case_match].
      intros [= <- <-]. right. right. left. cbn. split_and!; eauto.
  - destruct (String.eqb (ToUpper _) "A"); [done|].
    destruct (String.eqb (ToUpper _) "B") eqn:HB.
    { apply String.eqb_eq in HB. cbn. intros [= <- <-]. left. by cbn. }
    destruct (Atoi _) as [index|] eqn:Hindex;
      [|by cbn; rewrite count_error_turn; case_match].
    destruct (_ && _) eqn:Hrange; [|by cbn; rewrite count_error_turn; case_match].
    cbn. intros [= <- <-]. right. left.
    apply andb_true_iff in Hrange as [Hlo Hhi].
    apply Z.ltb_lt in Hlo. apply Z.leb_le in Hhi.
    destruct (lookup_lt_is_Some_2 options (Z.to_nat (index - 1))) as [o Ho]; [lia|].
    exists index, o. split_and!; [done|lia|done| |done].
    by rewrite (nth_lookup_Some _ _ _ _ Ho).
Qed.

(** X12. A value that [SelectOption] returns without an error is what
    the last choice read asks for.  For leave blank it is empty; for a
    number it is the option of that number among those left once
    duplicates are removed, without its tag; for edit it is the edit
    that was confirmed: the line typed after the choice for a short
    field, the content the editor gave for the options for a long one,
    without surrounding white space, the next line read being a yes. *)
Theorem SelectOption_value_provenance
        (fuel : nat) (ui : UI) (title usage : string) (options : list string)
        (longField : bool) (w w' : World) (v : string) :
  SelectOption fuel ui title usage options longField w = (Some (v, None), w') ->
  exists n, (reads w <= n)%nat /\ rerr (stdin w n) = None /\
    let choice := TrimSpace (text (stdin w n)) in
    let opts := RemoveDuplicates options [] in
    (ToUpper choice = "B" /\ v = "" /\ reads w' = S n)
    \/ (exists index o,
          Atoi choice = Some index /\ 1 <= index
          /\ opts !! Z.to_nat (index - 1) = Some o
          /\ v = unTag ui o /\ reads w' = S n)
    \/ (longField = false /\ ToUpper choice = "E"
        /\ rerr (stdin w (S n)) = None
        /\ v = TrimSpace (text (stdin w (S n)))
        /\ says_yes (stdin w (S (S n))) = true
        /\ reads w' = S (S (S n)))
    \/ (longField = true /\ ToUpper choice = "E"
        /\ (exists k c, (edits w <= k)%nat /\ edits w' = S k
                        /\ editor w k (allVersions_from ui 0 opts) = Edited c
                        /\ v = TrimSpace c)
        /\ says_yes (stdin w (S n)) = true
        /\ reads w' = S (S n)).
Proof.
  unfold SelectOption. generalize (RemoveDuplicates options []) as opts. intros opts.
  assert (G : forall errs w0,
    stdin w0 = stdin w -> editor w0 = editor w ->
    (reads w <= reads w0)%nat -> (edits w <= edits w0)%nat ->
    SelectOption_loop fuel ui opts longField errs w0 = (Some (v, None), w') ->
    exists n, (reads w <= n)%nat /\ rerr (stdin w n) = None /\
      ((ToUpper (TrimSpace (text (stdin w n))) = "B" /\ v = "" /\ reads w' = S n)
       \/ (exists index o,
             Atoi (TrimSpace (text (stdin w n))) = Some index /\ 1 <= index
             /\ opts !! Z.to_nat (index - 1) = Some o
             /\ v = unTag ui o /\ reads w' = S n)
       \/ (longField = false /\ ToUpper (TrimSpace (text (stdin w n))) = "E"
           /\ rerr (stdin w (S n)) = None
           /\ v = TrimSpace (text (stdin w (S n)))
           /\ says_yes (stdin w (S (S n))) = true
           /\ reads w' = S (S (S n)))
       \/ (longField = true /\ ToUpper (TrimSpace (text (stdin w n))) = "E"
           /\ (exists k c, (edits w <= k)%nat /\ edits w' = S k
                           /\ editor w k (allVersions_from ui 0 opts) = Edited c
                           /\ v = TrimSpace c)
           /\ says_yes (stdin w (S n)) = true
           /\ reads w' = S (S n)))).
  { induction fuel as [|fuel IH]; intros errs w0 Hs He Hr Hed;
      cbn [SelectOption_loop]; [done|].
    unfold mbind, IO_bind.
    pose proof (SelectOption_body_value ui opts longField errs w0) as Hval.
    pose proof (SelectOption_body_world ui opts longField errs w0) as Hworld.
    destruct (SelectOption_body ui opts longField errs w0) as [t w1].
    cbn [fst snd] in *. destruct Hworld as (Hs1 & He1 & Hr1 & Hed1).
    destruct t as [r|errs1].
    - intros [= -> ->]. destruct (Hval w' v eq_refl) as [Herr Hcases].
      exists (reads w0). rewrite <- Hs, <- He. split_and!; [done|done|].
      destruct Hcases as [?|[?|[?|(-> & HE & (c & Hc & ->) & Hyes & Hreads & Hedits)]]];
        [by left|by right; left|by right; right; left|].
      right. right. right. split_and!; [done|done| |done|done].
      exists (edits w0), c. done.
    - apply IH; [congruence|congruence|lia|lia]. }
  intros Hrun. apply (G 0%nat w); auto.
Qed.

Lemma SelectOption_value_provenance_witness :
  exists n, (reads (typing ["7"; "e"; " J.R.R. Tolkien"; "y"]) <= n)%nat
    /\ rerr (stdin (typing ["7"; "e"; " J.R.R. Tolkien"; "y"]) n) = None /\
    let w := typing ["7"; "e"; " J.R.R. Tolkien"; "y"] in
    let w' := Nat.iter 4 next_line w in
    let v := "J.R.R. Tolkien" in
    let choice := TrimSpace (text (stdin w n)) in
    let opts := RemoveDuplicates [Tag ansi "Tolkien" true] [] in
    (ToUpper choice = "B" /\ v = "" /\ reads w' = S n)
    \/ (exists index o,
          Atoi choice = Some index /\ 1 <= index
          /\ opts !! Z.to_nat (index - 1) = Some o
          /\ v = unTag ansi o /\ reads w' = S n)
    \/ (false = false /\ ToUpper choice = "E"
        /\ rerr (stdin w (S n)) = None
        /\ v = TrimSpace (text (stdin w (S n)))
        /\ says_yes (stdin w (S (S n))) = true
        /\ reads w' = S (S (S n)))
    \/ (false = true /\ ToUpper choice = "E"
        /\ (exists k c, (edits w <= k)%nat /\ edits w' = S k
                        /\ editor w k (allVersions_from ansi 0 opts) = Edited c
                        /\ v = TrimSpace c)
        /\ says_yes (stdin w (S n)) = true
        /\ reads w' = S (S n)).
Proof.
  apply (SelectOption_value_provenance 11 ansi "Author" "" [Tag ansi "Tolkien" true] false
           (typing ["7"; "e"; " J.R.R. Tolkien"; "y"])
           (Nat.iter 4 next_line (typing ["7"; "e"; " J.R.R. Tolkien"; "y"]))
           "J.R.R. Tolkien").
  reflexivity.
Defined.

(** X13. An option that carries no tag comes out of [unTag] with its
    surrounding white space removed and nothing else changed. *)
Theorem unTag_untagged (ui : UI) (option : string) :
  Contains option (CyanBold ui LocalTag) = false ->
  Contains option (YellowBold ui OnlineTag) = false ->
  unTag ui option = TrimSpace option.
Proof.
  intros HL HO. unfold unTag. cbn zeta.
  rewrite (Replace_absent option (CyanBold ui LocalTag)) by done.
  by rewrite Replace_absent.
Qed.

Lemma unTag_untagged_witness : unTag ansi "  Dune " = TrimSpace "  Dune ".
Proof. apply (unTag_untagged ansi "  Dune "); reflexivity. Defined.

(** ** Existence tests *)

(** A tree without symbolic links is walked down name by name. *)
Lemma descend_plain (fs : files) follow jump (rest : path) : forall (canon c : path) i,
  no_links fs ->
  descend fs follow jump canon rest = Found c i ->
  c = canon ++ rest /\ fs !! c = Some i.
Proof.
  induction rest as [|n rest IH]; intros canon c i Hplain; cbn [descend].
  - destruct (fs !! canon) as [[| |t|]|] eqn:Hc; try done.
    + intros [= <- <-]. by rewrite app_nil_r.
    + intros [= <- <-]. by rewrite app_nil_r.
    + by destruct (Hplain canon t).
    + intros [= <- <-]. by rewrite app_nil_r.
  - destruct (fs !! canon) as [[| |t|]|] eqn:Hc; try done.
    + intros Hd. apply IH in Hd as [-> Hd]; [|done].
      by rewrite <- app_assoc in *.
    + by destruct (Hplain canon t).
Qed.

Lemma resolve_plain (fs : files) follow (p c : path) i :
  no_links fs ->
  resolve max_hops fs follow p = Found c i -> c = p /\ fs !! p = Some i.
Proof.
  intros Hplain. rewrite resolve_max_hops. intros Hd.
  apply descend_plain in Hd as [-> Hd]; done.
Qed.

Lemma no_links_b_true (fs : files) : no_links_b fs = true -> no_links fs.
Proof.
  unfold no_links_b. rewrite forallb_forall. intros Hall k t Hk.
  apply elem_of_map_to_list, list_elem_of_In, Hall in Hk. done.
Qed.

(** X15. In a well-formed tree without symbolic links,
    [DirectoryExists] answers [true] exactly for the directories and
    [AbsoluteFileExists] exactly for the regular files; in any tree they
    never both answer [true] for a path. *)
Theorem existence_tests (fs : files) (p : path) :
  (DirectoryExists fs p && AbsoluteFileExists fs p = false)
  /\ (well_formed fs -> no_links fs ->
      (DirectoryExists fs p = true <-> fs !! p = Some IDir)
      /\ (AbsoluteFileExists fs p = true <-> exists data, fs !! p = Some (IFile data))).
Proof.
  split.
  - unfold DirectoryExists, AbsoluteFileExists, IsDir, IsRegular.
    destruct (Stat fs p) as [e|info]; [done|]. by destruct (kind info).
  - intros Hwf Hplain.
    unfold DirectoryExists, AbsoluteFileExists, Stat, info_of, IsDir, IsRegular.
    split; split.
    + destruct (resolve max_hops fs true p) as [c i|c|e] eqn:Hr; try done.
      apply resolve_plain in Hr as [-> Hr]; [|done]. cbn. by destruct i.
    + intros Hp. by rewrite (resolve_found fs true p IDir) by (auto; right; done).
    + destruct (resolve max_hops fs true p) as [c i|c|e] eqn:Hr; try done.
      apply resolve_plain in Hr as [-> Hr]; [|done]. cbn. destruct i; try done. eauto.
    + intros [data Hp].
      by rewrite (resolve_found fs true p (IFile data)) by (auto; right; done).
Qed.

Lemma existence_tests_witness :
  (DirectoryExists plain_shelves ["b"; "c"] = true
   <-> plain_shelves !! ["b"; "c"] = Some IDir)
  /\ (AbsoluteFileExists plain_shelves ["b"; "c"] = true
      <-> exists data, plain_shelves !! ["b"; "c"] = Some (IFile data)).
Proof.
  apply (proj2 (existence_tests plain_shelves ["b"; "c"])).
  - apply well_formed_b_true. by vm_compute.
  - apply no_links_b_true. by vm_compute.
Defined.

(** X16. In a well-formed tree, [IsDirectoryEmpty] answers [true]
    exactly for a directory with nothing in it (and then without error),
    and answers a path that does not exist with the error of the failed
    [Open]. *)
Theorem IsDirectoryEmpty_answers (fs : files) (p : path) :
  well_formed fs ->
  (forall i, fs !! p = Some i -> (forall t, i <> ISymlink t) ->
             (IsDirectoryEmpty fs p = (true, None)
              <-> i = IDir /\ forall n, fs !! (p ++ [n]) = None))
  /\ (creatable fs p -> IsDirectoryEmpty fs p = (false, Some (PathError ENOENT))).
Proof.
  intros Hwf. split.
  - intros i Hp Hi. destruct (decide (i = IDir)) as [->|Hnd].
    + rewrite IsDirectoryEmpty_dir by done. rewrite <- children_nil. split.
      * intros [= Hb]. split; [done|]. by apply bool_decide_eq_true in Hb.
      * intros [_ Hc]. by rewrite bool_decide_eq_true_2.
    + split; [|by intros [? _]].
      unfold IsDirectoryEmpty, Open, Stat, info_of.
      rewrite (resolve_found fs true p i) by auto.
      unfold Readdirnames1. cbn [kind]. by destruct i.
  - intros Hc. unfold IsDirectoryEmpty, Open. by rewrite Stat_creatable.
Qed.

Lemma IsDirectoryEmpty_answers_witness :
  (forall i, shelves !! ["a"; "e"; "f"] = Some i -> (forall t, i <> ISymlink t) ->
             (IsDirectoryEmpty shelves ["a"; "e"; "f"] = (true, None)
              <-> i = IDir /\ forall n, shelves !! (["a"; "e"; "f"] ++ [n]) = None))
  /\ (creatable shelves ["a"; "e"; "f"] ->
      IsDirectoryEmpty shelves ["a"; "e"; "f"] = (false, Some (PathError ENOENT))).
Proof.
  apply (IsDirectoryEmpty_answers shelves ["a"; "e"; "f"]).
  apply well_formed_b_true. by vm_compute.
Defined.

(** ** Copying files *)

(** X17. [CopyFile] changes nothing but the file its destination
    resolves to, whatever it returns. *)
Theorem CopyFile_changes_only_destination
        (src dst : path) (fs fs' : files) (err : option error) (k : path) :
  CopyFile src dst fs = Ok err fs' ->
  fs' !! k <> fs !! k ->
  (exists i, resolve max_hops fs true dst = Found k i)
  \/ resolve max_hops fs true dst = Absent k.
Proof.
  assert (Hcontents : forall e fs1,
    copyFileContents src dst fs = Ok e fs1 -> fs1 !! k <> fs !! k ->
    (exists i, resolve max_hops fs true dst = Found k i)
    \/ resolve max_hops fs true dst = Absent k).
  { intros e fs1. unfold copyFileContents, update.
    destruct (Open fs src) as [?|input]; [by intros [= <- <-]|].
    destruct (resolve max_hops fs true dst) as [out i|out|?]; [| |by intros [= <- <-]].
    - destruct i as [data| |t|].
      + destruct (decide (out = k)) as [->|Hne]; [eauto|].
        destruct (<[out:=IFile ""]> fs !! ino input) as [[]|];
          intros [= <- <-]; by rewrite ?lookup_insert_ne by done.
      + by intros [= <- <-].
      + by intros [= <- <-].
      + by destruct (fs !! ino input) as [[]|]; intros [= <- <-].
    - destruct (decide (out = k)) as [->|Hne]; [eauto|].
      destruct (<[out:=IFile ""]> fs !! ino input) as [[]|];
        intros [= <- <-]; by rewrite ?lookup_insert_ne by done. }
  unfold CopyFile, mbind, FSM_bind, read.
  destruct (Stat fs src) as [?|sfi]; [by intros [= <- <-]|].
  destruct (negb (IsRegular sfi)); [by intros [= <- <-]|].
  destruct (Stat fs dst) as [e|dfi].
  - destruct (negb (IsNotExist e)); [by intros [= <- <-]|]. apply Hcontents.
  - destruct (negb (IsRegular dfi)); [by intros [= <- <-]|].
    destruct (SameFile sfi dfi); [by intros [= <- <-]|]. apply Hcontents.
Qed.

Lemma CopyFile_changes_only_destination_witness :
  (exists i, resolve max_hops shelves true ["z"] = Found ["z"] i)
  \/ resolve max_hops shelves true ["z"] = Absent ["z"].
Proof.
  apply (CopyFile_changes_only_destination ["a"; "l"] ["z"] shelves
           (<[ ["z"] := IFile "hello" ]> shelves) None ["z"]).
  - by vm_compute.
  - by vm_compute.
Defined.

(** X18. When source and destination are the same regular file, under
    one name or through a link, [CopyFile] returns [nil] and leaves the
    tree alone: the file is not truncated. *)
Theorem CopyFile_same_file (src dst : path) (fs : files) (sfi : FileInfo) :
  Stat fs src = inr sfi -> IsRegular sfi = true -> Stat fs dst = inr sfi ->
  CopyFile src dst fs = Ok None fs.
Proof.
  intros Hs Hreg Hd. unfold CopyFile, mbind, FSM_bind, read.
  rewrite Hs, Hreg. cbn [negb]. rewrite Hd, Hreg. cbn [negb]. unfold SameFile.
  by rewrite bool_decide_eq_true_2.
Qed.

Lemma CopyFile_same_file_witness :
  CopyFile ["a"; "x"] ["a"; "l"] shelves = Ok None shelves.
Proof.
  apply (CopyFile_same_file ["a"; "x"] ["a"; "l"] shelves
           {| ino := ["a"; "x"]; kind := IFile "hello" |}); reflexivity.
Defined.

Lemma well_formed_overwrite (fs : files) (p : path) (old data : string) :
  well_formed fs -> fs !! p = Some (IFile old) ->
  well_formed (<[p := IFile data]> fs).
Proof.
  intros [Hroot Hdirs] Hp. split.
  - rewrite lookup_insert_ne; [done|]. intros Heq. subst p. congruence.
  - intros q n Hq.
    assert (Hsome : is_Some (fs !! (q ++ [n]))).
    { destruct (decide (p = q ++ [n])) as [Heq|Hne]; [subst p; by rewrite Hp|].
      by rewrite lookup_insert_ne in Hq. }
    apply Hdirs in Hsome.
    rewrite lookup_insert_ne; [done|]. intros Heq. subst p. congruence.
Qed.

Lemma CalculateSHA256_file (sha256hex : string -> string) (fs : files) (p : path) (data : string) :
  well_formed fs -> fs !! p = Some (IFile data) ->
  CalculateSHA256 sha256hex fs p = (sha256hex data, None).
Proof.
  intros Hwf Hp. unfold CalculateSHA256, Open, Stat, info_of.
  by rewrite (resolve_found fs true p (IFile data)) by (auto; right; done).
Qed.

(** X19. [CopyFile] of a regular file to another place, a new name in a
    directory or an existing regular file, returns [nil]; afterwards the
    destination holds the content of the source, nothing else has
    changed, and [CalculateSHA256] gives the same digest for both. *)
Theorem CopyFile_copies
        (sha256hex : string -> string) (src dst : path) (fs : files) (data : string) :
  well_formed fs -> fs !! src = Some (IFile data) -> dst <> src ->
  ((exists old, fs !! dst = Some (IFile old))
   \/ (exists dir n, dst = dir ++ [n] /\ fs !! dir = Some IDir /\ fs !! dst = None)) ->
  let fs' := <[dst := IFile data]> fs in
  CopyFile src dst fs = Ok None fs'
  /\ well_formed fs'
  /\ CalculateSHA256 sha256hex fs' dst = (sha256hex data, None)
  /\ CalculateSHA256 sha256hex fs' src = CalculateSHA256 sha256hex fs src.
Proof.
  intros Hwf Hsrc Hne Hdst fs'.
  assert (Hwf' : well_formed fs').
  { destruct Hdst as [[old Hold]|(dir & n & -> & Hdir & Hnone)].
    - by apply (well_formed_overwrite fs dst old).
    - by apply well_formed_insert. }
  split_and!; [|done| |].
  - destruct Hdst as [[old Hold]|(dir & n & -> & Hdir & Hnone)];
      [|by apply CopyFile_new].
    unfold CopyFile, mbind, FSM_bind, read, Stat, info_of.
    rewrite (resolve_found fs true src (IFile data)) by (auto; right; done).
    cbn [IsRegular kind negb].
    rewrite (resolve_found fs true dst (IFile old)) by (auto; right; done).
    cbn [IsRegular kind negb]. unfold SameFile. cbn [ino].
    rewrite bool_decide_eq_false_2 by done.
    unfold copyFileContents, update, Open, Stat, info_of.
    rewrite (resolve_found fs true src (IFile data)) by (auto; right; done).
    rewrite (resolve_found fs true dst (IFile old)) by (auto; right; done).
    cbn [ino]. rewrite lookup_insert_ne by done. rewrite Hsrc.
    by rewrite insert_insert_eq.
  - apply CalculateSHA256_file; [done|]. apply lookup_insert_eq.
  - rewrite !(CalculateSHA256_file _ _ src data); [done..|].
    unfold fs'. by rewrite lookup_insert_ne.
Qed.

Lemma CopyFile_copies_witness :
  let fs' := <[ ["z"] := IFile "hello" ]> shelves in
  CopyFile ["a"; "x"] ["z"] shelves = Ok None fs'
  /\ well_formed fs'
  /\ CalculateSHA256 (fun s => s) fs' ["z"] = ("hello", None)
  /\ CalculateSHA256 (fun s => s) fs' ["a"; "x"]
     = CalculateSHA256 (fun s => s) shelves ["a"; "x"].
Proof.
  apply (CopyFile_copies (fun s => s) ["a"; "x"] ["z"] shelves "hello").
  - apply well_formed_b_true. by vm_compute.
  - reflexivity.
  - done.
  - left. by exists "zz".
Defined.

(** X20. [CalculateSHA256] returns the empty string with the error when
    the file cannot be opened or is a directory. *)
Theorem CalculateSHA256_errors
        (sha256hex : string -> string) (fs : files) (p : path) :
  well_formed fs ->
  (creatable fs p -> CalculateSHA256 sha256hex fs p = ("", Some (PathError ENOENT)))
  /\ (fs !! p = Some IDir ->
      CalculateSHA256 sha256hex fs p = ("", Some (PathError EISDIR))).
Proof.
  intros Hwf. split.
  - intros Hc. unfold CalculateSHA256, Open. by rewrite Stat_creatable.
  - intros Hd. unfold CalculateSHA256, Open. by rewrite Stat_dir.
Qed.

Lemma CalculateSHA256_errors_witness :
  (creatable shelves ["b"] ->
   CalculateSHA256 (fun s => s) shelves ["b"] = ("", Some (PathError ENOENT)))
  /\ (shelves !! ["b"] = Some IDir ->
      CalculateSHA256 (fun s => s) shelves ["b"] = ("", Some (PathError EISDIR))).
Proof.
  apply (CalculateSHA256_errors (fun s => s) shelves ["b"]).
  apply well_formed_b_true. by vm_compute.
Defined.

(** ** Copying directories *)

(** X21. When nothing denies it, [CopyDir] copies, and every regular
    file below the source then has a copy at the same place below the
    destination for which [CalculateSHA256] gives the digest of the
    original. *)
Theorem CopyDir_preserves_digests
        (sha256hex : string -> string) (ps : Permissions.permissions) (fs : files)
        (src dst : path) (fuel : nat) :
  well_formed fs -> fs !! src = Some IDir -> creatable fs dst ->
  ~ src `prefix_of` dst -> copyable fs src -> Permissions.accessible ps ->
  (height fs < fuel)%nat ->
  exists fs' ps',
    Permissions.CopyDir fuel src dst ps fs = Ok (None, ps') fs'
    /\ forall q data,
        fs !! (src ++ q) = Some (IFile data) ->
        CalculateSHA256 sha256hex fs' (dst ++ q) = (sha256hex data, None)
        /\ CalculateSHA256 sha256hex fs (src ++ q) = (sha256hex data, None).
Proof.
  intros Hwf Hsrc Hdst Hapart Hcopy Hps Hfuel.
  destruct (copy_dir_tree_copies fuel src dst fs) as (fs' & E & Hwf' & _ & Hcopies);
    try done.
  { intros q Hq. apply height_le_height in Hq. rewrite length_app in Hq. lia. }
  destruct (CopyDir_granted fuel src dst ps fs Hps) as (ps' & _ & Enew).
  rewrite E in Enew.
  exists fs', ps'. split; [done|]. intros q data Hq. split.
  - apply CalculateSHA256_file; [done|]. rewrite Hcopies. unfold copy_of. by rewrite Hq.
  - by apply CalculateSHA256_file.
Qed.

Lemma CopyDir_preserves_digests_witness :
  exists fs' ps',
    Permissions.CopyDir 11 ["a"] ["n"; "m"] owner shelves = Ok (None, ps') fs'
    /\ forall q data,
        shelves !! (["a"] ++ q) = Some (IFile data) ->
        CalculateSHA256 (fun s => s) fs' (["n"; "m"] ++ q) = (data, None)
        /\ CalculateSHA256 (fun s => s) shelves (["a"] ++ q) = (data, None).
Proof.
  apply (CopyDir_preserves_digests (fun s => s) owner shelves ["a"] ["n"; "m"] 11).
  - apply well_formed_b_true. by vm_compute.
  - reflexivity.
  - exists [], "n", ["m"]. by vm_compute.
  - intros [k Hk]. discriminate Hk.
  - apply copyable_b_true. by vm_compute.
  - apply accessible_b_true. by vm_compute.
  - vm_compute. lia.
Defined.

(** ** Removing empty directories *)

(** X22. From a root that is not a directory (it does not exist, it is
    a file, or it is a symbolic link, also one to a directory),
    [DeleteEmptyFolders] makes one scan that visits the root only,
    removes nothing and returns [nil]. *)
Theorem DeleteEmptyFolders_not_a_directory (fs : files) (root : path) (fuel : nat) :
  (forall info, Lstat fs root = inr info -> IsDir info = false) ->
  DeleteEmptyFolders (S (S fuel)) root fs = Ok (None, 0%nat) fs.
Proof.
  intros Hroot. unfold DeleteEmptyFolders.
  unfold mbind at 1, FSM_bind at 1. cbn [scan_loop negb orb].
  unfold mbind at 1, FSM_bind at 1.
  assert (E : Walk (S fuel) root (deleteIfEmpty root)
                {| deletedDirectories := 0; deletedDirectoriesThisTime := 0 |} fs
              = Ok (None, {| deletedDirectories := 0; deletedDirectoriesThisTime := 0 |}) fs).
  { unfold Walk, mbind, FSM_bind, read.
    destruct (Lstat fs root) as [e|info] eqn:Hl.
    - by rewrite deleteIfEmpty_root.
    - cbn [walk]. rewrite (Hroot info eq_refl). cbn [negb].
      by rewrite deleteIfEmpty_root. }
  cbn [deletedDirectories]. rewrite E. reflexivity.
Qed.

Lemma DeleteEmptyFolders_not_a_directory_witness :
  DeleteEmptyFolders 2 ["a"; "l"] shelves = Ok (None, 0%nat) shelves.
Proof.
  apply (DeleteEmptyFolders_not_a_directory shelves ["a"; "l"] 0).
  intros info. by intros [= <-].
Defined.

(** X23. A second run of [DeleteEmptyFolders] finds nothing to remove:
    on the tree that a run has left, it returns [nil], counts no
    directory and changes nothing. *)
Theorem DeleteEmptyFolders_idempotent
        (fs fs' : files) (root : path) (fuel n : nat) (err : option error) :
  well_formed fs -> fs !! root = Some IDir ->
  (size fs + height fs + 1 < fuel)%nat ->
  DeleteEmptyFolders fuel root fs = Ok (err, n) fs' ->
  DeleteEmptyFolders fuel root fs' = Ok (None, 0%nat) fs'.
Proof.
  intros Hwf Hroot Hfuel Hrun.
  destruct (scan_loop_sweeps fs root (height fs) (size fs) fuel fs
              {| deletedDirectories := 0; deletedDirectoriesThisTime := 0 |} None false)
    as (fs1 & c1 & E & Hs & Hsz & Hne);
    [done|by apply swept_refl|apply height_le_height|done|by left|lia|].
  unfold DeleteEmptyFolders, mbind, FSM_bind in Hrun. rewrite E in Hrun.
  cbn beta iota in Hrun. injection Hrun as _ _ <-.
  assert (Hh : height_le fs1 (height fs)).
  { destruct Hs as (_ & Hsub & _).
    apply (height_le_subseteq (height fs) fs); [done|apply height_le_height]. }
  assert (Hroot1 : fs1 !! root = Some IDir).
  { rewrite (swept_root fs root fs1); [done|done|by eexists]. }
  assert (Hwf1 : well_formed fs1) by apply Hs.
  cbn in Hsz.
  destruct (scan_loop_sweeps fs1 root (height fs) (size fs1) fuel fs1
              {| deletedDirectories := 0; deletedDirectoriesThisTime := 0 |} None false)
    as (fs2 & c2 & E2 & Hs2 & Hsz2 & _);
    [done|by apply swept_refl|done|done|by left|lia|].
  assert (Heq : fs2 = fs1).
  { destruct Hs2 as (_ & Hsub & Hgone). apply map_eq. intros k.
    destruct (fs2 !! k) as [j|] eqn:Hj.
    - symmetry. by apply (lookup_weaken fs2 fs1).
    - destruct (fs1 !! k) as [i|] eqn:Hi; [|done].
      destruct (Hgone k) as [Hbelow Hhollow]; [by eexists|done|].
      pose proof (swept_no_hollow fs1 root fs1 (height fs) (swept_refl root fs1 Hwf1)
                    Hh Hne k Hbelow Hhollow) as Hnone.
      congruence. }
  subst fs2. unfold DeleteEmptyFolders, mbind, FSM_bind. rewrite E2.
  cbn beta iota. cbn in Hsz2.
  replace (deletedDirectories c2) with 0%nat by lia. done.
Qed.

Lemma DeleteEmptyFolders_idempotent_witness :
  DeleteEmptyFolders 20 ["b"] (delete ["b"; "c"] (delete ["b"; "c"; "d"] shelves))
  = Ok (None, 0%nat) (delete ["b"; "c"] (delete ["b"; "c"; "d"] shelves)).
Proof.
  apply (DeleteEmptyFolders_idempotent shelves _ ["b"] 20 2 None).
  - apply well_formed_b_true. by vm_compute.
  - reflexivity.
  - vm_compute. lia.
  - by vm_compute.
Defined.

(** ** Unique file names, continued *)

Lemma length_append (a b : string) :
  String.length (a +:+ b) = (String.length a + String.length b)%nat.
Proof.
  induction a as [|c a IH]; [done|].
  change (String c a +:+ b) with (String c (a +:+ b)).
  cbn [String.length Nat.add]. by rewrite IH.
Qed.

Lemma split_slash_name (s : string) : has_slash s = false -> split_slash s = [s].
Proof.
  induction s as [|c s IH]; cbn [has_slash split_slash]; [done|].
  intros H. apply orb_false_iff in H as [Hc Hs]. rewrite Hc, IH; done.
Qed.

(** [filepath.Join] with a plain name appends it. *)
Lemma Join_name (dir : path) (name : string) :
  has_slash name = false -> (2 < String.length name)%nat ->
  Join dir name = dir ++ [name].
Proof.
  intros Hs Hl. unfold Join. rewrite split_slash_name by done. cbn [foldl].
  destruct name as [|a [|b [|c name]]]; cbn in Hl; try lia.
  replace ((String a (String b (String c name)) =? "")%string) with false by done.
  replace ((String a (String b (String c name)) =? ".")%string) with false
    by (cbn; by destruct (Ascii.eqb a ".")).
  replace ((String a (String b (String c name)) =? "..")%string) with false
    by (cbn; destruct (Ascii.eqb a "."); [|done]; by destruct (Ascii.eqb b ".")).
  done.
Qed.

(** X24. When the directory does not exist and can be made,
    [GetUniqueTimestampedFilename] makes it, with the directories above
    it that are missing, and returns the first candidate name in it,
    without a suffix; no file of that name exists, and nothing outside
    the new directories has changed. *)
Theorem GetUniqueTimestampedFilename_makes_directory
        (now : string) (dir : path) (filename : string) (fs : files) (fuel : nat) :
  let name := candidate_name now (TrimSuffix (Base filename) (Ext filename)) 0 in
  well_formed fs -> creatable fs dir -> has_slash name = false ->
  exists fs',
    GetUniqueTimestampedFilename (S fuel) now dir filename fs
    = Ok (dir ++ [name], None) fs'
    /\ fs' !! dir = Some IDir
    /\ fs' !! (dir ++ [name]) = None
    /\ forall k, ~ k `prefix_of` dir -> fs' !! k = fs !! k.
Proof.
  intros name Hwf Hdir Hname.
  destruct (MkdirAll_creatable fs dir Hwf Hdir)
    as (fs1 & Emk & Hwf1 & Hd1 & Hinside & Houtside & _).
  exists fs1.
  assert (Hlen : (2 < String.length name)%nat).
  { unfold name, candidate_name. rewrite !length_append. cbn. lia. }
  assert (Hfree : fs1 !! (dir ++ [name]) = None) by (by apply Hinside).
  split_and!; [|done..].
  unfold GetUniqueTimestampedFilename.
  unfold mbind at 1, FSM_bind at 1, read at 1.
  unfold DirectoryExists. rewrite Stat_creatable by done.
  unfold mbind at 1, FSM_bind at 1, update. rewrite Emk.
  unfold mbind, FSM_bind.
  rewrite (search_loop_first_free now dir _ fs1 0 0 [] (S fuel)); [| lia | | | lia].
  - cbn [uniqueFilename Nat.add]. fold name. by rewrite Join_name.
  - intros a Ha. lia.
  - cbn [Nat.add]. fold name. rewrite Join_name by done.
    unfold AbsoluteFileExists, Stat, info_of.
    by rewrite (resolve_absent fs1 true dir name).
Qed.

Lemma GetUniqueTimestampedFilename_makes_directory_witness :
  exists fs',
    GetUniqueTimestampedFilename 1 "2016-06-01 12:00:00" ["backups"; "daily"]
      "/home/me/library.epub" shelves
    = Ok (["backups"; "daily"] ++ ["2016-06-01 12:00:00 - library.tar.gz"], None) fs'
    /\ fs' !! ["backups"; "daily"] = Some IDir
    /\ fs' !! (["backups"; "daily"] ++ ["2016-06-01 12:00:00 - library.tar.gz"]) = None
    /\ forall k, ~ k `prefix_of` ["backups"; "daily"] -> fs' !! k = shelves !! k.
Proof.
  apply (GetUniqueTimestampedFilename_makes_directory "2016-06-01 12:00:00"
           ["backups"; "daily"] "/home/me/library.epub" shelves 0).
  - apply well_formed_b_true. by vm_compute.
  - exists [], "backups", ["daily"]. by vm_compute.
  - reflexivity.
Defined.

(** X25. When the directory exists as something else than a directory,
    [GetUniqueTimestampedFilename] returns the error of [MkdirAll] with
    an empty name, and changes nothing. *)
Theorem GetUniqueTimestampedFilename_not_a_directory
        (now : string) (dir : path) (filename : string) (fs : files) (fuel : nat)
        (info : FileInfo) :
  Stat fs dir = inr info -> IsDir info = false ->
  GetUniqueTimestampedFilename fuel now dir filename fs
  = Ok ([], Some (PathError ENOTDIR)) fs.
Proof.
  intros Hs Hd. unfold GetUniqueTimestampedFilename.
  unfold mbind at 1, FSM_bind at 1, read at 1.
  unfold DirectoryExists. rewrite Hs, Hd.
  unfold mbind at 1, FSM_bind at 1, update, MkdirAll.
  by destruct (length dir); cbn [mkdirAll]; rewrite Hs, Hd.
Qed.

Lemma GetUniqueTimestampedFilename_not_a_directory_witness :
  GetUniqueTimestampedFilename 0 "2016-06-01 12:00:00" ["z"] "library.epub" shelves
  = Ok ([], Some (PathError ENOTDIR)) shelves.
Proof.
  apply (GetUniqueTimestampedFilename_not_a_directory _ _ _ _ _
           {| ino := ["z"]; kind := IFile "zz" |}); reflexivity.
Defined.

Lemma GetUniqueTimestampedFilename_first_free_witness :
  GetUniqueTimestampedFilename 2 "2016-06-01 12:00:00" ["backups"]
    "/home/me/library.epub" dated
  = Ok (["backups"; "2016-06-01 12:00:00 - library_1.tar.gz"], None) dated.
Proof.
  apply (GetUniqueTimestampedFilename_first_free "2016-06-01 12:00:00" ["backups"]
           "/home/me/library.epub" dated 1 2); [reflexivity|lia| |reflexivity|lia].
  intros a Ha. destruct a as [|a]; [reflexivity|lia].
Defined.

(** Whatever the loop of [GetUniqueTimestampedFilename] returns is one
    of the candidate names, and no regular file has it: the loop only
    reads the tree, keeps the name of the first candidate that
    [FileExists] did not find, and is left only once a name is kept and
    at most 50 candidates were taken. *)
Lemma search_loop_returns_free (now : string) (dir : path) (filenameBase : string)
      (fs fs' : files) (fuel : nat) : forall s s',
  (uniqueNameFound s = true ->
   AbsoluteFileExists fs (uniqueFilename s) = false
   /\ exists a, (a <= attempts s)%nat
                /\ uniqueFilename s = Join dir (candidate_name now filenameBase a)) ->
  search_loop fuel now dir filenameBase s fs = Ok s' fs' ->
  fs' = fs
  /\ AbsoluteFileExists fs (uniqueFilename s') = false
  /\ exists a, (a <= 50)%nat
               /\ uniqueFilename s' = Join dir (candidate_name now filenameBase a).
Proof.
  induction fuel as [|fuel IH]; intros s s' Hinv; rewrite search_loop_unfold;
    destruct (searching s) eqn:Hsearch; try done.
  - intros [= <- <-]. unfold searching in Hsearch.
    apply orb_false_iff in Hsearch as [Hfound Hfew].
    apply negb_false_iff in Hfound. apply Nat.ltb_ge in Hfew.
    destruct (Hinv Hfound) as (Hfree & a & Ha & Hname).
    split_and!; [done..|]. exists a. split; [lia|done].
  - apply IH.
    destruct (AbsoluteFileExists fs (Join dir (candidate_name now filenameBase (attempts s))))
      eqn:Hthere.
    + rewrite try_candidate_taken by done. cbn. intros Hfound.
      destruct (Hinv Hfound) as (Hfree & a & Ha & Hname).
      split; [done|]. exists a. split; [lia|done].
    + rewrite try_candidate_free by done. cbn. intros _.
      split; [done|]. by exists (attempts s).
  - intros [= <- <-]. unfold searching in Hsearch.
    apply orb_false_iff in Hsearch as [Hfound Hfew].
    apply negb_false_iff in Hfound. apply Nat.ltb_ge in Hfew.
    destruct (Hinv Hfound) as (Hfree & a & Ha & Hname).
    split_and!; [done..|]. exists a. split; [lia|done].
Qed.

(** X27. A name that [GetUniqueTimestampedFilename] returns without
    error is free: it is one of the first 51 candidate names in the
    directory, and no regular file has it in the tree the function
    leaves. *)
Theorem GetUniqueTimestampedFilename_returns_free_name
        (now : string) (dir : path) (filename : string) (fs fs' : files)
        (fuel : nat) (name : path) :
  GetUniqueTimestampedFilename fuel now dir filename fs = Ok (name, None) fs' ->
  AbsoluteFileExists fs' name = false
  /\ exists a, (a <= 50)%nat
               /\ name = Join dir (candidate_name now
                                     (TrimSuffix (Base filename) (Ext filename)) a).
Proof.
  unfold GetUniqueTimestampedFilename.
  unfold mbind at 1, FSM_bind at 1, read at 1.
  unfold mbind at 1, FSM_bind at 1.
  destruct ((if DirectoryExists fs dir then FS.ret None
             else update (fun fs => MkdirAll fs dir)) fs) as [[e|] fs1| |] eqn:Hmk;
    try done.
  unfold mbind, FSM_bind.
  destruct (search_loop fuel now dir _ _ fs1) as [s' fs2| |] eqn:Hloop; try done.
  intros [= <- <-].
  apply search_loop_returns_free in Hloop as (-> & Hfree & Hname); done.
Qed.

Lemma GetUniqueTimestampedFilename_returns_free_name_witness :
  AbsoluteFileExists dated ["backups"; "2016-06-01 12:00:00 - library_1.tar.gz"] = false
  /\ exists a, (a <= 50)%nat
               /\ ["backups"; "2016-06-01 12:00:00 - library_1.tar.gz"]
                  = Join ["backups"]
                      (candidate_name "2016-06-01 12:00:00"
                         (TrimSuffix (Base "/home/me/library.epub")
                                     (Ext "/home/me/library.epub")) a).
Proof.
  apply (GetUniqueTimestampedFilename_returns_free_name "2016-06-01 12:00:00"
           ["backups"] "/home/me/library.epub" dated dated 2).
  reflexivity.
Defined.

(** X28. [CopyDir] does not copy twice: once it has copied a directory,
    the same call again returns the error "destination already exists"
    and changes nothing. *)
Theorem CopyDir_second_run
        (ps ps' : Permissions.permissions) (fs fs' : files) (src dst : path)
        (fuel fuel' : nat) :
  well_formed fs -> fs !! src = Some IDir -> creatable fs dst ->
  ~ src `prefix_of` dst -> copyable fs src -> (height fs < fuel)%nat ->
  Permissions.CopyDir fuel src dst ps fs = Ok (None, ps') fs' ->
  Permissions.CopyDir (S fuel') src dst ps' fs'
  = Ok (Some (ErrorString "destination already exists"), ps') fs'.
Proof.
  intros Hwf Hsrc Hdst Hapart Hcopy Hfuel Hrun.
  apply CopyDir_agrees in Hrun.
  destruct (copy_dir_tree_copies fuel src dst fs) as (fs1 & E & Hwf' & Hout & Hcopies);
    try done.
  { intros q Hq. apply height_le_height in Hq. rewrite length_app in Hq. lia. }
  rewrite E in Hrun. injection Hrun as <-.
  destruct (MkdirAll_creatable fs dst Hwf Hdst) as (fs0 & Emk & _ & _ & _ & Hkeep & _).
  assert (Hsrc' : fs1 !! src = Some IDir).
  { rewrite Hout, Emk; [by rewrite Hkeep|].
    pose proof (apart fs src dst [] Hwf ltac:(by eexists) Hdst Hapart) as Hap.
    by rewrite app_nil_r in Hap. }
  assert (Hdst' : fs1 !! dst = Some IDir).
  { pose proof (Hcopies []) as Hc. rewrite app_nil_r in Hc.
    rewrite Hc. unfold copy_of. by rewrite app_nil_r, Hsrc. }
  cbn [Permissions.CopyDir].
  unfold mbind, Permissions.PSM_bind, Permissions.Stat, Permissions.look.
  rewrite (Stat_dir fs1 src) by done. cbn [IsDir kind negb].
  by rewrite (Stat_dir fs1 dst) by done.
Qed.

Lemma CopyDir_second_run_witness :
  Permissions.CopyDir 1 ["a"] ["n"; "m"]
    {| Permissions.umask := 18;
       Permissions.modes := {[ ["n"] := 493; ["n"; "m"] := 493; ["n"; "m"; "e"] := 493;
                               ["n"; "m"; "e"; "f"] := 493 ]} |} copied
  = Ok (Some (ErrorString "destination already exists"),
        {| Permissions.umask := 18;
           Permissions.modes := {[ ["n"] := 493; ["n"; "m"] := 493; ["n"; "m"; "e"] := 493;
                                   ["n"; "m"; "e"; "f"] := 493 ]} |}) copied.
Proof.
  apply (CopyDir_second_run owner _ shelves copied ["a"] ["n"; "m"] 11 0).
  - apply well_formed_b_true. by vm_compute.
  - reflexivity.
  - exists [], "n", ["m"]. by vm_compute.
  - intros [k Hk]. discriminate Hk.
  - apply copyable_b_true. by vm_compute.
  - vm_compute. lia.
  - vm_compute. reflexivity.
Defined.

(** ** Invalid choices *)

(** A line that [SelectOption] takes for an invalid choice: it is read
    without error and is not edit, abort, blank or the number of an
    option. *)
Lemma SelectOption_body_invalid ui options longField errs w raw :
  stdin w (reads w) = {| text := raw; rerr := None |} ->
  ToUpper (TrimSpace raw) <> "E" ->
  ToUpper (TrimSpace raw) <> "A" ->
  ToUpper (TrimSpace raw) <> "B" ->
  (forall n, Atoi (TrimSpace raw) = Some n ->
             n <= 0 \/ Z.of_nat (length options) < n) ->
  SelectOption_body ui options longField errs w = (count_error errs, next_line w).
Proof.
  intros Hin He Ha Hb Hn. rewrite SelectOption_body_read, Hin. cbn [text rerr].
  apply String.eqb_neq in He, Ha, Hb. rewrite He, Ha, Hb.
  destruct (Atoi (TrimSpace raw)) as [n|]; [|done].
  destruct (Hn n eq_refl) as [Hlow|Hhigh].
  - by replace (0 <? n) with false by (symmetry; apply Z.ltb_ge; lia).
  - replace (n <=? Z.of_nat (length options)) with false
      by (symmetry; apply Z.leb_gt; lia).
    by rewrite andb_false_r.
Qed.

(** X29. Eleven invalid choices in a row end [SelectOption]: a number
    that is not the number of an option is counted like any other
    invalid line, and at the eleventh the function returns the error
    "Invalid choice." with an empty string, having read eleven lines. *)
Theorem SelectOption_eleven_invalid_choices
        (fuel : nat) (ui : UI) (title usage : string) (options : list string)
        (longField : bool) (w : World) :
  (11 <= fuel)%nat ->
  (forall i, (i < 11)%nat ->
     let r := stdin w (reads w + i) in
     rerr r = None
     /\ ToUpper (TrimSpace (text r)) <> "E"
     /\ ToUpper (TrimSpace (text r)) <> "A"
     /\ ToUpper (TrimSpace (text r)) <> "B"
     /\ forall n, Atoi (TrimSpace (text r)) = Some n ->
                  n <= 0 \/ Z.of_nat (length (RemoveDuplicates options [])) < n) ->
  SelectOption fuel ui title usage options longField w
  = (Some ("", Some (ErrorString invalidChoice)), Nat.iter 11 next_line w).
Proof.
  intros Hfuel Hbad. unfold SelectOption.
  set (opts := RemoveDuplicates options []) in *.
  assert (G : forall m errs fuel w,
    (errs + S m = 11)%nat -> (m < fuel)%nat ->
    (forall i, (i <= m)%nat ->
       let r := stdin w (reads w + i) in
       rerr r = None
       /\ ToUpper (TrimSpace (text r)) <> "E"
       /\ ToUpper (TrimSpace (text r)) <> "A"
       /\ ToUpper (TrimSpace (text r)) <> "B"
       /\ forall n, Atoi (TrimSpace (text r)) = Some n ->
                    n <= 0 \/ Z.of_nat (length opts) < n) ->
    SelectOption_loop fuel ui opts longField errs w
    = (Some ("", Some (ErrorString invalidChoice)), Nat.iter (S m) next_line w)).
  { clear. induction m as [|m IH]; intros errs fuel w Herrs Hfuel Hbad;
      (destruct fuel as [|fuel]; [lia|]); cbn [SelectOption_loop];
      unfold mbind, IO_bind;
      destruct (Hbad 0%nat ltac:(lia)) as (Hr & He & Ha & Hb & Hn);
      cbn zeta in *; rewrite Nat.add_0_r in *;
      destruct (stdin w (reads w)) as [raw rr] eqn:Hin; cbn [text rerr] in *; subst rr;
      rewrite (SelectOption_body_invalid ui opts longField errs w raw) by done;
      rewrite count_error_turn.
    - replace (10 <? S errs)%nat with true by (symmetry; apply Nat.ltb_lt; lia).
      reflexivity.
    - replace (10 <? S errs)%nat with false by (symmetry; apply Nat.ltb_ge; lia).
      rewrite (IH (S errs) fuel (next_line w)); [|lia|lia|].
      + by rewrite <- Nat.iter_succ_r.
      + intros i Hi. cbn [next_line stdin reads].
        replace (S (reads w) + i)%nat with (reads w + S i)%nat by lia.
        apply Hbad. lia. }
  apply (G 10%nat 0%nat fuel w); [lia|lia|].
  intros i Hi. apply Hbad. lia.
Qed.

Lemma SelectOption_eleven_invalid_choices_witness :
  SelectOption 11 ansi "Author" "" ["Tolkien"] false (repeating ["2"; "0"; "x"; ""])
  = (Some ("", Some (ErrorString invalidChoice)),
     Nat.iter 11 next_line (repeating ["2"; "0"; "x"; ""])).
Proof.
  apply (SelectOption_eleven_invalid_choices 11 ansi "Author" "" ["Tolkien"] false
           (repeating ["2"; "0"; "x"; ""])); [lia|].
  intros i Hi.
  assert (Hall : forallb (fun i =>
     let r := stdin (repeating ["2"; "0"; "x"; ""]) i in
     bool_decide (rerr r = None)
     && negb (String.eqb (ToUpper (TrimSpace (text r))) "E")
     && negb (String.eqb (ToUpper (TrimSpace (text r))) "A")
     && negb (String.eqb (ToUpper (TrimSpace (text r))) "B")
     && match Atoi (TrimSpace (text r)) with
        | Some n => (n <=? 0) || (1 <? n)
        | None => true
        end) (seq 0 11) = true) by (by vm_compute).
  rewrite forallb_forall in Hall. specialize (Hall i). cbn zeta in Hall |- *.
  rewrite !andb_true_iff, !negb_true_iff, !String.eqb_neq in Hall.
  destruct Hall as ((((Hr & He) & Ha) & Hb) & Hn); [apply in_seq; lia|].
  apply bool_decide_eq_true in Hr.
  split_and!; try done.
  intros n Hn'. change (reads (repeating ["2"; "0"; "x"; ""]) + i)%nat with i in Hn'.
  rewrite Hn' in Hn. apply orb_true_iff in Hn as [Hn|Hn].
  - left. by apply Z.leb_le.
  - right. apply Z.ltb_lt in Hn. exact Hn.
Defined.

(** X30. An edit that is not confirmed is thrown away by [UpdateValue]:
    when keep is chosen next, the old value is returned, trimmed, and
    nothing of the edit. *)
Theorem UpdateValue_unconfirmed_edit_discarded
        (fuel : nat) (field usage oldValue : string) (longField : bool)
        (w w1 w2 : World) (c : string) :
  rerr (stdin w (reads w)) = None ->
  ToLower (TrimSpace (text (stdin w (reads w)))) = "e" ->
  (if longField then Edit oldValue else GetInput) (next_line w) = ((c, None), w1) ->
  Accept "Confirm" w1 = (false, w2) ->
  rerr (stdin w2 (reads w2)) = None ->
  ToLower (TrimSpace (text (stdin w2 (reads w2)))) = "k" ->
  UpdateValue (S (S fuel)) field usage oldValue longField w
  = (Some (TrimSpace oldValue, None), next_line w2).
Proof.
  intros Herr He Hc Hn Herr2 Hk. unfold UpdateValue. cbn [UpdateValue_loop validChoice].
  unfold mbind at 1, IO_bind at 1.
  rewrite UpdateValue_body_read. cbn zeta. rewrite Herr, He.
  change (("e" =? "e")%string) with true. cbv iota.
  unfold mbind at 1, IO_bind at 1. rewrite Hc.
  unfold mbind at 1, IO_bind at 1. rewrite Hn. cbn [mret IO_ret validChoice].
  unfold mbind at 1, IO_bind at 1.
  rewrite UpdateValue_body_read. cbn zeta. rewrite Herr2, Hk.
  change (("k" =? "e")%string) with false. change (("k" =? "k")%string) with true.
  cbv iota. cbn [mret IO_ret].
  by rewrite UpdateValue_loop_valid.
Qed.

Lemma UpdateValue_unconfirmed_edit_discarded_witness :
  UpdateValue 2 "Title" "" "Dune" false (typing ["e"; "Dune Messiah"; "n"; "k"])
  = (Some ("Dune", None),
     next_line (Nat.iter 3 next_line (typing ["e"; "Dune Messiah"; "n"; "k"]))).
Proof.
  apply (UpdateValue_unconfirmed_edit_discarded 0 "Title" "" "Dune" false
           (typing ["e"; "Dune Messiah"; "n"; "k"])
           (Nat.iter 2 next_line (typing ["e"; "Dune Messiah"; "n"; "k"]))
           (Nat.iter 3 next_line (typing ["e"; "Dune Messiah"; "n"; "k"]))
           "Dune Messiah"); reflexivity.
Defined.
